(** * Spectral graph model: transfer function and fitting cost

    A shallow embedding of [spectral_graph.py]
    ([network_transfer_function], [network_transfer_cost], [mag2db]) and of
    the NumPy / SciPy primitives these two functions call.

    Numbers.  A NumPy [float64] is modelled by [f64]: a real number, or one
    of the IEEE-754 special values [+inf], [-inf], [nan].  Arithmetic on
    finite values is exact (rounding is not modelled, zero is unsigned);
    the special values follow the IEEE-754 rules.  A [complex128] is a pair
    of [f64].  Where rounding decides a property (the clamp of the coupling
    term), the code is modelled a second time on binary64 numbers, in
    [Binary64].

    Errors.  Python exceptions are values of [exn]; a computation that can
    raise returns a [result]. *)

From Stdlib Require Import Reals Lra Lia List ZArith Bool Arith.
From Stdlib Require Import Permutation Sorted.
From Stdlib Require Ascii String.
From Stdlib Require Floats.
Import ListNotations.

(** ** Exceptions *)

Inductive exn : Type :=
| IndexError
| ValueError
| TypeError
| LinAlgError.

Inductive result (A : Type) : Type :=
| Ok (a : A)
| Raise (e : exn).

Arguments Ok {A} a.
Arguments Raise {A} e.

Definition bind {A B : Type} (m : result A) (k : A -> result B) : result B :=
  match m with
  | Ok a => k a
  | Raise e => Raise e
  end.

Notation "x <- m ;; k" := (bind m (fun x => k))
  (at level 61, m at next level, right associativity).
Notation "' p <- m ;; k" := (bind m (fun p => k))
  (at level 61, p pattern, m at next level, right associativity).

(** ** float64 *)

Module F64.

Local Open Scope R_scope.

Inductive f64 : Type :=
| Fin (r : R)
| PInf
| NInf
| NaN.

Definition zero : f64 := Fin 0.
Definition one : f64 := Fin 1.

(** [np.inf]. *)
Definition inf : f64 := PInf.

(** [np.pi]. *)
Definition pi : f64 := Fin PI.

(** [np.spacing(1)], the gap between 1.0 and the next float: 2^-52. *)
Definition spacing1 : f64 := Fin (/ 2 ^ 52).

Definition of_nat (n : nat) : f64 := Fin (INR n).

Definition is_nan (x : f64) : bool :=
  match x with NaN => true | _ => false end.

Definition finite (x : f64) : Prop :=
  match x with Fin _ => True | _ => False end.

Definition neg (x : f64) : f64 :=
  match x with
  | Fin a => Fin (- a)
  | PInf => NInf
  | NInf => PInf
  | NaN => NaN
  end.

Definition add (x y : f64) : f64 :=
  match x, y with
  | NaN, _ | _, NaN => NaN
  | Fin a, Fin b => Fin (a + b)
  | PInf, NInf | NInf, PInf => NaN
  | PInf, _ | _, PInf => PInf
  | NInf, _ | _, NInf => NInf
  end.

Definition sub (x y : f64) : f64 := add x (neg y).

(** The infinity of the given sign, [nan] for sign zero. *)
Definition signed_inf (s : R) : f64 :=
  if Rlt_dec 0 s then PInf else if Rlt_dec s 0 then NInf else NaN.

Definition mul (x y : f64) : f64 :=
  match x, y with
  | NaN, _ | _, NaN => NaN
  | Fin a, Fin b => Fin (a * b)
  | PInf, Fin b => signed_inf b
  | NInf, Fin b => signed_inf (- b)
  | Fin a, PInf => signed_inf a
  | Fin a, NInf => signed_inf (- a)
  | PInf, PInf | NInf, NInf => PInf
  | PInf, NInf | NInf, PInf => NInf
  end.

(** Division; NumPy does not raise on a zero divisor, it returns an
    infinity or [nan]. *)
Definition div (x y : f64) : f64 :=
  match x, y with
  | NaN, _ | _, NaN => NaN
  | Fin a, Fin b => if Req_dec_T b 0 then signed_inf a else Fin (a / b)
  | Fin _, PInf | Fin _, NInf => Fin 0
  | PInf, Fin b => if Rlt_dec b 0 then NInf else PInf
  | NInf, Fin b => if Rlt_dec b 0 then PInf else NInf
  | PInf, PInf | PInf, NInf | NInf, PInf | NInf, NInf => NaN
  end.

Definition sqrt (x : f64) : f64 :=
  match x with
  | Fin a => if Rlt_dec a 0 then NaN else Fin (R_sqrt.sqrt a)
  | PInf => PInf
  | NInf | NaN => NaN
  end.

Definition abs (x : f64) : f64 :=
  match x with
  | Fin a => Fin (Rabs a)
  | PInf | NInf => PInf
  | NaN => NaN
  end.

Definition exp (x : f64) : f64 :=
  match x with
  | Fin a => Fin (Rtrigo_def.exp a)
  | PInf => PInf
  | NInf => Fin 0
  | NaN => NaN
  end.

Definition cos (x : f64) : f64 :=
  match x with Fin a => Fin (Rtrigo_def.cos a) | _ => NaN end.

Definition sin (x : f64) : f64 :=
  match x with Fin a => Fin (Rtrigo_def.sin a) | _ => NaN end.

(** [np.log10]: [-inf] at zero, [nan] below. *)
Definition log10 (x : f64) : f64 :=
  match x with
  | Fin a =>
      if Rlt_dec 0 a then Fin (ln a / ln 10)
      else if Rlt_dec a 0 then NaN else NInf
  | PInf => PInf
  | NInf | NaN => NaN
  end.

(** Two-argument arctangent on the reals, with values in (-pi, pi]. *)
Definition Ratan2 (y x : R) : R :=
  if Rlt_dec 0 x then atan (y / x)
  else if Rlt_dec x 0 then
    (if Rle_dec 0 y then atan (y / x) + PI else atan (y / x) - PI)
  else if Rlt_dec 0 y then PI / 2
  else if Rlt_dec y 0 then - (PI / 2)
  else 0.

(** [np.arctan2 y x] (C99 Annex F values at the infinities). *)
Definition atan2 (y x : f64) : f64 :=
  match y, x with
  | NaN, _ | _, NaN => NaN
  | Fin b, Fin a => Fin (Ratan2 b a)
  | Fin b, PInf => Fin 0
  | Fin b, NInf => if Rlt_dec b 0 then Fin (- PI) else Fin PI
  | PInf, Fin _ => Fin (PI / 2)
  | NInf, Fin _ => Fin (- (PI / 2))
  | PInf, PInf => Fin (PI / 4)
  | NInf, PInf => Fin (- (PI / 4))
  | PInf, NInf => Fin (3 * PI / 4)
  | NInf, NInf => Fin (- (3 * PI / 4))
  end.

(** Comparisons; every comparison with [nan] is false. *)
Definition eqb (x y : f64) : bool :=
  match x, y with
  | Fin a, Fin b => if Req_dec_T a b then true else false
  | PInf, PInf | NInf, NInf => true
  | _, _ => false
  end.

Definition ltb (x y : f64) : bool :=
  match x, y with
  | NaN, _ | _, NaN => false
  | Fin a, Fin b => if Rlt_dec a b then true else false
  | NInf, NInf | PInf, _ => false
  | NInf, _ | _, PInf => true
  | Fin _, NInf => false
  end.

Definition leb (x y : f64) : bool := ltb x y || eqb x y.

(** [np.maximum]: propagates [nan]. *)
Definition max (x y : f64) : f64 :=
  match x, y with
  | NaN, _ | _, NaN => NaN
  | _, _ => if ltb x y then y else x
  end.

(** The order [np.sort] and [np.argsort] use: [nan] sorts last. *)
Definition sort_leb (x y : f64) : bool := is_nan y || leb x y.

End F64.

Import F64.

Declare Scope f64_scope.
Delimit Scope f64_scope with f64.
Bind Scope f64_scope with f64.
Infix "+" := F64.add : f64_scope.
Infix "-" := F64.sub : f64_scope.
Infix "*" := F64.mul : f64_scope.
Infix "/" := F64.div : f64_scope.
Notation "- x" := (F64.neg x) : f64_scope.

(** ** complex128 *)

Module Cx.

Local Open Scope f64_scope.

Record complex : Type := mkC { re : f64; im : f64 }.

Definition czero : complex := mkC zero zero.

(** Promotion of a real to a complex, as NumPy does before a mixed
    operation. *)
Definition of_real (x : f64) : complex := mkC x zero.

(** The literal [1j]. *)
Definition j : complex := mkC zero one.

Definition cneg (z : complex) : complex := mkC (- re z) (- im z).

Definition cadd (z w : complex) : complex :=
  mkC (re z + re w) (im z + im w).

Definition csub (z w : complex) : complex :=
  mkC (re z - re w) (im z - im w).

Definition cmul (z w : complex) : complex :=
  mkC (re z * re w - im z * im w) (re z * im w + im z * re w).

(** Quotient by the textbook formula; it agrees with NumPy's on finite
    operands and a non-zero divisor. *)
Definition cdiv (z w : complex) : complex :=
  let d := re w * re w + im w * im w in
  mkC ((re z * re w + im z * im w) / d) ((im z * re w - re z * im w) / d).

(** [z**2]. *)
Definition csq (z : complex) : complex := cmul z z.

(** [np.exp] on a complex argument. *)
Definition cexp (z : complex) : complex :=
  mkC (F64.exp (re z) * F64.cos (im z)) (F64.exp (re z) * F64.sin (im z)).

(** [np.abs] on a complex argument. *)
Definition cabs (z : complex) : f64 :=
  F64.sqrt (re z * re z + im z * im z).

(** [np.angle]. *)
Definition angle (z : complex) : f64 := F64.atan2 (im z) (re z).

Definition cfinite (z : complex) : Prop := finite (re z) /\ finite (im z).

End Cx.

Import Cx.

(** ** NumPy arrays

    A one-dimensional array is a list, a two-dimensional array the list of
    its rows. *)

Module Np.

Local Open Scope f64_scope.

Abbreviation vec := (list f64).
Abbreviation cvec := (list complex).
Abbreviation mat := (list (list f64)).
Abbreviation cmat := (list (list complex)).

(** *** Indexing *)

(** An index [i] into an axis of length [len]: negative indices count from
    the end, anything outside [-len, len) raises [IndexError]. *)
Definition np_index (len : nat) (i : Z) : result nat :=
  if ((0 <=? i) && (i <? Z.of_nat len))%Z then Ok (Z.to_nat i)
  else if ((- Z.of_nat len <=? i) && (i <? 0))%Z
       then Ok (Z.to_nat (Z.of_nat len + i))
       else Raise IndexError.

(** [xs[i]]. *)
Definition getitem {A : Type} (xs : list A) (i : Z) : result A :=
  k <- np_index (length xs) i ;;
  match nth_error xs k with
  | Some x => Ok x
  | None => Raise IndexError
  end.

Fixpoint update {A : Type} (xs : list A) (k : nat) (v : A) : list A :=
  match xs, k with
  | [], _ => []
  | _ :: t, O => v :: t
  | x :: t, S k' => x :: update t k' v
  end.

(** [xs[i] = v]. *)
Definition setitem {A : Type} (xs : list A) (i : Z) (v : A)
  : result (list A) :=
  k <- np_index (length xs) i ;;
  Ok (update xs k v).

(** [mapM] for [result]: the first exception wins. *)
Fixpoint traverse {A B : Type} (f : A -> result B) (xs : list A)
  : result (list B) :=
  match xs with
  | [] => Ok []
  | x :: t => y <- f x ;; ys <- traverse f t ;; Ok (y :: ys)
  end.

(** [xs[idx]] for an integer array [idx]. *)
Definition take {A : Type} (xs : list A) (idx : list Z) : result (list A) :=
  traverse (getitem xs) idx.

(** [M[:, idx]]. *)
Definition take_cols {A : Type} (M : list (list A)) (idx : list Z)
  : result (list (list A)) :=
  traverse (fun row => take row idx) M.

(** [M[:, k]]. *)
Definition column {A : Type} (M : list (list A)) (k : Z) : result (list A) :=
  traverse (fun row => getitem row k) M.

(** [xs[a:b]] for [0 <= a]; slices never raise. *)
Definition slice {A : Type} (a b : nat) (xs : list A) : list A :=
  skipn a (firstn b xs).

(** [M[:, a:b]]. *)
Definition slice_cols {A : Type} (a b : nat) (M : list (list A))
  : list (list A) :=
  map (slice a b) M.

(** *** Shape *)

Definition nrows {A : Type} (M : list (list A)) : nat := length M.

Definition ncols {A : Type} (M : list (list A)) : nat :=
  match M with
  | [] => O
  | r :: _ => length r
  end.

(** [M] has shape [(n, m)]. *)
Definition shape {A : Type} (n m : nat) (M : list (list A)) : Prop :=
  length M = n /\ Forall (fun r => length r = m) M.

Definition transpose {A : Type} (d : A) (M : list (list A))
  : list (list A) :=
  map (fun k => map (fun r => nth k r d) M) (seq 0 (ncols M)).

(** *** Reductions *)

(** [np.sum] of a one-dimensional array. *)
Definition sum (xs : vec) : f64 := fold_right F64.add zero xs.

(** [np.mean]: the sum over the number of elements ([nan] when empty). *)
Definition mean (xs : vec) : f64 := sum xs / of_nat (length xs).

(** [np.sum(M, axis=1)]. *)
Definition sum_axis1 (M : mat) : vec := map sum M.

(** [np.sum(M, axis=0)]. *)
Definition sum_axis0 (M : mat) : vec := map sum (transpose zero M).

(** [xs.max()]: raises on an empty array, propagates [nan]. *)
Definition amax (xs : vec) : result f64 :=
  match xs with
  | [] => Raise ValueError
  | x :: t => Ok (fold_left F64.max t x)
  end.

(** *** Elementwise operations *)

Fixpoint map2 {A B C : Type} (f : A -> B -> C) (xs : list A) (ys : list B)
  : list C :=
  match xs, ys with
  | x :: xs', y :: ys' => f x y :: map2 f xs' ys'
  | _, _ => []
  end.

Definition mmap {A B : Type} (f : A -> B) (M : list (list A))
  : list (list B) :=
  map (map f) M.

Definition mmap2 {A B C : Type} (f : A -> B -> C)
  (M : list (list A)) (N : list (list B)) : list (list C) :=
  map2 (map2 f) M N.

(** *** Linear algebra *)

(** [np.identity(n)]. *)
Definition identity (n : nat) : mat :=
  map (fun i => map (fun k => if Nat.eqb i k then one else zero) (seq 0 n))
      (seq 0 n).

(** [np.diag] of a one-dimensional array. *)
Definition diag {A : Type} (z : A) (xs : list A) : list (list A) :=
  map (fun i => map (fun k => if Nat.eqb i k then nth i xs z else z)
                    (seq 0 (length xs)))
      (seq 0 (length xs)).

Definition csum (zs : cvec) : complex := fold_right cadd czero zs.

Definition cdot (xs ys : cvec) : complex := csum (map2 cmul xs ys).

(** [np.matmul] of two complex matrices whose shapes agree. *)
Definition matmul (M N : cmat) : cmat :=
  map (fun row => map (cdot row) (transpose czero N)) M.

(** *** Sorting *)

Fixpoint insert_key (p : nat * f64) (l : list (nat * f64))
  : list (nat * f64) :=
  match l with
  | [] => [p]
  | q :: t =>
      if sort_leb (snd p) (snd q) then p :: q :: t
      else q :: insert_key p t
  end.

(** [np.argsort]: the indices that sort the keys ascending, [nan] last.
    Equal keys keep their order here; NumPy's default sort does not
    promise an order among them. *)
Definition argsort (keys : vec) : list nat :=
  map fst (fold_right insert_key [] (combine (seq 0 (length keys)) keys)).

(** *** Convolution *)

(** Elementwise sum, the longer operand keeping its tail. *)
Fixpoint add_pad (xs ys : vec) : vec :=
  match xs, ys with
  | [], _ => ys
  | _, [] => xs
  | x :: xs', y :: ys' => (x + y) :: add_pad xs' ys'
  end.

(** [np.convolve(a, v, mode='full')]: entry [k] is the sum of
    [a[i] * v[k - i]]. *)
Fixpoint convolve_full (a v : vec) : vec :=
  match a with
  | [] => []
  | x :: a' =>
      match map (F64.mul x) v with
      | [] => []
      | h :: t => h :: add_pad t (convolve_full a' v)
      end
  end.

(** [np.convolve(a, v, mode='same')]: the centred part of the full
    convolution, as long as the longer operand; an empty operand raises
    [ValueError]. *)
Definition convolve_same (a v : vec) : result vec :=
  match a, v with
  | [], _ | _, [] => Raise ValueError
  | _, _ =>
      let n1 := Nat.max (length a) (length v) in
      let n2 := Nat.min (length a) (length v) in
      Ok (firstn n1 (skipn ((n2 - 1) / 2) (convolve_full a v)))
  end.

(** *** Rounding *)

(** [np.round] of the fraction [p / q] ([0 < q]) to an integer, halves to
    the even neighbour. *)
Definition round_half_even (p q : Z) : Z :=
  let f := (p / q)%Z in
  let r := (p mod q)%Z in
  if (2 * r <? q)%Z then f
  else if (q <? 2 * r)%Z then (f + 1)%Z
  else if Z.even f then f else (f + 1)%Z.

End Np.

Import Np.

Local Open Scope f64_scope.

(** ** [mag2db] *)

(** [20*np.log10(y)]. *)
Definition mag2db (y : vec) : vec := map (fun x => Fin 20 * log10 x) y.

(** [x - np.mean(x)].  On finite values the mean and the subtraction are
    exact, so a centred finite curve sums to exactly zero; in float64 the
    sum is a rounding residue, zero or not. *)
Definition center (x : vec) : vec := map (fun v => v - mean x) x.

(** ** [scipy.stats.pearsonr]

    The sample correlation coefficient, clipped to [-1, 1] with Python's
    [min] and [max]; operands of different lengths or of fewer than two
    points raise [ValueError]. *)

Definition py_min (a b : f64) : f64 := if ltb b a then b else a.
Definition py_max (a b : f64) : f64 := if ltb a b then b else a.

Definition sum_of_squares (x : vec) : f64 := sum (map (fun v => v * v) x).

Definition pearsonr (x y : vec) : result f64 :=
  if negb (Nat.eqb (length x) (length y)) then Raise ValueError
  else if Nat.ltb (length x) 2 then Raise ValueError
  else
    let xm := center x in
    let ym := center y in
    let r_num := sum (map2 F64.mul xm ym) in
    let r_den := F64.sqrt (sum_of_squares xm * sum_of_squares ym) in
    let r := r_num / r_den in
    Ok (py_max (py_min r one) (- one)).

(** ** [network_transfer_function] *)

(** The five values the function returns. *)
Record transfer_out : Type := mkOut {
  freqresp : cvec;
  ev : cvec;
  Vv : cmat;
  freqresp_out : cvec;
  FCmodel : cmat
}.

(** The seven model parameters. *)
Record parameters : Type := mkParams {
  tau_e : f64;
  tau_i : f64;
  alpha : f64;
  speed : f64;
  gei : f64;
  gii : f64;
  tauC : f64
}.

(** The accumulator of the region loop: it starts as the Python scalar [0]
    and becomes an array at the first [+=]. *)
Inductive accum : Type :=
| Scalar (z : complex)
| Vector (v : cvec).

(** [acc += v], with broadcasting of a scalar accumulator. *)
Definition iadd (acc : accum) (v : cvec) : accum :=
  match acc with
  | Scalar z => Vector (map (cadd z) v)
  | Vector u => Vector (map2 cadd u v)
  end.

Fixpoint foldM {A B : Type} (f : B -> A -> result B) (xs : list A) (b : B)
  : result B :=
  match xs with
  | [] => Ok b
  | x :: t => b' <- f b x ;; foldM f t b'
  end.

Definition zero_thr : f64 := Fin (5 / 100).

(** [np.round(2/3*C.shape[0])], then [astype(int)].  The product is taken
    exactly: 2N/3 is never within rounding distance of a half. *)
Definition numsmalleigs (nroi : nat) : nat :=
  Z.to_nat (round_half_even (2 * Z.of_nat nroi) 3).

(** Fraction of the signal at a node that is recurrent excitatory. *)
Definition a_frac : f64 := Fin (1 / 2).

(** [qind = rowdegree + coldegree < 0.2*np.mean(rowdegree + coldegree)]. *)
Definition low_degree_of (rowdegree coldegree : vec) : list bool :=
  map (fun t => ltb t (Fin (2 / 10) * mean (map2 F64.add rowdegree coldegree)))
      (map2 F64.add rowdegree coldegree).

(** The regions whose combined degree is below 20% of the mean. *)
Definition low_degree (C : mat) : list bool :=
  low_degree_of (sum_axis1 C) (sum_axis0 C).

(** [xs[qind] = np.inf]. *)
Definition set_inf (qind : list bool) (xs : vec) : vec :=
  map2 (fun (q : bool) x => if q then inf else x) qind xs.

(** Row and column degrees after the masking of the low-degree regions. *)
Definition masked_degrees (C : mat) : vec * vec :=
  let rowdegree := sum_axis1 C in
  let coldegree := sum_axis0 C in
  let qind := low_degree C in
  (set_inf qind rowdegree, set_inf qind coldegree).

(** [Cc = C*np.exp(-1j*Tau*w)] with [Tau = 0.001*D/speed], over exact
    reals on finite values. *)
Definition delayed_connectivity (C D : mat) (w speed : f64) : cmat :=
  let Tau := mmap (fun d => Fin (1 / 1000) * d / speed) D in
  mmap2 (fun c t =>
           cmul (of_real c)
                (cexp (cmul (cmul (cneg j) (of_real t)) (of_real w))))
        C Tau.

(** [L2 = 1/(sqrt(rowdegree*coldegree) + eps)]. *)
Definition normalization (rowdegree coldegree : vec) : vec :=
  map (fun rc => one / (F64.sqrt rc + spacing1))
      (map2 F64.mul rowdegree coldegree).

(** [L = 0.8*I - diag(L2) @ Cc], from the masked degrees. *)
Definition laplacian_of (rowdegree coldegree : vec) (C D : mat)
  (w speed : f64) : cmat :=
  let nroi := nrows C in
  let Cc := delayed_connectivity C D w speed in
  let L1 := mmap (fun x => Fin (8 / 10) * x) (identity nroi) in
  let L2 := normalization rowdegree coldegree in
  mmap2 csub (mmap of_real L1) (matmul (mmap of_real (diag zero L2)) Cc).

Definition laplacian (C D : mat) (w speed : f64) : cmat :=
  let '(rowdegree, coldegree) := masked_degrees C in
  laplacian_of rowdegree coldegree C D w speed.

(** The excitatory transfer function [He]. *)
Definition He_of (p : parameters) (w : f64) : complex :=
  cdiv (of_real (one / (tau_e p * tau_e p)))
       (csq (cadd (cmul j (of_real w)) (of_real (one / tau_e p)))).

(** The total cortical response [Htotal]. *)
Definition Htotal_of (p : parameters) (w : f64) : complex :=
  let He := He_of p w in
  let Hi := cdiv (of_real (gii p * one / (tau_i p * tau_i p)))
                 (csq (cadd (cmul j (of_real w)) (of_real (one / tau_i p)))) in
  let Hed := cdiv (of_real (alpha p / tau_e p))
                  (cadd (cmul j (of_real w))
                        (cmul (of_real (alpha p / tau_e p)) He)) in
  let Hid := cdiv (of_real (alpha p / tau_i p))
                  (cadd (cmul j (of_real w))
                        (cmul (of_real (alpha p / tau_i p)) Hi)) in
  let Heid := cdiv (cmul (cmul (of_real (gei p)) He) Hi)
                   (cadd (of_real one) (cmul (cmul (of_real (gei p)) He) Hi)) in
  cadd (cadd (cmul (of_real a_frac) Hed)
             (cmul (of_real ((one - a_frac) / Fin 2)) Hid))
       (cmul (of_real ((one - a_frac) / Fin 2)) Heid).

(** [q1 = 1/alpha*tauC*(1j*w + alpha/tauC*He*ev)], one entry per mode. *)
Definition coupling (p : parameters) (w : f64) (ev : cvec) : cvec :=
  map (fun e =>
         cmul (of_real (one / alpha p * tauC p))
              (cadd (cmul j (of_real w))
                    (cmul (cmul (of_real (alpha p / tauC p)) (He_of p w)) e)))
      ev.

(** The clamp of [|q1|] from below at 5% of its maximum, the phase kept:
    [magq1 * exp(1j*angq1)].  Here the polar form is rebuilt over exact
    reals; [Binary64.clamp] is the same code on binary64 numbers. *)
Definition clamp (q1 : cvec) : result cvec :=
  m <- amax (map cabs q1) ;;
  let qthr := zero_thr * m in
  let magq1 := map (fun z => F64.max (cabs z) qthr) q1 in
  let angq1 := map angle q1 in
  Ok (map2 (fun m a => cmul (of_real m) (cexp (cmul j (of_real a))))
           magq1 angq1).

(** One pass of the region loop: [freqresp_out += freqresp[k] * Vv[:, k]]. *)
Definition region_step (freqresp : cvec) (Vv : cmat) (acc : accum) (k : nat)
  : result accum :=
  f <- getitem freqresp (Z.of_nat k) ;;
  col <- column Vv (Z.of_nat k) ;;
  Ok (iadd acc (map (cmul f) col)).

(** [np.diag(1/den)] with [den = np.sqrt(np.abs(freqresp_out))]; [np.diag]
    raises [ValueError] on a scalar. *)
Definition inv_den (acc : accum) : result (cvec * mat) :=
  match acc with
  | Scalar _ => Raise ValueError
  | Vector v =>
      Ok (v, diag zero (map (fun z => one / F64.sqrt (cabs z)) v))
  end.

Section Transfer.

(** [np.linalg.eig]: the eigenvalues and the matrix whose columns are the
    eigenvectors, or [LinAlgError]. *)
Variable eig : cmat -> result (cvec * cmat).

(** The function from the assembled Laplacian on (lines 201-243). *)
Definition transfer_of_laplacian (nroi : nat) (L : cmat) (w : f64)
  (p : parameters) : result transfer_out :=
  let K := numsmalleigs nroi in
  '(d, v) <- eig L ;;
  let eig_ind := map Z.of_nat (argsort (map re d)) in
  eig_vec <- take_cols v eig_ind ;;
  eig_val <- take d eig_ind ;;
  let ev := slice 0 K eig_val in
  let Vv := slice_cols 0 K eig_vec in
  let Htotal := Htotal_of p w in
  q1 <- clamp (coupling p w ev) ;;
  let freqresp := map (cdiv Htotal) q1 in
  acc <- foldM (region_step freqresp Vv) (seq 1 (K - 1)) (Scalar czero) ;;
  let V1 := slice_cols 1 K Vv in
  let FC := matmul (matmul V1 (diag czero (map csq (slice 1 K freqresp))))
                   (transpose czero V1) in
  '(out, Dg) <- inv_den acc ;;
  let FC' := matmul (matmul (mmap of_real Dg) FC) (mmap of_real Dg) in
  Ok (mkOut freqresp ev Vv out FC').

Definition network_transfer_function (C D : mat) (w : f64) (p : parameters)
  : result transfer_out :=
  transfer_of_laplacian (nrows C) (laplacian C D w (speed p)) w p.

(** ** [network_transfer_cost] *)

(** The model's frequency profiles: one call of the transfer function per
    frequency bin, [w = 2*np.pi*i]. *)
Definition frequency_sweep (p : parameters) (C D : mat) (frange : vec)
  : result cmat :=
  traverse (fun i =>
              out <- network_transfer_function C D (Fin 2 * pi * i) p ;;
              Ok (freqresp_out out))
           frange.

End Transfer.

(** [freq_model[:, rois_with_MEG].transpose()] on the stacked profiles; an
    empty stack is one-dimensional and cannot take two indices. *)
Definition restrict (freq_model : cmat) (rois_with_MEG : list Z)
  : result cmat :=
  match freq_model with
  | [] => Raise IndexError
  | _ => sel <- take_cols freq_model rois_with_MEG ;;
         Ok (transpose czero sel)
  end.

(** The empirical curve of a region: dB and mean-centred unless the row
    sums to zero. *)
Definition align_data (qdata : vec) : vec :=
  if negb (F64.eqb (sum qdata) zero) then center (mag2db qdata) else qdata.

(** The model curve of a region: magnitude, low-pass filtered, dB,
    mean-centred. *)
Definition align_model (row : cvec) (lpf : vec) : result vec :=
  conv <- convolve_same (map cabs row) lpf ;;
  Ok (center (mag2db conv)).

(** The agreement score of two aligned curves. *)
Definition agreement (qdata qmodel : vec) : result f64 :=
  if F64.eqb (sum qmodel) zero || F64.eqb (sum qdata) zero then Ok zero
  else pearsonr qdata qmodel.

(** The body of the loop over [rois_with_MEG]. *)
Definition score_step (freq_model : cmat) (FMEGdata : mat) (lpf : vec)
  (err_min : vec) (n : Z) : result vec :=
  qdata <- getitem FMEGdata n ;;
  let qdata := align_data qdata in
  row <- getitem freq_model n ;;
  qmodel <- align_model row lpf ;;
  s <- agreement qdata qmodel ;;
  setitem err_min n s.

(** Lines 300-317: from the stacked profiles to the cost. *)
Definition cost_of_profiles (freq_model : cmat) (lpf : vec) (FMEGdata : mat)
  (rois_with_MEG : list Z) : result f64 :=
  let err_min := repeat zero (length rois_with_MEG) in
  fm <- restrict freq_model rois_with_MEG ;;
  err_min <- foldM (score_step fm FMEGdata lpf) rois_with_MEG err_min ;;
  Ok (- mean err_min).

(** [params[0]], ..., [params[6]]. *)
Definition unpack (params : vec) : result parameters :=
  tau_e <- getitem params 0%Z ;;
  tau_i <- getitem params 1%Z ;;
  alpha <- getitem params 2%Z ;;
  speed <- getitem params 3%Z ;;
  gei <- getitem params 4%Z ;;
  gii <- getitem params 5%Z ;;
  tauC <- getitem params 6%Z ;;
  Ok (mkParams tau_e tau_i alpha speed gei gii tauC).

Definition network_transfer_cost (eig : cmat -> result (cvec * cmat))
  (params : vec) (C D : mat) (lpf : vec) (FMEGdata : mat) (frange : vec)
  (rois_with_MEG : list Z) : result f64 :=
  p <- unpack params ;;
  freq_model <- frequency_sweep eig p C D frange ;;
  cost_of_profiles freq_model lpf FMEGdata rois_with_MEG.

(** The default [rois_with_MEG = np.arange(0, 68)]. *)
Definition default_rois : list Z := map Z.of_nat (seq 0 68).

(** ** Fixtures *)

(** An eigen-solver for diagonal matrices: the diagonal entries with the
    standard basis as eigenvectors. *)
Definition eig_diag (L : cmat) : result (cvec * cmat) :=
  Ok (map (fun i => nth i (nth i L []) czero) (seq 0 (nrows L)),
      mmap of_real (identity (nrows L))).

(** What [np.linalg.eig] promises about shapes: [n] eigenvalues and an
    [n] by [n] matrix of eigenvectors for an [n] by [n] argument. *)
Definition eig_shapes (eig : cmat -> result (cvec * cmat)) : Prop :=
  forall n L d v,
    shape n n L -> eig L = Ok (d, v) -> length d = n /\ shape n n v.

(** ** The sorted eigenpairs *)

(** [d[eig_ind]] and [v[:, eig_ind]] for [eig_ind = argsort(real(d))]. *)
Definition sorted_vals (d : cvec) : cvec :=
  map (fun i => nth i d czero) (argsort (map re d)).

Definition sorted_vecs (d : cvec) (v : cmat) : cmat :=
  map (fun r => map (fun i => nth i r czero) (argsort (map re d))) v.

(** The part of [network_transfer_function] after the sort and the
    truncation, as a function of the retained eigenpairs. *)
Definition transfer_tail (K : nat) (w : f64) (p : parameters)
  (ev : cvec) (Vv : cmat) : result transfer_out :=
  q1 <- clamp (coupling p w ev) ;;
  let freqresp := map (cdiv (Htotal_of p w)) q1 in
  acc <- foldM (region_step freqresp Vv) (seq 1 (K - 1)) (Scalar czero) ;;
  let V1 := slice_cols 1 K Vv in
  let FC := matmul (matmul V1 (diag czero (map csq (slice 1 K freqresp))))
                   (transpose czero V1) in
  '(out, Dg) <- inv_den acc ;;
  let FC' := matmul (matmul (mmap of_real Dg) FC) (mmap of_real Dg) in
  Ok (mkOut freqresp ev Vv out FC').

(** A toy connectome on four regions and on two. *)
Definition toy_C : mat :=
  [[Fin 0; Fin 1; Fin 1; Fin 0]; [Fin 1; Fin 0; Fin 0; Fin 1];
   [Fin 1; Fin 0; Fin 0; Fin 1]; [Fin 0; Fin 1; Fin 1; Fin 0]].

Definition toy_D : mat :=
  [[Fin 0; Fin 1; Fin 1; Fin 1]; [Fin 1; Fin 0; Fin 1; Fin 1];
   [Fin 1; Fin 1; Fin 0; Fin 1]; [Fin 1; Fin 1; Fin 1; Fin 0]].

Definition pair_C : mat := [[Fin 0; Fin 1]; [Fin 1; Fin 0]].

(** The default parameters of [network_transfer_function]. *)
Definition default_parameters : parameters :=
  mkParams (Fin (12 / 1000)) (Fin (3 / 1000)) (Fin 1) (Fin 5) (Fin 4) (Fin 1)
           (Fin (6 / 1000)).

(** [w = 2*pi*10]. *)
Definition w10 : f64 := Fin 2 * pi * Fin 10.



(** Every entry of a real matrix is finite. *)
Definition all_finite (M : mat) : Prop := Forall (Forall finite) M.

(** Decides the comparisons of concrete reals met during evaluation. *)
Ltac decide_R :=
  repeat (cbn; try unfold signed_inf;
          match goal with
          | |- context [Req_dec_T ?a ?b] =>
              destruct (Req_dec_T a b); [try (exfalso; lra) | try (exfalso; lra)]
          | |- context [Rlt_dec ?a ?b] =>
              destruct (Rlt_dec a b); [try (exfalso; lra) | try (exfalso; lra)]
          | |- context [Rle_dec ?a ?b] =>
              destruct (Rle_dec a b); [try (exfalso; lra) | try (exfalso; lra)]
          end).

(** ** Exact curves *)

(** The sum of a list of reals. *)
Definition Rsum (xs : list R) : R := fold_right Rplus 0%R xs.

(** A curve of finite, strictly positive values: one whose dB conversion
    is a curve of real numbers. *)
Definition positive_curve (x : vec) : Prop :=
  exists rs, x = map Fin rs /\ Forall (fun r => (0 < r)%R) rs.

(** A curve of finite values. *)
Definition finite_curve (x : vec) : Prop := exists rs, x = map Fin rs.

(** A one-region model with two frequency bins whose magnitudes, 1 and 10,
    are exactly the empirical spectrum. *)
Definition match_profiles : cmat :=
  [[mkC (Fin 1) (Fin 0)]; [mkC (Fin 10) (Fin 0)]].

Definition match_data : mat := [[Fin 1; Fin 10]].

Definition unit_lpf : vec := [Fin 1].

(** A two-region model with one frequency bin, and its spectrum. *)
Definition dup_profiles : cmat := [[mkC (Fin 1) (Fin 0); mkC (Fin 10) (Fin 0)]].

Definition dup_data : mat := [[Fin 1]; [Fin 10]].

(** The modulus of a finite complex number, as a real. *)
Definition Rmod (z : complex) : R :=
  match re z, im z with
  | Fin a, Fin b => R_sqrt.sqrt (a * a + b * b)
  | _, _ => 0%R
  end.

(** Two coupling terms: 3 + 4j of modulus 5 and 0.1j, below 5% of 5. *)
Definition two_modes : cvec :=
  [mkC (Fin 3) (Fin 4); mkC (Fin 0) (Fin (1 / 10))].

(** ** Calls and the objects they share

    To state what a call reads and what it leaves behind, the arrays are objects
    in a heap and a call is a heap transformer.  The arguments of a call
    are addresses; [np.sum] and [np.zeros] allocate fresh arrays; an
    indexed assignment overwrites the array it is applied to.  The default
    value of [rois_with_MEG] is one object, created when the function is
    defined and shared by every call that omits the argument. *)

Inductive object : Type :=
| Array1 (v : vec)
| Array2 (m : mat)
| IntArray (l : list Z).

Abbreviation heap := (list object).

Definition M (A : Type) : Type := heap -> result (A * heap).

Definition ret {A : Type} (a : A) : M A := fun h => Ok (a, h).

Definition bindM {A B : Type} (m : M A) (k : A -> M B) : M B :=
  fun h =>
    match m h with
    | Ok (a, h') => k a h'
    | Raise e => Raise e
    end.

Notation "x <~ m ;; k" := (bindM m (fun x => k))
  (at level 61, m at next level, right associativity).

Definition lift {A : Type} (r : result A) : M A :=
  fun h =>
    match r with
    | Ok a => Ok (a, h)
    | Raise e => Raise e
    end.

Definition alloc (o : object) : M nat := fun h => Ok (length h, h ++ [o]).

Definition store (a : nat) (o : object) : M unit :=
  fun h => Ok (tt, update h a o).

Definition load1 (a : nat) : M vec :=
  fun h =>
    match nth_error h a with
    | Some (Array1 v) => Ok (v, h)
    | _ => Raise TypeError
    end.

Definition load2 (a : nat) : M mat :=
  fun h =>
    match nth_error h a with
    | Some (Array2 m) => Ok (m, h)
    | _ => Raise TypeError
    end.

Definition loadI (a : nat) : M (list Z) :=
  fun h =>
    match nth_error h a with
    | Some (IntArray l) => Ok (l, h)
    | _ => Raise TypeError
    end.

Fixpoint forM {A B : Type} (f : A -> M B) (xs : list A) : M (list B) :=
  match xs with
  | [] => ret []
  | x :: t => y <~ f x ;; ys <~ forM f t ;; ret (y :: ys)
  end.

Fixpoint iterM {A : Type} (f : A -> M unit) (xs : list A) : M unit :=
  match xs with
  | [] => ret tt
  | x :: t => _ <~ f x ;; iterM f t
  end.

(** Lines 176-181: the degree arrays are new objects, masked in place. *)
Definition masked_degrees_st (C_at : nat) : M (nat * nat) :=
  C <~ load2 C_at ;;
  r <~ alloc (Array1 (sum_axis1 C)) ;;
  c <~ alloc (Array1 (sum_axis0 C)) ;;
  rowdegree <~ load1 r ;;
  coldegree <~ load1 c ;;
  let qind := low_degree_of rowdegree coldegree in
  _ <~ store r (Array1 (set_inf qind rowdegree)) ;;
  _ <~ store c (Array1 (set_inf qind coldegree)) ;;
  ret (r, c).

Definition transfer_st (eig : cmat -> result (cvec * cmat))
  (C_at D_at : nat) (w : f64) (p : parameters) : M transfer_out :=
  rc <~ masked_degrees_st C_at ;;
  rowdegree <~ load1 (fst rc) ;;
  coldegree <~ load1 (snd rc) ;;
  C <~ load2 C_at ;;
  D <~ load2 D_at ;;
  lift (transfer_of_laplacian eig (nrows C)
          (laplacian_of rowdegree coldegree C D w (speed p)) w p).

(** The arguments of a call of [network_transfer_cost]; [None] stands for
    an omitted [rois_with_MEG]. *)
Record call : Type := mkCall {
  params_at : nat;
  C_at : nat;
  D_at : nat;
  lpf_at : nat;
  FMEGdata_at : nat;
  frange_at : nat;
  rois_at : option nat
}.

(** The address of the region labels of a call, [default_at] being the
    address of the shared default. *)
Definition rois_address (default_at : nat) (a : call) : nat :=
  match rois_at a with
  | Some r => r
  | None => default_at
  end.

Definition score_step_st (fm : cmat) (a : call) (err_at : nat) (n : Z)
  : M unit :=
  FMEGdata <~ load2 (FMEGdata_at a) ;;
  lpf <~ load1 (lpf_at a) ;;
  err_min <~ load1 err_at ;;
  err_min' <~ lift (score_step fm FMEGdata lpf err_min n) ;;
  store err_at (Array1 err_min').

Definition network_transfer_cost_st (eig : cmat -> result (cvec * cmat))
  (default_at : nat) (a : call) : M f64 :=
  params <~ load1 (params_at a) ;;
  p <~ lift (unpack params) ;;
  rois <~ loadI (rois_address default_at a) ;;
  err_at <~ alloc (Array1 (repeat zero (length rois))) ;;
  frange <~ load1 (frange_at a) ;;
  freq_model <~ forM (fun i =>
                        out <~ transfer_st eig (C_at a) (D_at a)
                                 (Fin 2 * pi * i) p ;;
                        ret (freqresp_out out))
                     frange ;;
  fm <~ lift (restrict freq_model rois) ;;
  _ <~ iterM (score_step_st fm a err_at) rois ;;
  err_min <~ load1 err_at ;;
  ret (- mean err_min).

(** The contents of the argument objects of a call. *)
Record arguments : Type := mkArgs {
  arg_params : vec;
  arg_C : mat;
  arg_D : mat;
  arg_lpf : vec;
  arg_FMEGdata : mat;
  arg_frange : vec;
  arg_rois : list Z
}.

(** The heap holds the arguments [v] at the addresses of the call [a]. *)
Definition holds (default_at : nat) (a : call) (v : arguments) (h : heap)
  : Prop :=
  nth_error h (params_at a) = Some (Array1 (arg_params v)) /\
  nth_error h (C_at a) = Some (Array2 (arg_C v)) /\
  nth_error h (D_at a) = Some (Array2 (arg_D v)) /\
  nth_error h (lpf_at a) = Some (Array1 (arg_lpf v)) /\
  nth_error h (FMEGdata_at a) = Some (Array2 (arg_FMEGdata v)) /\
  nth_error h (frange_at a) = Some (Array1 (arg_frange v)) /\
  nth_error h (rois_address default_at a) = Some (IntArray (arg_rois v)).

(** What the caller observes of a call: the value returned or the
    exception raised. *)
Definition outcome {A : Type} (r : result (A * heap)) : result A :=
  match r with
  | Ok (a, _) => Ok a
  | Raise e => Raise e
  end.

(** The pure function on the contents of the arguments. *)
Definition cost_of_arguments (eig : cmat -> result (cvec * cmat))
  (v : arguments) : result f64 :=
  network_transfer_cost eig (arg_params v) (arg_C v) (arg_D v) (arg_lpf v)
    (arg_FMEGdata v) (arg_frange v) (arg_rois v).

(** A heap with the default region labels at address 0 and the arguments
    of a call after it. *)
Definition demo_heap : heap :=
  [IntArray [0%Z];
   Array1 [Fin (12 / 1000); Fin (3 / 1000); Fin 1; Fin 5; Fin 4; Fin 1;
           Fin (6 / 1000)];
   Array2 toy_C; Array2 toy_D; Array1 unit_lpf; Array2 match_data;
   Array1 [Fin 10]].

Definition demo_call : call := mkCall 1 2 3 4 5 6 None.

Definition demo_arguments : arguments :=
  mkArgs [Fin (12 / 1000); Fin (3 / 1000); Fin 1; Fin 5; Fin 4; Fin 1;
          Fin (6 / 1000)]
         toy_C toy_D unit_lpf match_data [Fin 10] [0%Z].

(** The arrays a frequency sweep over [n] bins leaves behind: the two
    degree arrays of every call of the transfer function. *)
Definition sweep_garbage (C : mat) (n : nat) : heap :=
  concat (repeat [Array1 (fst (masked_degrees C));
                  Array1 (snd (masked_degrees C))] n).

(** The score array [err_min] at the end of the loop, as a pure function
    of the contents of the arguments. *)
Definition scores_of_arguments (eig : cmat -> result (cvec * cmat))
  (v : arguments) : result vec :=
  p <- unpack (arg_params v) ;;
  freq_model <- frequency_sweep eig p (arg_C v) (arg_D v) (arg_frange v) ;;
  fm <- restrict freq_model (arg_rois v) ;;
  foldM (score_step fm (arg_FMEGdata v) (arg_lpf v)) (arg_rois v)
        (repeat zero (length (arg_rois v))).

(** ** Proof support *)

(** The real-valued functions behind [F64.sin], [F64.cos], [F64.sqrt]. *)
Abbreviation sinR := Rtrigo_def.sin.
Abbreviation cosR := Rtrigo_def.cos.
Abbreviation sqrtR := R_sqrt.sqrt.

(** The sort order as a relation, on keys and on indexed keys. *)
Definition sort_le (x y : f64) : Prop := sort_leb x y = true.

Definition key_le (p q : nat * f64) : Prop := sort_le (snd p) (snd q).

(** Splits [bind m k = Ok b] into the two steps that succeeded. *)
Ltac inv_bind H :=
  match type of H with
  | bind ?m _ = Ok _ =>
      let a := fresh "a" in
      let E := fresh "E" in
      let r := fresh "r" in
      remember m as r eqn:E in H;
      destruct r as [a|]; [symmetry in E; cbn [bind] in H | discriminate H]
  end.

(** Case analysis on the comparisons of reals behind the f64 order. *)
Ltac f64_cases :=
  unfold sort_le, sort_leb, leb, ltb, eqb, is_nan; simpl;
  repeat match goal with
         | |- context [Rlt_dec ?a ?b] => destruct (Rlt_dec a b)
         | |- context [Req_dec_T ?a ?b] => destruct (Req_dec_T a b)
         | H : context [Rlt_dec ?a ?b] |- _ => destruct (Rlt_dec a b)
         | H : context [Req_dec_T ?a ?b] |- _ => destruct (Req_dec_T a b)
         end;
  simpl in *; try reflexivity; try discriminate; try lra.

(** ** Values of a correlation *)

(** What an agreement score can be: [nan], or a real number between -1
    and 1. *)
Definition correlation_value (x : f64) : Prop :=
  x = NaN \/ exists r, x = Fin r /\ (-1 <= r <= 1)%R.

(** ** The region response as a sum over modes *)

(** The sum, in loop order, of [freqresp[k] * Vv[i, k]] over the modes
    [k = 1, ..., K-1]. *)
Definition mode_sum (freqresp : cvec) (Vv : cmat) (K i : nat) : complex :=
  fold_left cadd
    (map (fun k => cmul (nth k freqresp czero) (nth k (nth i Vv []) czero))
         (seq 1 (K - 1)))
    czero.

(** ** [reduce_extreme_dir] *)

(** [np.minimum]: propagates [nan]. *)
Definition minimum (x y : f64) : f64 :=
  match x, y with
  | NaN, _ | _, NaN => NaN
  | _, _ => if ltb y x then y else x
  end.

(** [Cdk_conn[Cdk_conn > 0]]: the positive entries, row after row. *)
Definition positive_entries (Cdk_conn : mat) : vec :=
  filter (fun c => ltb zero c) (concat Cdk_conn).

(** The entries are capped at [f] times the mean of the positive entries,
    then blended: [max_dir * C + (1-max_dir) * C]. *)
Definition reduce_extreme_dir (Cdk_conn : mat) (max_dir f : f64) : mat :=
  let thr := f * mean (positive_entries Cdk_conn) in
  let C := mmap (fun c => minimum c thr) Cdk_conn in
  mmap (fun c => max_dir * c + (one - max_dir) * c) C.

(** The defaults [max_dir=0.95] and [f=7]. *)
Definition default_max_dir : f64 := Fin (95 / 100).
Definition default_f : f64 := Fin 7.

(** ** Region orderings *)

(** [np.arange(a, b)]. *)
Definition arange (a b : nat) : list Z := map Z.of_nat (seq a (b - a)).

(** [get_Julia_order]: the three index arrays it returns. *)
Definition cortJulia_lh : list Z :=
  [0; 1; 2; 3; 4; 6; 7; 8; 10; 11; 12; 13; 14;
   15; 17; 16; 18; 19; 20; 21; 22; 23; 24; 25;
   26; 27; 28; 29; 30; 31; 5; 32; 33; 9]%Z.

Definition qsubcort_lh : list Z := [0; 40; 36; 39; 38; 37; 35; 34; 0]%Z.

Definition qsubcort_rh : list Z := map (fun q => (q + 34 + 1)%Z) qsubcort_lh.

Definition cortJulia : list Z :=
  cortJulia_lh ++ map (fun q => (34 + q)%Z) cortJulia_lh.

Definition cortJulia_rh : list Z :=
  map (fun q => (q + 34 + 7)%Z) cortJulia_lh.

Definition permJulia : list Z :=
  cortJulia_lh ++ cortJulia_rh ++ qsubcort_lh ++ qsubcort_rh.

Definition emptyJulia : list Z := [68; 77; 76; 85]%Z.

Definition get_Julia_order : list Z * list Z * list Z :=
  (permJulia, emptyJulia, cortJulia).

(** [M[perm, ][:, perm]]: the rows, then the columns, in the order
    [perm]. *)
Definition reorder {A : Type} (M : list (list A)) (perm : list Z)
  : result (list (list A)) :=
  rows <- take M perm ;;
  take_cols rows perm.

(** The ordering of [get_HCP_connectome]. *)
Definition permHCP : list Z :=
  arange 18 52 ++ arange 52 86 ++ arange 0 9 ++ arange 9 18.

(** [get_HCP_connectome] on the two matrices read from the csv files. *)
Definition get_HCP_connectome (cdk_hcp ddk_hcp : mat)
  : result (mat * mat * list Z) :=
  Cdk_conn <- reorder cdk_hcp permHCP ;;
  Ddk_conn <- reorder ddk_hcp permHCP ;;
  Ok (Cdk_conn, Ddk_conn, permHCP).

(** [get_MEG_data] on the two arrays read from the mat files: the rows of
    both in the order [ordering]. *)
Definition get_MEG_data (DK_timecourse DK_coords_meg : mat)
  (ordering : list Z) : result (mat * mat) :=
  MEGdata <- take DK_timecourse ordering ;;
  coords <- take DK_coords_meg ordering ;;
  Ok (MEGdata, coords).

(** A square matrix equal to its transpose, entry by entry. *)
Definition symmetric (n : nat) (M : mat) : Prop :=
  forall i k, (i < n)%nat -> (k < n)%nat ->
    nth k (nth i M []) zero = nth i (nth k M []) zero.

(** ** [bi_symmetric_c] *)

(** [M[rows, :][:, cols]]: a copy of the block. *)
Definition block {A : Type} (M : list (list A)) (rows cols : list Z)
  : result (list (list A)) :=
  sel <- take M rows ;;
  take_cols sel cols.

(** [row[cols] = vals], one position after the other: of two writes to
    the same position the later one stays. *)
Definition set_row {A : Type} (row : list A) (cols : list Z) (vals : list A)
  : result (list A) :=
  foldM (fun acc cv => setitem acc (fst cv) (snd cv)) (combine cols vals) row.

(** [M[np.ix_(rows, cols)] = B] for a block [B] of shape
    [(len(rows), len(cols))]. *)
Definition set_block {A : Type} (M : list (list A)) (rows cols : list Z)
  (B : list (list A)) : result (list (list A)) :=
  foldM (fun acc rb =>
           old <- getitem acc (fst rb) ;;
           new <- set_row old cols (snd rb) ;;
           setitem acc (fst rb) new)
        (combine rows B) M.

(** The function: both blocks are read before anything is written; index
    arrays of different lengths end in [ValueError] (at [np.maximum] or at
    an assignment).  The value returned is the array passed in, after the
    four assignments. *)
Definition bi_symmetric_c (Cdk_conn : mat) (linds rinds : list Z)
  : result mat :=
  ll <- block Cdk_conn linds linds ;;
  rr <- block Cdk_conn rinds rinds ;;
  lr <- block Cdk_conn linds rinds ;;
  rl <- block Cdk_conn rinds linds ;;
  if negb (Nat.eqb (length linds) (length rinds)) then Raise ValueError
  else
    let q := mmap2 F64.max ll rr in
    let q1 := mmap2 F64.max lr rl in
    C1 <- set_block Cdk_conn linds linds q ;;
    C2 <- set_block C1 rinds rinds q ;;
    C3 <- set_block C2 linds rinds q1 ;;
    set_block C3 rinds linds q1.

(** The same on the heap.  The argument is the address of the array;
    [np.maximum] allocates the two blocks of maxima; each of the four
    assignments overwrites the array at the address passed in, and that
    address is returned. *)
Definition assign_block (addr : nat) (rows cols : list Z) (B_at : nat)
  : M unit :=
  C <~ load2 addr ;;
  B <~ load2 B_at ;;
  C' <~ lift (set_block C rows cols B) ;;
  store addr (Array2 C').

Definition bi_symmetric_c_st (addr : nat) (linds rinds : list Z) : M nat :=
  C <~ load2 addr ;;
  ll <~ lift (block C linds linds) ;;
  rr <~ lift (block C rinds rinds) ;;
  lr <~ lift (block C linds rinds) ;;
  rl <~ lift (block C rinds linds) ;;
  _ <~ lift (if negb (Nat.eqb (length linds) (length rinds))
             then Raise ValueError else Ok tt) ;;
  q <~ alloc (Array2 (mmap2 F64.max ll rr)) ;;
  q1 <~ alloc (Array2 (mmap2 F64.max lr rl)) ;;
  _ <~ assign_block addr linds linds q ;;
  _ <~ assign_block addr rinds rinds q ;;
  _ <~ assign_block addr linds rinds q1 ;;
  _ <~ assign_block addr rinds linds q1 ;;
  ret addr.

(** The writes of [set_row] and [set_block] at positions known to be in
    range. *)
Definition scatter {A : Type} (row : list A) (cols : list nat)
  (vals : list A) : list A :=
  fold_left (fun acc cv => update acc (fst cv) (snd cv)) (combine cols vals)
            row.

(** Entry [(i, k)] of a real matrix. *)
Definition entry (M : mat) (i k : nat) : f64 := nth k (nth i M []) zero.

Definition scatter2 {A : Type} (M : list (list A)) (rows cols : list nat)
  (B : list (list A)) : list (list A) :=
  fold_left (fun acc rb =>
               update acc (fst rb) (scatter (nth (fst rb) acc []) cols (snd rb)))
            (combine rows B) M.

(** The value of [bi_symmetric_c] for index arrays in range: the four
    assignments, in order, with the two blocks of maxima. *)
Definition symmetrized (C : mat) (l r : list nat) : mat :=
  let sub ri ci := map (fun i => map (fun k => nth k (nth i C []) zero) ci) ri in
  let q := mmap2 F64.max (sub l l) (sub r r) in
  let q1 := mmap2 F64.max (sub l r) (sub r l) in
  scatter2 (scatter2 (scatter2 (scatter2 C l l q) r r q) l r q1) r l q1.

(** ** [functions.py]: [down_sample_basic] and [mean_patient] *)

(** The exceptions of plain Python code next to those of NumPy. *)
Inductive py_exn : Type :=
| ZeroDivisionError
| Numpy (e : exn).

Inductive py_result (A : Type) : Type :=
| Returns (a : A)
| Raises (e : py_exn).

Arguments Returns {A} a.
Arguments Raises {A} e.

(** A NumPy computation inside Python code. *)
Definition numpy {A : Type} (r : result A) : py_result A :=
  match r with
  | Ok a => Returns a
  | Raise e => Raises (Numpy e)
  end.

(** [range(n)]. *)
Definition range (n : Z) : list Z := map Z.of_nat (seq 0 (Z.to_nat n)).

(** [down_sample_basic(dataarray, n)] for a Python integer [n].  The
    quotient [len(dataarray)/n] is taken exactly; [np.empty] refuses a
    negative size; the loop writes every entry of [output], so the
    uninitialised contents of [np.empty(n)] never show. *)
Definition down_sample_basic (dataarray : vec) (n : Z) : py_result vec :=
  if (n =? 0)%Z then Raises ZeroDivisionError
  else
    let step := (Z.of_nat (length dataarray) / n)%Z in
    if (n <? 0)%Z then Raises (Numpy ValueError)
    else numpy (traverse (fun i => getitem dataarray (i * step)%Z) (range n)).

(** [dataarray[i, :] = v]: a spectrum of the row's length is copied, one
    of length one is broadcast, any other length raises [ValueError]. *)
Definition assign_row (row v : vec) : result vec :=
  if Nat.eqb (length v) (length row) then Ok v
  else if Nat.eqb (length v) 1 then Ok (repeat (nth 0 v zero) (length row))
  else Raise ValueError.

(** [np.mean(dataarray, axis=0)] for an array of [freq_number] columns. *)
Definition mean_axis0 (freq_number : nat) (dataarray : mat) : vec :=
  map (fun k => mean (map (fun row => nth k row zero) dataarray))
      (seq 0 freq_number).

(** [mean_patient(data, freq_number)].  The dictionary is the list of its
    items in iteration order; [uninit] is what [np.empty((regions,
    freq_number))] happens to hold.  The row index [i] is advanced by
    [i += 0], so every spectrum is written to row 0. *)
Definition mean_patient {K : Type} (uninit : mat) (data : list (K * vec))
  (freq_number : nat) : result vec :=
  dataarray <- foldM (fun arr item =>
                        old <- getitem arr 0%Z ;;
                        new <- assign_row old (snd item) ;;
                        setitem arr 0%Z new)
                     data uninit ;;
  Ok (mean_axis0 freq_number dataarray).

(** ** Text

    A Python [str] of ASCII characters is the list of its characters. *)

Module Text.

Import Ascii String.

Abbreviation text := (list ascii).

Definition of_string (s : string) : text := list_ascii_of_string s.

Definition sep : ascii := "/"%char.

(** [s.startswith(sub)]. *)
Fixpoint starts_with (sub s : text) : bool :=
  match sub, s with
  | [], _ => true
  | _ :: _, [] => false
  | a :: sub', b :: s' => Ascii.eqb a b && starts_with sub' s'
  end.

(** *** [os.path.join] (POSIX) *)

Definition ends_with_sep (path : text) : bool :=
  match rev path with
  | c :: _ => Ascii.eqb c sep
  | [] => false
  end.

(** One pass of the loop of [join]: an absolute component replaces what
    came before, any other is appended after a separator. *)
Definition join2 (path b : text) : text :=
  if starts_with [sep] b then b
  else if match path with [] => true | _ => ends_with_sep path end
       then path ++ b
       else path ++ sep :: b.

Definition join (a : text) (p : list text) : text := fold_left join2 p a.

(** *** [path.py]

    [here_dir] is the value of
    [os.path.dirname(os.path.realpath('__file__'))]. *)

Definition data_dir : text := of_string "../data".
Definition data_dir_sep : text := of_string "../data/".

Definition get_file_path (here_dir filename : text) : text :=
  join here_dir [data_dir; filename].

Definition get_data_path (here_dir : text) : text :=
  join here_dir [data_dir_sep].

Definition get_absolute_path (here_dir relative_path : text) : text :=
  join here_dir [relative_path].

End Text.

Import Text.

(** ** [BH_bounds] of [laplacian_dice_basinhopping.py] *)

(** [np.all(x <= y)] for one-dimensional arrays, with NumPy's
    broadcasting: the lengths agree or one of them is 1. *)
Definition all_leb (x y : vec) : result bool :=
  if Nat.eqb (length x) (length y)
  then Ok (forallb (fun p => leb (fst p) (snd p)) (combine x y))
  else if Nat.eqb (length x) 1 then Ok (forallb (leb (nth 0 x zero)) y)
  else if Nat.eqb (length y) 1
       then Ok (forallb (fun a => leb a (nth 0 y zero)) x)
       else Raise ValueError.

(** An instance of the class: its two attributes. *)
Record BH_bounds : Type := mkBounds {
  xmax : vec;
  xmin : vec
}.

(** [BH_bounds()], with the default arguments of [__init__]. *)
Definition default_bounds : BH_bounds :=
  mkBounds [Fin 45; Fin 5; Fin 30] [Fin 1; Fin 0; Fin 0].

(** [__call__(x_new=x)]: [x <= xmax] everywhere and [x >= xmin]
    everywhere. *)
Definition BH_call (self : BH_bounds) (x : vec) : result bool :=
  tmax <- all_leb x (xmax self) ;;
  tmin <- all_leb (xmin self) x ;;
  Ok (tmax && tmin).

(** The starting point of the optimisation, [x0 = (2, 0.5, 10)]. *)
Definition x0 : vec := [Fin 2; Fin (1 / 2); Fin 10].

(** A two-region model with two frequency bins and its empirical spectra:
    the magnitudes of region 0 are 1 and 10, those of region 1 are 0 and 1,
    and each region's spectrum is its model magnitudes. *)
Definition mixed_profiles : cmat :=
  [[mkC (Fin 1) (Fin 0); mkC (Fin 0) (Fin 0)];
   [mkC (Fin 10) (Fin 0); mkC (Fin 1) (Fin 0)]].

Definition mixed_data : mat := [[Fin 1; Fin 10]; [Fin 0; Fin 1]].

(** ** The clamp in binary64

    The clamp of the coupling term once more, now on IEEE-754 binary64
    numbers with round-to-nearest arithmetic, to see what rounding does to
    [magq1 * exp(1j*angq1)].  The functions of the C library that NumPy
    calls ([hypot] for [np.abs] of a complex number, [atan2] for
    [np.angle], [exp], [cos] and [sin] for [np.exp]) are parameters, as
    [np.linalg.eig] is. *)

Module Binary64.

Import Floats.

Local Open Scope float_scope.

Record libm : Type := mkLibm {
  hypot : float -> float -> float;
  atan2 : float -> float -> float;
  exp : float -> float;
  cos : float -> float;
  sin : float -> float
}.

(** A [complex128]: real and imaginary part. *)
Definition complex128 : Type := (float * float)%type.

(** The product of two complex numbers. *)
Definition cmul (z w : complex128) : complex128 :=
  (fst z * fst w - snd z * snd w, fst z * snd w + snd z * fst w).

(** A real operand of a complex operation is converted to [x + 0j]. *)
Definition of_real (x : float) : complex128 := (x, 0).

(** The Python scalar [1j]. *)
Definition j : complex128 := (0, 1).

Definition np_abs (m : libm) (z : complex128) : float :=
  hypot m (fst z) (snd z).

Definition np_angle (m : libm) (z : complex128) : float :=
  atan2 m (snd z) (fst z).

Definition np_exp (m : libm) (z : complex128) : complex128 :=
  let e := exp m (fst z) in (e * cos m (snd z), e * sin m (snd z)).

(** [np.maximum]: a [nan] operand is returned. *)
Definition np_maximum (x y : float) : float :=
  if is_nan x then x else if is_nan y then y
  else if ltb x y then y else x.

(** [.max()] of a one-dimensional array. *)
Definition amax (xs : list float) : result float :=
  match xs with
  | [] => Raise ValueError
  | x :: t => Ok (fold_left np_maximum t x)
  end.

(** [zero_thr = 0.05], the binary64 number nearest to 1/20. *)
Definition zero_thr : float := 0x1.999999999999ap-5.

(** Lines 227-230. *)
Definition clamp (m : libm) (q1 : list complex128)
  : result (list complex128) :=
  mx <- amax (map (np_abs m) q1) ;;
  let qthr := zero_thr * mx in
  let magq1 := map (fun z => np_maximum (np_abs m z) qthr) q1 in
  let angq1 := map (np_angle m) q1 in
  Ok (map2 (fun mg a => cmul (of_real mg) (np_exp m (cmul j (of_real a))))
           magq1 angq1).

(** A binary64 number as an integer times a power of two. *)
Definition dyadic (x : float) : option (Z * Z) :=
  match Prim2SF x with
  | S754_zero _ => Some (0%Z, 0%Z)
  | S754_finite s m e =>
      Some ((if s then Z.neg m else Z.pos m), e)
  | _ => None
  end.

(** Functions given by their values at finitely many arguments, [nan]
    elsewhere. *)
Definition tabulated1 (t : list (float * float)) (x : float) : float :=
  match find (fun p => eqb (fst p) x) t with
  | Some p => snd p
  | None => nan
  end.

Definition tabulated2 (t : list (float * float * float)) (x y : float)
  : float :=
  match find (fun p => eqb (fst (fst p)) x && eqb (snd (fst p)) y) t with
  | Some p => snd p
  | None => nan
  end.

(** The angle of 3 + 4j and of the value the clamp stores for it. *)
Definition theta : float := 0x1.dac670561bb4fp-1.
Definition theta' : float := 0x1.dac670561bb4ep-1.

(** The values of the C library (glibc, x86-64) at the arguments the clamp
    of the single coupling term 3 + 4j needs:
    hypot(3, 4) = 5, atan2(4, 3) = 0.9272952180016122, exp(0) = 1,
    cos(0.9272952180016122) = 0.6000000000000001,
    sin(0.9272952180016122) = 0.7999999999999999,
    and at the stored value
    atan2(3.9999999999999996, 3.0000000000000004) = 0.9272952180016121,
    hypot(3.0000000000000004, 3.9999999999999996) = 5. *)
Definition glibc : libm :=
  mkLibm
    (tabulated2 [(3, 4, 5);
                 (0x1.8000000000001p+1, 0x1.fffffffffffffp+1, 5)])
    (tabulated2 [(4, 3, theta);
                 (0x1.fffffffffffffp+1, 0x1.8000000000001p+1, theta')])
    (tabulated1 [(0, 1)])
    (tabulated1 [(theta, 0x1.3333333333334p-1)])
    (tabulated1 [(theta, 0x1.9999999999999p-1)]).

(** The coupling term 3 + 4j, alone, and the value the clamp stores for
    it, 3.0000000000000004 + 3.9999999999999996j. *)
Definition three_four : complex128 := (3, 4).
Definition stored : complex128 :=
  (0x1.8000000000001p+1, 0x1.fffffffffffffp+1).

End Binary64.

(* DEFINITIONS END *)

(** * Properties *)

(** ** Lists, indices and the error monad *)

Lemma bind_Ok {A B : Type} (m : result A) (k : A -> result B) (b : B) :
  bind m k = Ok b -> exists a, m = Ok a /\ k a = Ok b.
Proof.
  destruct m as [a|e]; simpl; intros H; [eauto | discriminate].
Qed.


Lemma map2_length {A B C : Type} (f : A -> B -> C) xs ys :
  length (map2 f xs ys) = Nat.min (length xs) (length ys).
Proof.
  revert ys; induction xs as [|x xs IH]; intros [|y ys]; simpl; auto.
Qed.

Lemma update_length {A : Type} (xs : list A) k v :
  length (update xs k v) = length xs.
Proof.
  revert k; induction xs as [|x xs IH]; intros [|k]; simpl; auto.
Qed.

Lemma np_index_Ok len i k :
  np_index len i = Ok k ->
  (k < len)%nat /\ (- Z.of_nat len <= i < Z.of_nat len)%Z.
Proof.
  unfold np_index.
  destruct ((0 <=? i)%Z && (i <? Z.of_nat len)%Z) eqn:E1.
  - apply andb_true_iff in E1 as [H1 H2].
    apply Z.leb_le in H1. apply Z.ltb_lt in H2.
    intros H; inversion H; subst. lia.
  - destruct ((- Z.of_nat len <=? i)%Z && (i <? 0)%Z) eqn:E2;
      [|discriminate].
    apply andb_true_iff in E2 as [H1 H2].
    apply Z.leb_le in H1. apply Z.ltb_lt in H2.
    intros H; inversion H; subst. lia.
Qed.

Lemma np_index_nat len k :
  (k < len)%nat -> np_index len (Z.of_nat k) = Ok k.
Proof.
  intros H. unfold np_index.
  replace ((0 <=? Z.of_nat k)%Z && (Z.of_nat k <? Z.of_nat len)%Z)
    with true.
  - now rewrite Nat2Z.id.
  - symmetry. apply andb_true_iff. split;
      [apply Z.leb_le | apply Z.ltb_lt]; lia.
Qed.

Lemma getitem_nat {A : Type} (xs : list A) k d :
  (k < length xs)%nat -> getitem xs (Z.of_nat k) = Ok (nth k xs d).
Proof.
  intros H. unfold getitem. rewrite np_index_nat by assumption. simpl.
  destruct (nth_error xs k) as [x|] eqn:E.
  - now rewrite (nth_error_nth _ _ d E).
  - apply nth_error_None in E. lia.
Qed.

Lemma getitem_Ok {A : Type} (xs : list A) i x :
  getitem xs i = Ok x -> (- Z.of_nat (length xs) <= i < Z.of_nat (length xs))%Z.
Proof.
  unfold getitem. intros H. inv_bind H.
  now apply np_index_Ok in E.
Qed.

Lemma setitem_Ok {A : Type} (xs : list A) i v ys :
  setitem xs i v = Ok ys ->
  length ys = length xs /\
  (- Z.of_nat (length xs) <= i < Z.of_nat (length xs))%Z.
Proof.
  unfold setitem. intros H. inv_bind H.
  inversion H; subst. rewrite update_length.
  split; [reflexivity | now apply np_index_Ok in E].
Qed.

Lemma traverse_length {A B : Type} (f : A -> result B) xs ys :
  traverse f xs = Ok ys -> length ys = length xs.
Proof.
  revert ys; induction xs as [|x xs IH]; simpl; intros ys H.
  - now inversion H.
  - inv_bind H. inv_bind H. inversion H; subst. simpl.
    f_equal. now apply IH.
Qed.

Lemma traverse_Forall2 {A B : Type} (f : A -> result B) xs ys :
  traverse f xs = Ok ys -> Forall2 (fun x y => f x = Ok y) xs ys.
Proof.
  revert ys; induction xs as [|x xs IH]; simpl; intros ys H.
  - inversion H. constructor.
  - inv_bind H. inv_bind H. inversion H; subst.
    constructor; auto.
Qed.

Lemma traverse_total {A B : Type} (f : A -> result B) (g : A -> B) xs :
  Forall (fun x => f x = Ok (g x)) xs -> traverse f xs = Ok (map g xs).
Proof.
  induction 1 as [|x xs Hx _ IH]; simpl; [reflexivity|].
  now rewrite Hx, IH.
Qed.

Lemma firstn_length_le' {A : Type} (xs : list A) n :
  (n <= length xs)%nat -> length (firstn n xs) = n.
Proof. intros H. rewrite length_firstn. lia. Qed.

Lemma slice_length {A : Type} (xs : list A) a b :
  length (slice a b xs) = (Nat.min b (length xs) - a)%nat.
Proof. unfold slice. now rewrite length_skipn, length_firstn. Qed.

(** ** Convolution *)

Lemma add_pad_length xs ys :
  length (add_pad xs ys) = Nat.max (length xs) (length ys).
Proof.
  revert ys; induction xs as [|x xs IH]; intros [|y ys]; simpl; auto.
Qed.

Lemma convolve_full_length a v :
  a <> [] -> v <> [] ->
  length (convolve_full a v) = (length a + length v - 1)%nat.
Proof.
  intros Ha Hv. induction a as [|x a IH]; [congruence|].
  destruct v as [|y v]; [congruence|]. simpl.
  rewrite add_pad_length, length_map.
  destruct a as [|x' a].
  - simpl. lia.
  - rewrite IH by discriminate. simpl. lia.
Qed.

Lemma convolve_same_Ok a v r :
  convolve_same a v = Ok r ->
  a <> [] /\ v <> [] /\ length r = Nat.max (length a) (length v).
Proof.
  intros H.
  destruct a as [|a0 a]; [discriminate|].
  destruct v as [|v0 v]; [discriminate|].
  split; [discriminate|]. split; [discriminate|].
  assert (Hfull := convolve_full_length (a0 :: a) (v0 :: v)).
  change (Ok (firstn (Nat.max (length (a0 :: a)) (length (v0 :: v)))
                (skipn ((Nat.min (length (a0 :: a)) (length (v0 :: v)) - 1) / 2)
                   (convolve_full (a0 :: a) (v0 :: v)))) = Ok r) in H.
  remember (convolve_full (a0 :: a) (v0 :: v)) as full eqn:Efull.
  remember (length (a0 :: a)) as m eqn:Em.
  remember (length (v0 :: v)) as n eqn:En.
  assert (E : r = firstn (Nat.max m n) (skipn ((Nat.min m n - 1) / 2) full))
    by congruence.
  rewrite E, length_firstn, length_skipn, Hfull by discriminate.
  assert (Hm : (1 <= m)%nat) by (subst m; simpl; lia).
  assert (Hn : (1 <= n)%nat) by (subst n; simpl; lia).
  assert (Hd : ((Nat.min m n - 1) / 2 <= Nat.min m n - 1)%nat).
  { apply Nat.Div0.div_le_upper_bound. lia. }
  lia.
Qed.

(** C9 as stated fails: a one-point curve and a three-tap kernel (an odd
    length) give three points, not one. *)
Lemma convolve_same_odd_kernel_longer :
  let qmodel := [Fin 1] in
  let lpf := [Fin 1; Fin 1; Fin 1] in
  Nat.odd (length lpf) = true /\
  exists r, convolve_same qmodel lpf = Ok r /\
            length r = 3%nat /\ length r <> length qmodel.
Proof.
  simpl. split; [reflexivity|].
  eexists. split; [reflexivity|]. simpl. split; [reflexivity | lia].
Qed.

(** C9, amended: on a non-empty curve and a non-empty kernel the "same"
    convolution returns a vector as long as the longer of the two; it has
    the length of the curve exactly when the kernel is not longer than the
    curve, whatever the parity of the kernel. *)
Theorem convolve_same_length (qmodel lpf : vec) :
  qmodel <> [] -> lpf <> [] ->
  exists r, convolve_same qmodel lpf = Ok r /\
            length r = Nat.max (length qmodel) (length lpf) /\
            (length r = length qmodel <->
             (length lpf <= length qmodel)%nat).
Proof.
  intros Hq Hl.
  assert (Hlen := convolve_full_length _ _ Hq Hl).
  destruct qmodel as [|q0 q]; [congruence|].
  destruct lpf as [|l0 l]; [congruence|].
  unfold convolve_same.
  eexists. split; [reflexivity|].
  assert (Hr : length
            (firstn (Nat.max (length (q0 :: q)) (length (l0 :: l)))
               (skipn ((Nat.min (length (q0 :: q)) (length (l0 :: l)) - 1) / 2)
                  (convolve_full (q0 :: q) (l0 :: l))))
          = Nat.max (length (q0 :: q)) (length (l0 :: l))).
  { rewrite length_firstn, length_skipn, Hlen.
    set (m := length (q0 :: q)). set (n := length (l0 :: l)).
    assert (Hm : (1 <= m)%nat) by (subst m; simpl; lia).
    assert (Hn : (1 <= n)%nat) by (subst n; simpl; lia).
    assert (Hd : ((Nat.min m n - 1) / 2 <= Nat.min m n - 1)%nat).
    { apply Nat.Div0.div_le_upper_bound. lia. }
    lia. }
  split; [exact Hr|]. rewrite Hr. lia.
Qed.

Lemma convolve_same_length_witness :
  exists r, convolve_same [Fin 1; Fin 2; Fin 3] [Fin 1; Fin 1; Fin 1] = Ok r /\
            length r = Nat.max 3 3 /\
            (length r = 3%nat <-> (3 <= 3)%nat).
Proof.
  apply (convolve_same_length [Fin 1; Fin 2; Fin 3] [Fin 1; Fin 1; Fin 1]);
    discriminate.
Defined.

(** ** Shapes *)

Lemma shape_ncols {A : Type} n m (M : list (list A)) :
  shape n m M -> (0 < n)%nat -> ncols M = m.
Proof.
  intros [Hn Hr] Hpos. destruct M as [|r M]; simpl in *; [lia|].
  now inversion Hr.
Qed.

Lemma shape_map_rows {A B : Type} (f : list A -> list B) n m m' M :
  shape n m M -> (forall r, length r = m -> length (f r) = m') ->
  shape n m' (map f M).
Proof.
  intros [Hn Hr] Hf. split; [now rewrite length_map|].
  apply Forall_map. eapply Forall_impl; [|exact Hr]. auto.
Qed.

Lemma shape_mmap {A B : Type} (f : A -> B) n m M :
  shape n m M -> shape n m (mmap f M).
Proof.
  intros H. eapply shape_map_rows; [exact H|]. intros r Hr.
  now rewrite length_map.
Qed.

Lemma map2_Forall {A B C : Type} (f : A -> B -> C) (P : A -> Prop)
  (Q : B -> Prop) (R : C -> Prop) xs ys :
  (forall x y, P x -> Q y -> R (f x y)) ->
  Forall P xs -> Forall Q ys -> Forall R (map2 f xs ys).
Proof.
  intros Hf Hx. revert ys. induction Hx as [|x xs Px _ IH];
    intros ys Hy; simpl; [constructor|].
  destruct Hy as [|y ys Qy Hy]; constructor; auto.
Qed.

Lemma shape_mmap2 {A B C : Type} (f : A -> B -> C) n m M N :
  shape n m M -> shape n m N -> shape n m (mmap2 f M N).
Proof.
  intros [Hn Hr] [Hn' Hr']. split.
  - unfold mmap2. rewrite map2_length. lia.
  - unfold mmap2.
    apply map2_Forall with (P := fun r => length r = m)
                           (Q := fun r => length r = m); auto.
    intros x y Hx Hy. rewrite map2_length. lia.
Qed.

Lemma shape_square_gen {A : Type} (f : nat -> nat -> A) n :
  shape n n (map (fun i => map (f i) (seq 0 n)) (seq 0 n)).
Proof.
  split; [now rewrite length_map, length_seq|].
  apply Forall_map, Forall_forall. intros i _.
  now rewrite length_map, length_seq.
Qed.

Lemma shape_identity n : shape n n (identity n).
Proof. apply shape_square_gen. Qed.

Lemma shape_diag {A : Type} (z : A) xs :
  shape (length xs) (length xs) (diag z xs).
Proof. unfold diag. apply shape_square_gen. Qed.

Lemma transpose_length {A : Type} (d : A) M :
  length (transpose d M) = ncols M.
Proof. unfold transpose. now rewrite length_map, length_seq. Qed.

Lemma shape_transpose {A : Type} (d : A) M :
  shape (ncols M) (nrows M) (transpose d M).
Proof.
  split; [apply transpose_length|].
  unfold transpose. apply Forall_map, Forall_forall. intros k _.
  now rewrite length_map.
Qed.

Lemma shape_matmul n m M N :
  length M = n -> ncols N = m -> shape n m (matmul M N).
Proof.
  intros Hn Hm. split; [unfold matmul; now rewrite length_map|].
  unfold matmul. apply Forall_map, Forall_forall. intros r _.
  now rewrite length_map, transpose_length.
Qed.

Lemma set_inf_length qind xs :
  length qind = length xs -> length (set_inf qind xs) = length xs.
Proof. intros H. unfold set_inf. rewrite map2_length. lia. Qed.

Lemma sum_axis0_length n M :
  shape n n M -> length (sum_axis0 M) = n.
Proof.
  intros H. unfold sum_axis0. rewrite length_map, transpose_length.
  destruct n as [|n].
  - destruct H as [H _]. destruct M; [reflexivity | discriminate].
  - apply (shape_ncols _ _ _ H). lia.
Qed.

Lemma sum_axis1_length n m M : shape n m M -> length (sum_axis1 M) = n.
Proof. intros [H _]. unfold sum_axis1. now rewrite length_map. Qed.

Lemma low_degree_length n M : shape n n M -> length (low_degree M) = n.
Proof.
  intros H. unfold low_degree, low_degree_of.
  rewrite length_map, map2_length, (sum_axis1_length _ _ _ H),
    (sum_axis0_length _ _ H).
  lia.
Qed.

Lemma masked_degrees_length n M :
  shape n n M ->
  length (fst (masked_degrees M)) = n /\ length (snd (masked_degrees M)) = n.
Proof.
  intros H. unfold masked_degrees. simpl.
  rewrite !set_inf_length;
    rewrite ?(low_degree_length _ _ H), ?(sum_axis1_length _ _ _ H),
      ?(sum_axis0_length _ _ H); auto.
Qed.

Lemma normalization_length r c :
  length (normalization r c) = Nat.min (length r) (length c).
Proof. unfold normalization. now rewrite length_map, map2_length. Qed.

Lemma shape_delayed_connectivity n C D w s :
  shape n n C -> shape n n D -> shape n n (delayed_connectivity C D w s).
Proof.
  intros HC HD. unfold delayed_connectivity.
  apply shape_mmap2; [assumption | now apply shape_mmap].
Qed.

Lemma shape_laplacian n C D w s :
  shape n n C -> shape n n D -> shape n n (laplacian C D w s).
Proof.
  intros HC HD. unfold laplacian, laplacian_of.
  destruct (masked_degrees C) as [r c] eqn:E.
  destruct (masked_degrees_length _ _ HC) as [Hr Hc]. rewrite E in Hr, Hc.
  simpl in Hr, Hc.
  assert (HL2 : length (normalization r c) = n)
    by (rewrite normalization_length; lia).
  apply shape_mmap2.
  - apply shape_mmap, shape_mmap.
    destruct HC as [HC _]. unfold nrows. rewrite HC. apply shape_identity.
  - apply shape_matmul.
    + unfold mmap. rewrite length_map.
      destruct (shape_diag zero (normalization r c)) as [Hd _].
      now rewrite Hd.
    + destruct n as [|n].
      * destruct HC as [HC _]. destruct C; [|discriminate].
        reflexivity.
      * apply (shape_ncols _ _ _ (shape_delayed_connectivity _ _ _ w s HC HD)).
        lia.
Qed.

(** ** Fancy indexing with indices known to be in range *)

Lemma traverse_map {A B C : Type} (f : B -> result C) (g : A -> B) xs :
  traverse f (map g xs) = traverse (fun x => f (g x)) xs.
Proof.
  induction xs as [|x xs IH]; simpl; [reflexivity|]. now rewrite IH.
Qed.

Lemma take_nat {A : Type} (d : A) xs idx :
  Forall (fun i => (i < length xs)%nat) idx ->
  take xs (map Z.of_nat idx) = Ok (map (fun i => nth i xs d) idx).
Proof.
  intros H. unfold take. rewrite traverse_map.
  apply traverse_total. eapply Forall_impl; [|exact H].
  intros i Hi. now apply getitem_nat.
Qed.

Lemma take_cols_nat {A : Type} (d : A) n M idx :
  Forall (fun r => length r = n) M ->
  Forall (fun i => (i < n)%nat) idx ->
  take_cols M (map Z.of_nat idx)
  = Ok (map (fun r => map (fun i => nth i r d) idx) M).
Proof.
  intros HM Hidx. unfold take_cols. apply traverse_total.
  eapply Forall_impl; [|exact HM]. intros r Hr. simpl in Hr.
  apply take_nat. now rewrite Hr.
Qed.

Lemma column_nat {A : Type} (d : A) M k :
  Forall (fun r => (k < length r)%nat) M ->
  column M (Z.of_nat k) = Ok (map (fun r => nth k r d) M).
Proof.
  intros H. unfold column. apply traverse_total.
  eapply Forall_impl; [|exact H]. intros r Hr. now apply getitem_nat.
Qed.

(** ** [argsort] returns a permutation of the positions *)

Lemma insert_key_perm p l : Permutation (insert_key p l) (p :: l).
Proof.
  induction l as [|q l IH]; simpl; [reflexivity|].
  destruct (sort_leb (snd p) (snd q)); [reflexivity|].
  rewrite IH. apply perm_swap.
Qed.

Lemma sort_keys_perm l : Permutation (fold_right insert_key [] l) l.
Proof.
  induction l as [|p l IH]; simpl; [reflexivity|].
  rewrite insert_key_perm. now constructor.
Qed.

Lemma map_fst_combine {A B : Type} (xs : list A) (ys : list B) :
  length xs = length ys -> map fst (combine xs ys) = xs.
Proof.
  revert ys; induction xs as [|x xs IH]; intros [|y ys] H; simpl in *;
    try discriminate; [reflexivity|]. f_equal. apply IH. lia.
Qed.

Lemma argsort_perm keys :
  Permutation (argsort keys) (seq 0 (length keys)).
Proof.
  unfold argsort.
  rewrite (Permutation_map fst (sort_keys_perm _)).
  rewrite map_fst_combine; [reflexivity | now rewrite length_seq].
Qed.

Lemma argsort_length keys : length (argsort keys) = length keys.
Proof.
  rewrite (Permutation_length (argsort_perm keys)). apply length_seq.
Qed.

Lemma argsort_bound keys :
  Forall (fun i => (i < length keys)%nat) (argsort keys).
Proof.
  apply Forall_forall. intros i Hi.
  apply (Permutation_in _ (argsort_perm keys)) in Hi.
  apply in_seq in Hi. lia.
Qed.

(** ** The number of retained modes *)

Lemma round_half_even_thirds p :
  round_half_even p 3 = ((p + 1) / 3)%Z.
Proof.
  unfold round_half_even.
  destruct (2 * (p mod 3) <? 3)%Z eqn:E1;
    [apply Z.ltb_lt in E1 | apply Z.ltb_ge in E1].
  - Z.div_mod_to_equations. lia.
  - destruct (3 <? 2 * (p mod 3))%Z eqn:E2;
      [apply Z.ltb_lt in E2 | apply Z.ltb_ge in E2].
    + Z.div_mod_to_equations. lia.
    + exfalso. lia.
Qed.

Lemma numsmalleigs_spec n :
  Z.of_nat (numsmalleigs n) = ((2 * Z.of_nat n + 1) / 3)%Z.
Proof.
  unfold numsmalleigs. rewrite round_half_even_thirds.
  apply Z2Nat.id. apply Z.div_pos; lia.
Qed.

Lemma numsmalleigs_nearest n :
  (3 * Z.of_nat (numsmalleigs n) - 1 <= 2 * Z.of_nat n
   <= 3 * Z.of_nat (numsmalleigs n) + 1)%Z.
Proof. rewrite numsmalleigs_spec. Z.div_mod_to_equations. lia. Qed.

Lemma numsmalleigs_le n : (numsmalleigs n <= n)%nat.
Proof.
  pose proof (numsmalleigs_spec n) as H.
  assert ((2 * Z.of_nat n + 1) / 3 <= Z.of_nat n)%Z
    by (Z.div_mod_to_equations; lia).
  lia.
Qed.

Lemma numsmalleigs_ge2 n : (3 <= n)%nat -> (2 <= numsmalleigs n)%nat.
Proof.
  intros Hn. pose proof (numsmalleigs_spec n) as H.
  assert (2 <= (2 * Z.of_nat n + 1) / 3)%Z
    by (Z.div_mod_to_equations; lia).
  lia.
Qed.

Lemma numsmalleigs_small n :
  (1 <= n <= 2)%nat -> numsmalleigs n = 1%nat.
Proof.
  intros Hn. pose proof (numsmalleigs_spec n) as H.
  assert ((2 * Z.of_nat n + 1) / 3 = 1)%Z
    by (Z.div_mod_to_equations; lia).
  lia.
Qed.

Example numsmalleigs_4 : numsmalleigs 4 = 3%nat.
Proof. reflexivity. Qed.

Example numsmalleigs_86 : numsmalleigs 86 = 57%nat.
Proof. reflexivity. Qed.

Example round_half_even_ties :
  round_half_even 1 2 = 0%Z /\ round_half_even 3 2 = 2%Z /\
  round_half_even 5 2 = 2%Z.
Proof. repeat split. Qed.

Example np_index_last : np_index 3 (-1) = Ok 2%nat.
Proof. reflexivity. Qed.

Example np_index_past_end : np_index 3 3 = Raise IndexError.
Proof. reflexivity. Qed.

(** ** The transfer function, step by step *)

Lemma eig_diag_shapes : eig_shapes eig_diag.
Proof.
  intros n L d v [Hn _] H. unfold eig_diag in H. inversion H; subst.
  unfold nrows. split.
  - now rewrite length_map, length_seq.
  - apply shape_mmap, shape_identity.
Qed.

Lemma clamp_Ok q1 :
  q1 <> [] -> exists r, clamp q1 = Ok r /\ length r = length q1.
Proof.
  intros H. destruct q1 as [|z q1]; [congruence|].
  unfold clamp. simpl amax. unfold bind.
  eexists. split; [reflexivity|].
  rewrite map2_length, !length_map. lia.
Qed.

Lemma region_step_Ok fr (Vv : cmat) acc N K k :
  length fr = K -> shape N K Vv -> (k < K)%nat ->
  region_step fr Vv acc k
  = Ok (iadd acc (map (cmul (nth k fr czero))
                      (map (fun r => nth k r czero) Vv))).
Proof.
  intros Hfr [HN HV] Hk. unfold region_step.
  rewrite (getitem_nat _ _ czero) by lia. simpl.
  rewrite (column_nat czero); [reflexivity|].
  eapply Forall_impl; [|exact HV]. simpl. intros r Hr. lia.
Qed.

Lemma region_loop_vector fr (Vv : cmat) N K ks u :
  length fr = K -> shape N K Vv ->
  Forall (fun k => (k < K)%nat) ks -> length u = N ->
  exists u', foldM (region_step fr Vv) ks (Vector u) = Ok (Vector u') /\
             length u' = N.
Proof.
  intros Hfr HV Hks. revert u.
  induction Hks as [|k ks Hk _ IH]; intros u Hu; simpl.
  - eauto.
  - rewrite region_step_Ok with (N := N) (K := K) by assumption. simpl.
    apply IH. destruct HV as [HN _].
    rewrite map2_length, !length_map. lia.
Qed.

Lemma region_loop_scalar fr (Vv : cmat) N K ks z :
  length fr = K -> shape N K Vv ->
  Forall (fun k => (k < K)%nat) ks -> ks <> [] ->
  exists u', foldM (region_step fr Vv) ks (Scalar z) = Ok (Vector u') /\
             length u' = N.
Proof.
  intros Hfr HV Hks Hne. destruct Hks as [|k ks Hk Hks]; [congruence|].
  simpl. rewrite region_step_Ok with (N := N) (K := K) by assumption. simpl.
  apply region_loop_vector with (K := K); try assumption.
  destruct HV as [HN _]. now rewrite !length_map.
Qed.

Lemma seq_bound a len : Forall (fun k => (k < a + len)%nat) (seq a len).
Proof. apply Forall_forall. intros k Hk. apply in_seq in Hk. lia. Qed.

Lemma coupling_length p w ev : length (coupling p w ev) = length ev.
Proof. unfold coupling. now rewrite length_map. Qed.

Section TransferFacts.

Variable eig : cmat -> result (cvec * cmat).
Hypothesis eig_ok : eig_shapes eig.

Variables (n : nat) (C D : mat) (w : f64) (p : parameters).
Variables (d : cvec) (v : cmat).
Hypothesis HC : shape n n C.
Hypothesis HD : shape n n D.
Hypothesis Heig : eig (laplacian C D w (speed p)) = Ok (d, v).

Lemma eig_result_shapes : length d = n /\ shape n n v.
Proof. exact (eig_ok _ _ _ _ (shape_laplacian _ _ _ w (speed p) HC HD) Heig). Qed.

Lemma sorted_vals_length : length (sorted_vals d) = n.
Proof.
  unfold sorted_vals. rewrite length_map, argsort_length, length_map.
  apply eig_result_shapes.
Qed.

Lemma shape_sorted_vecs : shape n n (sorted_vecs d v).
Proof.
  destruct eig_result_shapes as [Hd Hv]. unfold sorted_vecs.
  eapply shape_map_rows; [exact Hv|]. intros r _.
  now rewrite length_map, argsort_length, length_map.
Qed.

(** The sort and the truncation never raise: the positions [argsort]
    returns are in range. *)
Lemma transfer_open :
  network_transfer_function eig C D w p
  = transfer_tail (numsmalleigs n) w p
      (slice 0 (numsmalleigs n) (sorted_vals d))
      (slice_cols 0 (numsmalleigs n) (sorted_vecs d v)).
Proof.
  destruct eig_result_shapes as [Hd [Hvn Hv]].
  unfold network_transfer_function, transfer_of_laplacian.
  rewrite Heig. simpl bind.
  assert (Hb : Forall (fun i => (i < n)%nat) (argsort (map re d))).
  { pose proof (argsort_bound (map re d)) as H.
    now rewrite length_map, Hd in H. }
  rewrite (take_cols_nat czero n _ _ Hv Hb). simpl bind.
  rewrite (take_nat czero); [|now rewrite Hd]. simpl bind.
  destruct HC as [HCn _]. unfold nrows. rewrite HCn. reflexivity.
Qed.

Lemma retained_vals_length :
  length (slice 0 (numsmalleigs n) (sorted_vals d)) = numsmalleigs n.
Proof.
  rewrite slice_length, sorted_vals_length.
  pose proof (numsmalleigs_le n). lia.
Qed.

Lemma shape_retained_vecs :
  shape n (numsmalleigs n) (slice_cols 0 (numsmalleigs n) (sorted_vecs d v)).
Proof.
  unfold slice_cols. eapply shape_map_rows; [exact shape_sorted_vecs|].
  intros r Hr. rewrite slice_length, Hr.
  pose proof (numsmalleigs_le n). lia.
Qed.

End TransferFacts.

Lemma transfer_tail_Ok K N w p (ev0 : cvec) (Vv0 : cmat) :
  (2 <= K)%nat -> length ev0 = K -> shape N K Vv0 ->
  exists out, transfer_tail K w p ev0 Vv0 = Ok out /\
              ev out = ev0 /\ Vv out = Vv0 /\
              length (freqresp out) = K /\
              length (freqresp_out out) = N.
Proof.
  intros HK Hev HV. unfold transfer_tail.
  destruct (clamp_Ok (coupling p w ev0)) as [q1 [Eq Hq]].
  { intros E. apply (f_equal (@length _)) in E.
    rewrite coupling_length in E. simpl in E. lia. }
  rewrite coupling_length in Hq. rewrite Eq. simpl bind.
  set (fr := map (cdiv (Htotal_of p w)) q1).
  assert (Hfr : length fr = K) by (subst fr; rewrite length_map; lia).
  destruct (region_loop_scalar fr Vv0 N K (seq 1 (K - 1)) czero)
    as [u [Eu Hu]]; try assumption.
  { pose proof (seq_bound 1 (K - 1)) as H.
    replace (1 + (K - 1))%nat with K in H by lia. exact H. }
  { destruct K as [|[|K]]; try lia. discriminate. }
  rewrite Eu. simpl. eexists. split; [reflexivity|]. simpl. auto.
Qed.

(** With a single retained mode the region loop never runs, the
    accumulator stays the scalar [0], and [np.diag] raises. *)
Lemma transfer_tail_single w p (ev0 : cvec) (Vv0 : cmat) :
  ev0 <> [] -> transfer_tail 1 w p ev0 Vv0 = Raise ValueError.
Proof.
  intros Hev. unfold transfer_tail.
  destruct (clamp_Ok (coupling p w ev0)) as [q1 [Eq Hq]].
  { intros E. apply (f_equal (@length _)) in E.
    rewrite coupling_length in E. destruct ev0; [congruence | discriminate]. }
  rewrite Eq. reflexivity.
Qed.

Lemma transfer_returns eig n C D w p d v :
  eig_shapes eig -> (3 <= n)%nat -> shape n n C -> shape n n D ->
  eig (laplacian C D w (speed p)) = Ok (d, v) ->
  exists out,
    network_transfer_function eig C D w p = Ok out /\
    ev out = slice 0 (numsmalleigs n) (sorted_vals d) /\
    Vv out = slice_cols 0 (numsmalleigs n) (sorted_vecs d v) /\
    length (freqresp out) = numsmalleigs n /\
    length (freqresp_out out) = n.
Proof.
  intros Hs Hn HC HD He.
  rewrite (@transfer_open eig Hs n C D w p d v HC HD He).
  apply transfer_tail_Ok.
  - now apply numsmalleigs_ge2.
  - exact (@retained_vals_length eig Hs n C D w p d v HC HD He).
  - exact (@shape_retained_vecs eig Hs n C D w p d v HC HD He).
Qed.

Lemma transfer_raises_small eig n C D w p d v :
  eig_shapes eig -> (1 <= n <= 2)%nat -> shape n n C -> shape n n D ->
  eig (laplacian C D w (speed p)) = Ok (d, v) ->
  network_transfer_function eig C D w p = Raise ValueError.
Proof.
  intros Hs Hn HC HD He.
  rewrite (@transfer_open eig Hs n C D w p d v HC HD He).
  pose proof (@retained_vals_length eig Hs n C D w p d v HC HD He) as HL.
  rewrite (numsmalleigs_small _ Hn) in *.
  apply transfer_tail_single.
  intros E. rewrite E in HL. discriminate.
Qed.

Lemma shape_toy_C : shape 4 4 toy_C.
Proof. split; [reflexivity | repeat constructor]. Qed.

Lemma shape_toy_D : shape 4 4 toy_D.
Proof. split; [reflexivity | repeat constructor]. Qed.

Lemma shape_pair_C : shape 2 2 pair_C.
Proof. split; [reflexivity | repeat constructor]. Qed.

(** C1 as stated fails.  On the four-region toy connectome the function
    keeps [round(2/3*4) = 3] modes, not [floor(2/3*4) = 2]; on a
    two-region connectome it keeps one mode and raises [ValueError]
    instead of returning.  Neither outcome depends on the eigen-solver
    ([transfer_returns], [transfer_raises_small]); [eig_diag] stands in. *)
Lemma transfer_four_regions_three_modes :
  (exists out,
      network_transfer_function eig_diag toy_C toy_D w10 default_parameters
      = Ok out /\
      length (ev out) = 3%nat /\ length (freqresp out) = 3%nat /\
      shape 4 3 (Vv out) /\ (2 * 4 / 3 = 2)%nat) /\
  network_transfer_function eig_diag pair_C pair_C w10 default_parameters
  = Raise ValueError.
Proof.
  split.
  - assert (H3 : (3 <= 4)%nat) by lia.
    destruct (@transfer_returns eig_diag 4 toy_C toy_D w10 default_parameters
                _ _ eig_diag_shapes H3 shape_toy_C shape_toy_D eq_refl)
      as [out [E [Hev [HVv [Hfr _]]]]].
    exists out. split; [exact E|].
    pose proof (@retained_vals_length eig_diag eig_diag_shapes 4 toy_C toy_D
                  w10 default_parameters _ _ shape_toy_C shape_toy_D eq_refl)
      as H1.
    pose proof (@shape_retained_vecs eig_diag eig_diag_shapes 4 toy_C toy_D
                  w10 default_parameters _ _ shape_toy_C shape_toy_D eq_refl)
      as H2.
    rewrite <- Hev in H1. rewrite <- HVv in H2.
    repeat split; try assumption; apply H2.
  - assert (H2 : (1 <= 2 <= 2)%nat) by lia.
    exact (@transfer_raises_small eig_diag 2 pair_C pair_C w10
             default_parameters _ _ eig_diag_shapes H2 shape_pair_C
             shape_pair_C eq_refl).
Qed.

(** C1, amended: for a square connectivity matrix [C] and a distance
    matrix [D] of size N x N with N >= 3, whenever the eigen-solver
    succeeds the truncated path returns, and it retains K = round(2/3 N)
    eigenpairs, the integer nearest to 2N/3: the eigenvalue vector and the
    per-mode frequency response have length K and the eigenvector matrix
    is N x K. *)
Theorem transfer_mode_count eig n C D w p d v :
  eig_shapes eig -> (3 <= n)%nat -> shape n n C -> shape n n D ->
  eig (laplacian C D w (speed p)) = Ok (d, v) ->
  (3 * Z.of_nat (numsmalleigs n) - 1 <= 2 * Z.of_nat n
   <= 3 * Z.of_nat (numsmalleigs n) + 1)%Z /\
  exists out,
    network_transfer_function eig C D w p = Ok out /\
    length (ev out) = numsmalleigs n /\
    length (freqresp out) = numsmalleigs n /\
    shape n (numsmalleigs n) (Vv out).
Proof.
  intros Hs Hn HC HD He. split; [apply numsmalleigs_nearest|].
  destruct (@transfer_returns eig n C D w p d v Hs Hn HC HD He)
    as [out [E [Hev [HVv [Hfr _]]]]].
  exists out. split; [exact E|]. rewrite Hev, HVv.
  split; [exact (@retained_vals_length eig Hs n C D w p d v HC HD He)|].
  split; [exact Hfr|].
  exact (@shape_retained_vecs eig Hs n C D w p d v HC HD He).
Qed.

Lemma transfer_mode_count_witness :
  (3 * Z.of_nat (numsmalleigs 4) - 1 <= 2 * Z.of_nat 4
   <= 3 * Z.of_nat (numsmalleigs 4) + 1)%Z /\
  exists out,
    network_transfer_function eig_diag toy_C toy_D w10 default_parameters
    = Ok out /\
    length (ev out) = numsmalleigs 4 /\
    length (freqresp out) = numsmalleigs 4 /\
    shape 4 (numsmalleigs 4) (Vv out).
Proof.
  apply (@transfer_mode_count eig_diag 4 toy_C toy_D w10 default_parameters
           (map (fun i => nth i (nth i (laplacian toy_C toy_D w10
                                          (speed default_parameters)) [])
                              czero) (seq 0 4))
           (mmap of_real (identity 4))).
  - exact eig_diag_shapes.
  - lia.
  - exact shape_toy_C.
  - exact shape_toy_D.
  - reflexivity.
Defined.

(** ** The sort order *)



Lemma sort_leb_total x y : sort_leb x y = false -> sort_leb y x = true.
Proof. destruct x, y; f64_cases. Qed.

Lemma sort_le_trans x y z : sort_le x y -> sort_le y z -> sort_le x z.
Proof. destruct x, y, z; f64_cases; intros; f64_cases. Qed.

Lemma sort_le_fin a b : sort_le (Fin a) (Fin b) <-> (a <= b)%R.
Proof. split; f64_cases; intros; f64_cases. Qed.


Lemma insert_key_sorted p l :
  StronglySorted key_le l -> StronglySorted key_le (insert_key p l).
Proof.
  induction 1 as [|q l Hl IH Hq]; simpl.
  - repeat constructor.
  - destruct (sort_leb (snd p) (snd q)) eqn:E.
    + constructor; [now constructor|].
      constructor; [exact E|].
      eapply Forall_impl; [|exact Hq]. intros r Hr.
      exact (sort_le_trans _ _ _ E Hr).
    + constructor; [exact IH|].
      apply (Permutation_Forall (Permutation_sym (insert_key_perm p l))).
      constructor; [|exact Hq]. now apply sort_leb_total.
Qed.

Lemma sort_keys_sorted l : StronglySorted key_le (fold_right insert_key [] l).
Proof.
  induction l as [|p l IH]; simpl; [constructor|].
  now apply insert_key_sorted.
Qed.

Lemma StronglySorted_map {A B : Type} (R : B -> B -> Prop) (f : A -> B) l :
  StronglySorted (fun x y => R (f x) (f y)) l -> StronglySorted R (map f l).
Proof.
  induction 1 as [|x l _ IH Hx]; simpl; constructor; auto.
  now apply Forall_map.
Qed.

Lemma combine_seq_keys (keys : vec) a :
  Forall (fun p => snd p = nth (fst p - a) keys zero /\ (a <= fst p)%nat)
         (combine (seq a (length keys)) keys).
Proof.
  revert a. induction keys as [|k keys IH]; intros a; simpl; constructor.
  - simpl. rewrite Nat.sub_diag. auto.
  - eapply Forall_impl; [|apply (IH (S a))]. intros [i x] [H1 H2].
    simpl in *. split; [|lia].
    replace (i - a)%nat with (S (i - S a)) by lia. exact H1.
Qed.

(** The keys read in the order [argsort] returns are ascending. *)
Lemma argsort_sorted (keys : vec) :
  StronglySorted sort_le (map (fun i => nth i keys zero) (argsort keys)).
Proof.
  unfold argsort. rewrite map_map.
  set (sp := fold_right insert_key [] (combine (seq 0 (length keys)) keys)).
  assert (Hsnd : map (fun p => nth (fst p) keys zero) sp = map snd sp).
  { apply map_ext_in. intros p Hp.
    apply (Permutation_in _ (sort_keys_perm _)) in Hp.
    pose proof (combine_seq_keys keys 0) as H.
    rewrite Forall_forall in H. destruct (H p Hp) as [H1 _].
    now rewrite Nat.sub_0_r in H1. }
  rewrite Hsnd. apply StronglySorted_map. apply sort_keys_sorted.
Qed.

Lemma StronglySorted_app_le {A : Type} (R : A -> A -> Prop) l1 l2 :
  StronglySorted R (l1 ++ l2) ->
  forall x y, In x l1 -> In y l2 -> R x y.
Proof.
  induction l1 as [|a l1 IH]; simpl; intros H x y Hx Hy; [contradiction|].
  apply StronglySorted_inv in H as [Hs Ha].
  destruct Hx as [<-|Hx].
  - rewrite Forall_forall in Ha. apply Ha, in_or_app. now right.
  - now apply IH.
Qed.

Lemma sorted_vals_re d :
  map re (sorted_vals d)
  = map (fun i => nth i (map re d) zero) (argsort (map re d)).
Proof.
  unfold sorted_vals. rewrite map_map. apply map_ext. intros i.
  now rewrite <- (map_nth re d czero i).
Qed.

(** C6: on the truncated path the eigenpairs are reordered by one
    permutation of the positions, the one that sorts the real parts of the
    eigenvalues ascending; the first K are kept, so every retained
    eigenvalue has a real part no larger than that of every discarded one,
    and the eigenvector columns follow the same permutation. *)
Theorem transfer_sorted_truncation eig n C D w p d v :
  eig_shapes eig -> (3 <= n)%nat -> shape n n C -> shape n n D ->
  eig (laplacian C D w (speed p)) = Ok (d, v) ->
  exists out sigma,
    network_transfer_function eig C D w p = Ok out /\
    Permutation sigma (seq 0 n) /\
    StronglySorted sort_le (map (fun i => re (nth i d czero)) sigma) /\
    ev out = firstn (numsmalleigs n) (map (fun i => nth i d czero) sigma) /\
    Vv out = map (fun r => firstn (numsmalleigs n)
                             (map (fun i => nth i r czero) sigma)) v /\
    forall e e',
      In e (ev out) ->
      In e' (skipn (numsmalleigs n) (map (fun i => nth i d czero) sigma)) ->
      sort_le (re e) (re e') /\
      forall a b, re e = Fin a -> re e' = Fin b -> (a <= b)%R.
Proof.
  intros Hs Hn HC HD He.
  destruct (@transfer_returns eig n C D w p d v Hs Hn HC HD He)
    as [out [E [Hev [HVv _]]]].
  destruct (@eig_result_shapes eig Hs n C D w p d v HC HD He) as [Hd _].
  exists out, (argsort (map re d)).
  assert (Hsorted : StronglySorted sort_le
            (map (fun i => re (nth i d czero)) (argsort (map re d)))).
  { pose proof (argsort_sorted (map re d)) as H.
    rewrite <- sorted_vals_re in H. unfold sorted_vals in H.
    now rewrite map_map in H. }
  split; [exact E|].
  split. { pose proof (argsort_perm (map re d)) as H.
           now rewrite length_map, Hd in H. }
  split; [exact Hsorted|].
  split; [exact Hev|].
  split. { rewrite HVv. unfold slice_cols, sorted_vecs.
           rewrite map_map. reflexivity. }
  intros e e' Hin Hin'.
  assert (Hle : sort_le (re e) (re e')).
  { rewrite Hev in Hin. unfold slice, sorted_vals in Hin. simpl in Hin.
    apply (StronglySorted_app_le sort_le
             (map re (firstn (numsmalleigs n)
                        (map (fun i => nth i d czero) (argsort (map re d)))))
             (map re (skipn (numsmalleigs n)
                        (map (fun i => nth i d czero) (argsort (map re d)))))).

    - rewrite <- map_app, firstn_skipn, map_map. exact Hsorted.
    - now apply in_map.
    - now apply in_map. }
  split; [exact Hle|].
  intros a b Ha Hb. rewrite Ha, Hb in Hle. now apply sort_le_fin.
Qed.

Lemma transfer_sorted_truncation_witness :
  exists out sigma,
    network_transfer_function eig_diag toy_C toy_D w10 default_parameters
    = Ok out /\
    Permutation sigma (seq 0 4) /\
    StronglySorted sort_le
      (map (fun i => re (nth i (map (fun i => nth i (nth i (laplacian toy_C
              toy_D w10 (speed default_parameters)) []) czero) (seq 0 4))
              czero)) sigma) /\
    ev out = firstn (numsmalleigs 4)
               (map (fun i => nth i (map (fun i => nth i (nth i (laplacian
                  toy_C toy_D w10 (speed default_parameters)) []) czero)
                  (seq 0 4)) czero) sigma) /\
    Vv out = map (fun r => firstn (numsmalleigs 4)
                             (map (fun i => nth i r czero) sigma))
                 (mmap of_real (identity 4)) /\
    forall e e',
      In e (ev out) ->
      In e' (skipn (numsmalleigs 4)
               (map (fun i => nth i (map (fun i => nth i (nth i (laplacian
                  toy_C toy_D w10 (speed default_parameters)) []) czero)
                  (seq 0 4)) czero) sigma)) ->
      sort_le (re e) (re e') /\
      forall a b, re e = Fin a -> re e' = Fin b -> (a <= b)%R.
Proof.
  apply (@transfer_sorted_truncation eig_diag 4 toy_C toy_D w10
           default_parameters).
  - exact eig_diag_shapes.
  - lia.
  - exact shape_toy_C.
  - exact shape_toy_D.
  - reflexivity.
Defined.

(** ** Entries of the Laplacian *)

Lemma nth_map2 {A B C : Type} (f : A -> B -> C) xs ys k dx dy d :
  (k < length xs)%nat -> (k < length ys)%nat ->
  nth k (map2 f xs ys) d = f (nth k xs dx) (nth k ys dy).
Proof.
  revert ys k. induction xs as [|x xs IH]; intros [|y ys] [|k] Hx Hy;
    simpl in *; try lia; [reflexivity|]. apply IH; lia.
Qed.

Lemma nth_map' {A B : Type} (f : A -> B) xs k dx d :
  (k < length xs)%nat -> nth k (map f xs) d = f (nth k xs dx).
Proof.
  intros H. rewrite (nth_indep _ d (f dx)) by now rewrite length_map.
  apply map_nth.
Qed.

Lemma nth_transpose {A : Type} (d : A) M k :
  (k < ncols M)%nat ->
  nth k (transpose d M) [] = map (fun r => nth k r d) M.
Proof.
  intros H. unfold transpose.
  rewrite (nth_map' _ _ _ 0%nat) by now rewrite length_seq.
  now rewrite seq_nth.
Qed.








(** The delayed connectivity is finite for finite inputs and a non-zero
    speed. *)







(** ** Exact arithmetic on finite curves *)

Lemma sum_Fin rs : sum (map Fin rs) = Fin (Rsum rs).
Proof.
  induction rs as [|r rs IH]; [reflexivity|].
  change (sum (map Fin (r :: rs))) with (Fin r + sum (map Fin rs))%f64.
  now rewrite IH.
Qed.

Lemma INR_length_neq0 {A : Type} (xs : list A) :
  xs <> [] -> INR (length xs) <> 0%R.
Proof.
  intros H. destruct xs as [|x xs]; [congruence|].
  apply not_0_INR. discriminate.
Qed.

Lemma div_Fin a b : b <> 0%R -> (Fin a / Fin b)%f64 = Fin (a / b).
Proof.
  intros H. unfold F64.div. now destruct (Req_dec_T b 0).
Qed.

Lemma mean_Fin rs :
  rs <> [] -> mean (map Fin rs) = Fin (Rsum rs / INR (length rs)).
Proof.
  intros H. unfold mean, of_nat. rewrite sum_Fin, length_map.
  apply div_Fin. now apply INR_length_neq0.
Qed.

Lemma center_Fin rs :
  rs <> [] ->
  center (map Fin rs)
  = map Fin (map (fun r => (r + - (Rsum rs / INR (length rs)))%R) rs).
Proof.
  intros H. unfold center. rewrite (mean_Fin _ H), !map_map.
  reflexivity.
Qed.

Lemma Rsum_shift c rs :
  Rsum (map (fun r => (r + - c)%R) rs) = (Rsum rs - INR (length rs) * c)%R.
Proof.
  induction rs as [|r rs IH].
  - simpl. ring.
  - change (Rsum (map (fun r0 => (r0 + - c)%R) (r :: rs)))
      with ((r + - c) + Rsum (map (fun r0 => (r0 + - c)%R) rs))%R.
    change (Rsum (r :: rs)) with (r + Rsum rs)%R.
    change (length (r :: rs)) with (S (length rs)).
    rewrite IH, S_INR. ring.
Qed.

(** The heart of C5: a mean-centred finite curve sums to exactly zero. *)
Lemma sum_center_Fin rs : rs <> [] -> sum (center (map Fin rs)) = zero.
Proof.
  intros H. rewrite (center_Fin _ H), sum_Fin, Rsum_shift.
  unfold zero. f_equal. field. now apply INR_length_neq0.
Qed.

Lemma eqb_zero_zero : F64.eqb zero zero = true.
Proof. unfold F64.eqb, zero. now destruct (Req_dec_T 0 0). Qed.

Lemma mag2db_positive x :
  positive_curve x ->
  exists ys, mag2db x = map Fin ys /\ length ys = length x.
Proof.
  intros [rs [-> Hpos]].
  exists (map (fun r => (20 * (ln r / ln 10))%R) rs).
  split; [|now rewrite !length_map].
  unfold mag2db. rewrite !map_map. apply map_ext_in.
  intros r Hr. rewrite Forall_forall in Hpos. specialize (Hpos r Hr).
  unfold log10. destruct (Rlt_dec 0 r); [reflexivity | contradiction].
Qed.

Lemma map_neq_nil {A B : Type} (f : A -> B) xs : xs <> [] -> map f xs <> [].
Proof. destruct xs; [congruence | discriminate]. Qed.

(** The aligned model curve of a region with positive filtered magnitudes
    sums to exactly zero. *)
Lemma align_model_sum_zero row lpf conv :
  convolve_same (map cabs row) lpf = Ok conv -> positive_curve conv ->
  exists qmodel, align_model row lpf = Ok qmodel /\ sum qmodel = zero /\
                 finite_curve qmodel /\ length qmodel = length conv.
Proof.
  intros Hc Hp. unfold align_model. rewrite Hc. simpl bind.
  destruct (mag2db_positive _ Hp) as [ys [Hys Hlen]].
  assert (Hne : ys <> []).
  { intros ->. simpl in Hlen.
    destruct (convolve_same_Ok _ _ _ Hc) as [Hq [_ Hl]].
    destruct (map cabs row) as [|c0 cs]; [congruence|].
    change (length (c0 :: cs)) with (S (length cs)) in Hl. lia. }
  eexists. split; [reflexivity|]. rewrite Hys.
  split; [now apply sum_center_Fin|].
  split.
  - rewrite (center_Fin _ Hne). eexists. reflexivity.
  - unfold center. now rewrite length_map, length_map.
Qed.

Lemma agreement_model_zero qdata qmodel :
  sum qmodel = zero -> agreement qdata qmodel = Ok zero.
Proof.
  intros H. unfold agreement. now rewrite H, eqb_zero_zero.
Qed.

(** ** The loop over the regions *)

Lemma foldM_inv {A B : Type} (f : B -> A -> result B)
  (Inv : B -> Prop) (Q : A -> Prop) xs :
  (forall b x b', Inv b -> In x xs -> f b x = Ok b' -> Inv b' /\ Q x) ->
  forall b b', Inv b -> foldM f xs b = Ok b' -> Inv b' /\ Forall Q xs.
Proof.
  induction xs as [|x xs IH]; intros Hstep b b' Hb H; simpl in H.
  - inversion H; subst. auto.
  - inv_bind H.
    destruct (Hstep b x a Hb (or_introl eq_refl) E) as [Ha Hx].
    destruct (IH (fun b0 y b0' Hb0 Hy => Hstep b0 y b0' Hb0 (or_intror Hy))
                 a b' Ha H) as [Hb' Hxs].
    auto.
Qed.

Lemma foldM_total {A B : Type} (f : B -> A -> result B)
  (Inv : B -> Prop) xs :
  (forall b x, Inv b -> In x xs -> exists b', f b x = Ok b' /\ Inv b') ->
  forall b, Inv b -> exists b', foldM f xs b = Ok b' /\ Inv b'.
Proof.
  induction xs as [|x xs IH]; intros Hstep b Hb; simpl.
  - eauto.
  - destruct (Hstep b x Hb (or_introl eq_refl)) as [b1 [E1 H1]].
    rewrite E1. simpl.
    apply IH; [|exact H1]. intros b0 y Hb0 Hy.
    apply Hstep; [exact Hb0 | now right].
Qed.

Lemma score_step_Ok fm FMEGdata lpf err n err' :
  score_step fm FMEGdata lpf err n = Ok err' ->
  exists qraw row qmodel s,
    getitem FMEGdata n = Ok qraw /\
    getitem fm n = Ok row /\
    align_model row lpf = Ok qmodel /\
    agreement (align_data qraw) qmodel = Ok s /\
    setitem err n s = Ok err'.
Proof.
  unfold score_step. intros H.
  inv_bind H. inv_bind H. inv_bind H. inv_bind H.
  exists a, a0, a1, a2. auto.
Qed.

Lemma getitem_in_range {A : Type} (xs : list A) i :
  (- Z.of_nat (length xs) <= i < Z.of_nat (length xs))%Z ->
  exists x, getitem xs i = Ok x /\ In x xs.
Proof.
  intros H. unfold getitem, np_index.
  destruct ((0 <=? i)%Z && (i <? Z.of_nat (length xs))%Z) eqn:E1.
  - apply andb_true_iff in E1 as [H1 H2].
    apply Z.leb_le in H1. apply Z.ltb_lt in H2. simpl.
    destruct (nth_error xs (Z.to_nat i)) as [x|] eqn:E.
    + exists x. split; [reflexivity|]. now apply nth_error_In in E.
    + apply nth_error_None in E. lia.
  - assert (H0 : (i < 0)%Z).
    { apply andb_false_iff in E1 as [E1|E1];
        [apply Z.leb_gt in E1 | apply Z.ltb_ge in E1]; lia. }
    replace ((- Z.of_nat (length xs) <=? i)%Z && (i <? 0)%Z) with true.
    2:{ symmetry. apply andb_true_iff.
        split; [apply Z.leb_le | apply Z.ltb_lt]; lia. }
    simpl.
    destruct (nth_error xs (Z.to_nat (Z.of_nat (length xs) + i)))
      as [x|] eqn:E.
    + exists x. split; [reflexivity|]. now apply nth_error_In in E.
    + apply nth_error_None in E. lia.
Qed.

Lemma getitem_nonneg {A : Type} (xs : list A) i x d :
  getitem xs i = Ok x -> (0 <= i)%Z -> x = nth (Z.to_nat i) xs d.
Proof.
  unfold getitem, np_index. intros H Hi.
  destruct ((0 <=? i)%Z && (i <? Z.of_nat (length xs))%Z) eqn:E1.
  - simpl in H. destruct (nth_error xs (Z.to_nat i)) as [y|] eqn:E;
      [|discriminate].
    inversion H; subst. symmetry. now apply nth_error_nth.
  - destruct ((- Z.of_nat (length xs) <=? i)%Z && (i <? 0)%Z) eqn:E2.
    + apply andb_true_iff in E2 as [_ E2]. apply Z.ltb_lt in E2. lia.
    + discriminate.
Qed.

Lemma update_repeat {A : Type} (z : A) m k :
  update (repeat z m) k z = repeat z m.
Proof.
  revert k. induction m as [|m IH]; intros [|k]; simpl; try reflexivity.
  now rewrite IH.
Qed.

Lemma setitem_repeat {A : Type} (z : A) m i :
  (- Z.of_nat m <= i < Z.of_nat m)%Z ->
  setitem (repeat z m) i z = Ok (repeat z m).
Proof.
  intros H. unfold setitem.
  destruct (getitem_in_range (repeat z m) i) as [x [E _]];
    [now rewrite repeat_length|].
  unfold getitem in E. inv_bind E. rewrite E0. simpl.
  now rewrite update_repeat.
Qed.

Lemma Rsum_repeat_zero m : Rsum (repeat 0%R m) = 0%R.
Proof.
  induction m as [|m IH]; [reflexivity|].
  change (Rsum (repeat 0%R (S m))) with (0 + Rsum (repeat 0%R m))%R.
  rewrite IH. ring.
Qed.

Lemma neg_mean_zeros m :
  (0 < m)%nat -> (- mean (repeat zero m))%f64 = zero.
Proof.
  intros Hm.
  replace (repeat zero m) with (map Fin (repeat 0%R m))
    by (unfold zero; apply map_repeat).
  rewrite mean_Fin by (destruct m; [lia | discriminate]).
  rewrite Rsum_repeat_zero, repeat_length. unfold zero. simpl. f_equal.
  field. apply not_0_INR. lia.
Qed.

(** ** The restricted model matrix *)

Lemma restrict_Ok fm rois sel :
  restrict fm rois = Ok sel ->
  fm <> [] /\
  exists sel0, take_cols fm rois = Ok sel0 /\ sel = transpose czero sel0 /\
               shape (length fm) (length rois) sel0.
Proof.
  unfold restrict. destruct fm as [|r0 fm]; [discriminate|].
  intros H. inv_bind H. inversion H; subst.
  split; [discriminate|]. exists a. split; [exact E|].
  split; [reflexivity|].
  unfold take_cols in E. split.
  - now apply traverse_length in E.
  - apply traverse_Forall2 in E.
    clear H. induction E as [|r x rs xs Hr _ IH]; constructor; auto.
    unfold take in Hr. now apply traverse_length in Hr.
Qed.

Lemma restrict_length fm rois sel :
  restrict fm rois = Ok sel -> length sel = length rois.
Proof.
  intros H. destruct (restrict_Ok _ _ _ H) as [Hne [sel0 [_ [-> Hs]]]].
  rewrite transpose_length. apply (shape_ncols _ _ _ Hs).
  destruct fm; [congruence | simpl; lia].
Qed.

(** ** The cost in exact arithmetic *)

Lemma score_loop_zero sel FMEGdata lpf rois m :
  (forall n, In n rois ->
     (- Z.of_nat (length FMEGdata) <= n < Z.of_nat (length FMEGdata))%Z /\
     (- Z.of_nat m <= n < Z.of_nat m)%Z) ->
  length sel = m ->
  (forall row, In row sel ->
     exists conv, convolve_same (map cabs row) lpf = Ok conv /\
                  positive_curve conv) ->
  foldM (score_step sel FMEGdata lpf) rois (repeat zero m)
  = Ok (repeat zero m).
Proof.
  intros Hr Hm Hp.
  destruct (foldM_total (score_step sel FMEGdata lpf)
              (fun e => e = repeat zero m) rois) with (b := repeat zero m)
    as [e [E ->]]; [|reflexivity|exact E].
  intros b n -> Hn. exists (repeat zero m). split; [|reflexivity].
  destruct (Hr n Hn) as [H1 H2].
  destruct (getitem_in_range FMEGdata n H1) as [qraw [E1 _]].
  destruct (getitem_in_range sel n) as [row [E2 Hin]];
    [now rewrite Hm|].
  destruct (Hp row Hin) as [conv [Ec Hc]].
  destruct (align_model_sum_zero _ _ _ Ec Hc) as [qmodel [E3 [Hs _]]].
  unfold score_step. rewrite E1. simpl bind. rewrite E2. simpl bind.
  rewrite E3. simpl bind.
  rewrite (agreement_model_zero _ _ Hs). simpl bind.
  now apply setitem_repeat.
Qed.

Lemma cost_of_profiles_zero fm lpf FMEGdata rois sel :
  rois <> [] ->
  restrict fm rois = Ok sel ->
  (forall n, In n rois ->
     (- Z.of_nat (length FMEGdata) <= n < Z.of_nat (length FMEGdata))%Z /\
     (- Z.of_nat (length rois) <= n < Z.of_nat (length rois))%Z) ->
  (forall row, In row sel ->
     exists conv, convolve_same (map cabs row) lpf = Ok conv /\
                  positive_curve conv) ->
  cost_of_profiles fm lpf FMEGdata rois = Ok zero.
Proof.
  intros Hne Hsel Hr Hp. unfold cost_of_profiles.
  rewrite Hsel. simpl bind.
  rewrite (score_loop_zero sel FMEGdata lpf rois (length rois) Hr
             (restrict_length _ _ _ Hsel) Hp).
  simpl bind. f_equal. apply neg_mean_zeros.
  destruct rois; [congruence | simpl; lia].
Qed.

(** C5, amended: in exact arithmetic the model curve is mean-centred right
    before the zero-sum test, so for every region whose filtered model
    magnitudes are finite and strictly positive (its dB curve is then a
    curve of real numbers) the aligned model curve sums to exactly zero,
    the degenerate branch fires whatever the empirical curve, and the
    agreement score is 0; with a non-empty array of in-range labels whose
    regions are all such, the cost is 0 and the Pearson branch is not
    reached. *)
Theorem exact_cost_is_zero fm lpf FMEGdata rois sel :
  rois <> [] ->
  restrict fm rois = Ok sel ->
  (forall n, In n rois ->
     (- Z.of_nat (length FMEGdata) <= n < Z.of_nat (length FMEGdata))%Z /\
     (- Z.of_nat (length rois) <= n < Z.of_nat (length rois))%Z) ->
  (forall row, In row sel ->
     exists conv, convolve_same (map cabs row) lpf = Ok conv /\
                  positive_curve conv) ->
  (forall row, In row sel ->
     exists qmodel, align_model row lpf = Ok qmodel /\
                    sum qmodel = zero /\
                    forall qdata, agreement qdata qmodel = Ok zero) /\
  cost_of_profiles fm lpf FMEGdata rois = Ok zero /\
  forall eig params C D frange p,
    unpack params = Ok p ->
    frequency_sweep eig p C D frange = Ok fm ->
    network_transfer_cost eig params C D lpf FMEGdata frange rois = Ok zero.
Proof.
  intros Hne Hsel Hr Hp.
  pose proof (cost_of_profiles_zero _ _ _ _ _ Hne Hsel Hr Hp) as Hcost.
  split; [|split; [exact Hcost|]].
  - intros row Hin. destruct (Hp row Hin) as [conv [Ec Hc]].
    destruct (align_model_sum_zero _ _ _ Ec Hc) as [qmodel [E [Hs _]]].
    exists qmodel. split; [exact E|]. split; [exact Hs|].
    intros qdata. now apply agreement_model_zero.
  - intros eig params C D frange p Hu Hsw.
    unfold network_transfer_cost. rewrite Hu. simpl bind.
    rewrite Hsw. simpl bind. exact Hcost.
Qed.

Lemma cabs_real a : (0 <= a)%R -> cabs (mkC (Fin a) (Fin 0)) = Fin a.
Proof.
  intros Ha. unfold cabs. simpl.
  destruct (Rlt_dec (a * a + 0 * 0) 0) as [H|H]; [exfalso; nra|].
  f_equal. replace (a * a + 0 * 0)%R with (a * a)%R by ring.
  now apply sqrt_square.
Qed.

Lemma match_restrict :
  restrict match_profiles [0%Z] = Ok [[mkC (Fin 1) (Fin 0); mkC (Fin 10) (Fin 0)]].
Proof. reflexivity. Qed.

Lemma match_convolve :
  convolve_same (map cabs [mkC (Fin 1) (Fin 0); mkC (Fin 10) (Fin 0)]) unit_lpf
  = Ok [Fin 1; Fin 10].
Proof.
  simpl map. rewrite !cabs_real by lra.
  unfold convolve_same, unit_lpf. simpl. repeat f_equal; ring.
Qed.

Lemma match_positive : positive_curve [Fin 1; Fin 10].
Proof. exists [1%R; 10%R]. split; [reflexivity|]. repeat constructor; lra. Qed.

Lemma match_align_data :
  align_data [Fin 1; Fin 10] = center (mag2db [Fin 1; Fin 10]).
Proof. unfold align_data. decide_R. reflexivity. Qed.

Lemma match_conditions :
  [0%Z] <> [] /\
  (forall n, In n [0%Z] ->
     (- Z.of_nat (length match_data) <= n < Z.of_nat (length match_data))%Z /\
     (- Z.of_nat (length [0%Z]) <= n < Z.of_nat (length [0%Z]))%Z) /\
  (forall row, In row [[mkC (Fin 1) (Fin 0); mkC (Fin 10) (Fin 0)]] ->
     exists conv, convolve_same (map cabs row) unit_lpf = Ok conv /\
                  positive_curve conv).
Proof.
  split; [discriminate|]. split.
  - intros n [<-|[]]. simpl. lia.
  - intros row [<-|[]]. exists [Fin 1; Fin 10].
    split; [exact match_convolve | exact match_positive].
Qed.

Lemma exact_cost_is_zero_witness :
  (forall row, In row [[mkC (Fin 1) (Fin 0); mkC (Fin 10) (Fin 0)]] ->
     exists qmodel, align_model row unit_lpf = Ok qmodel /\
                    sum qmodel = zero /\
                    forall qdata, agreement qdata qmodel = Ok zero) /\
  cost_of_profiles match_profiles unit_lpf match_data [0%Z] = Ok zero /\
  forall eig params C D frange p,
    unpack params = Ok p ->
    frequency_sweep eig p C D frange = Ok match_profiles ->
    network_transfer_cost eig params C D unit_lpf match_data frange [0%Z]
    = Ok zero.
Proof.
  apply (exact_cost_is_zero match_profiles unit_lpf match_data [0%Z]
           [[mkC (Fin 1) (Fin 0); mkC (Fin 10) (Fin 0)]]).
  - discriminate.
  - reflexivity.
  - exact (proj1 (proj2 match_conditions)).
  - exact (proj2 (proj2 match_conditions)).
Defined.


Lemma cost_of_profiles_Ok fm lpf FMEGdata rois c :
  cost_of_profiles fm lpf FMEGdata rois = Ok c ->
  exists sel err_min,
    restrict fm rois = Ok sel /\
    foldM (score_step sel FMEGdata lpf) rois (repeat zero (length rois))
    = Ok err_min /\
    length err_min = length rois /\
    c = (- mean err_min)%f64.
Proof.
  unfold cost_of_profiles. intros H. inv_bind H. inv_bind H.
  inversion H; subst. exists a, a0. split; [exact E|]. split; [exact E0|].
  split; [|reflexivity].
  destruct (foldM_inv (score_step a FMEGdata lpf)
              (fun e => length e = length rois) (fun _ => True) rois)
    with (b := repeat zero (length rois)) (b' := a0) as [Hl _];
    try assumption; [|now rewrite repeat_length].
  intros b x b' Hb _ Hstep. split; [|exact I].
  destruct (score_step_Ok _ _ _ _ _ _ Hstep) as (? & ? & ? & s & _ & _ & _ & _ & Hset).
  apply setitem_Ok in Hset as [Hset _]. congruence.
Qed.

(** The cost function returns exactly when its three stages do. *)
Lemma network_transfer_cost_Ok eig params C D lpf FMEGdata frange rois c :
  network_transfer_cost eig params C D lpf FMEGdata frange rois = Ok c <->
  exists p fm,
    unpack params = Ok p /\
    frequency_sweep eig p C D frange = Ok fm /\
    cost_of_profiles fm lpf FMEGdata rois = Ok c.
Proof.
  unfold network_transfer_cost. split.
  - intros H. inv_bind H. inv_bind H. eauto.
  - intros (p & fm & H1 & H2 & H3). rewrite H1. cbn [bind].
    rewrite H2. exact H3.
Qed.

(** ** Region labels as indices *)

Lemma Forall2_nth' {A B : Type} (R : A -> B -> Prop) xs ys k dx dy :
  Forall2 R xs ys -> (k < length xs)%nat -> R (nth k xs dx) (nth k ys dy).
Proof.
  intros H. revert k. induction H as [|x y xs ys Hxy _ IH]; intros [|k] Hk;
    simpl in *; try lia; [exact Hxy|]. apply IH. lia.
Qed.

Lemma Forall2_map_eq {A B C : Type} (f : A -> C) (g : B -> C) xs ys :
  Forall2 (fun a b => g b = f a) xs ys -> map g ys = map f xs.
Proof. induction 1; simpl; [reflexivity | congruence]. Qed.

Lemma score_loop_bounds sel FMEGdata lpf rois e0 e :
  foldM (score_step sel FMEGdata lpf) rois e0 = Ok e ->
  length e = length e0 /\
  Forall (fun n =>
            (- Z.of_nat (length e0) <= n < Z.of_nat (length e0))%Z /\
            (- Z.of_nat (length FMEGdata) <= n
             < Z.of_nat (length FMEGdata))%Z /\
            (- Z.of_nat (length sel) <= n < Z.of_nat (length sel))%Z) rois.
Proof.
  intros H.
  apply (foldM_inv (score_step sel FMEGdata lpf)
           (fun b => length b = length e0)) with (b := e0) (b' := e);
    [|reflexivity|exact H].
  intros b n b' Hb _ Hstep.
  destruct (score_step_Ok _ _ _ _ _ _ Hstep)
    as (qraw & row & qmodel & s & H1 & H2 & _ & _ & H5).
  apply setitem_Ok in H5 as [Hl Hr].
  apply getitem_Ok in H1. apply getitem_Ok in H2.
  rewrite Hb in Hr. split; [congruence | auto].
Qed.

Lemma restrict_row fm rois sel n :
  restrict fm rois = Ok sel ->
  (forall k, In k rois -> (0 <= k)%Z) ->
  (0 <= n < Z.of_nat (length rois))%Z ->
  getitem sel n
  = Ok (map (fun prof =>
               nth (Z.to_nat (nth (Z.to_nat n) rois 0%Z)) prof czero) fm).
Proof.
  intros Hsel Hpos Hn.
  destruct (restrict_Ok _ _ _ Hsel) as [Hne [sel0 [Ht [-> Hs]]]].
  pose proof (restrict_length _ _ _ Hsel) as Hlen.
  assert (Hnc : ncols sel0 = length rois).
  { apply (shape_ncols _ _ _ Hs). destruct fm; [congruence | simpl; lia]. }
  rewrite <- (Z2Nat.id n) at 1 by lia.
  rewrite (getitem_nat _ _ []) by (rewrite transpose_length, Hnc; lia).
  rewrite nth_transpose by (rewrite Hnc; lia).
  f_equal. apply Forall2_map_eq.
  unfold take_cols in Ht. apply traverse_Forall2 in Ht.
  eapply Forall2_impl; [|exact Ht].
  intros prof r Hr. simpl in Hr. unfold take in Hr.
  apply traverse_Forall2 in Hr.
  pose proof (Forall2_nth' _ _ _ (Z.to_nat n) 0%Z czero Hr) as Hk.
  simpl in Hk.
  apply getitem_nonneg with (d := czero) in Hk; [exact Hk|lia|].
  apply Hpos, nth_In. lia.
Qed.

Lemma fixed_labels_arange (rois : list Z) :
  NoDup rois ->
  (forall n, In n rois -> (0 <= n < Z.of_nat (length rois))%Z) ->
  (forall n, In n rois -> nth (Z.to_nat n) rois 0%Z = n) <->
  rois = map Z.of_nat (seq 0 (length rois)).
Proof.
  intros Hnd Hb. split.
  - intros Hfix.
    assert (Hincl : incl (map Z.of_nat (seq 0 (length rois))) rois).
    { apply NoDup_length_incl; [exact Hnd | |].
      - now rewrite length_map, length_seq.
      - intros n Hn. apply in_map_iff. exists (Z.to_nat n).
        destruct (Hb n Hn). split; [lia|]. apply in_seq. lia. }
    apply (nth_ext _ _ 0%Z 0%Z).
    + now rewrite length_map, length_seq.
    + intros k Hk.
      rewrite (nth_map' _ _ _ 0%nat) by now rewrite length_seq.
      rewrite seq_nth by exact Hk. simpl.
      assert (Hin : In (Z.of_nat k) rois).
      { apply Hincl, in_map, in_seq. lia. }
      specialize (Hfix _ Hin). now rewrite Nat2Z.id in Hfix.
  - intros E n Hn. destruct (Hb n Hn) as [H0 H1].
    rewrite E at 1.
    rewrite (nth_map' _ _ _ 0%nat) by (rewrite length_seq; lia).
    rewrite seq_nth by lia. simpl. lia.
Qed.

(** The default labels [np.arange(0, 68)] index their own rows. *)
Example default_rois_aligned n :
  In n default_rois -> nth (Z.to_nat n) default_rois 0%Z = n.
Proof.
  assert (H : default_rois = map Z.of_nat (seq 0 (length default_rois)))
    by reflexivity.
  revert n. apply fixed_labels_arange; [| |exact H].
  - unfold default_rois. apply Finite.Injective_map_NoDup.
    + intros x y E. lia.
    + apply seq_NoDup.
  - intros n Hn. unfold default_rois in Hn.
    apply in_map_iff in Hn as [k [<- Hk]]. apply in_seq in Hk.
    unfold default_rois. rewrite length_map, length_seq. lia.
Qed.

Lemma dup_conditions :
  [0%Z; 0%Z] <> [] /\
  restrict dup_profiles [0%Z; 0%Z]
  = Ok [[mkC (Fin 1) (Fin 0)]; [mkC (Fin 1) (Fin 0)]] /\
  (forall n, In n [0%Z; 0%Z] ->
     (- Z.of_nat (length dup_data) <= n < Z.of_nat (length dup_data))%Z /\
     (- Z.of_nat (length [0%Z; 0%Z]) <= n
      < Z.of_nat (length [0%Z; 0%Z]))%Z) /\
  (forall row, In row [[mkC (Fin 1) (Fin 0)]; [mkC (Fin 1) (Fin 0)]] ->
     exists conv, convolve_same (map cabs row) unit_lpf = Ok conv /\
                  positive_curve conv).
Proof.
  split; [discriminate|]. split; [reflexivity|]. split.
  - intros n [<-|[<-|[]]]; simpl; lia.
  - assert (H : exists conv,
               convolve_same (map cabs [mkC (Fin 1) (Fin 0)]) unit_lpf
               = Ok conv /\ positive_curve conv).
    { exists [Fin 1]. split.
      - simpl map. rewrite cabs_real by lra.
        unfold convolve_same, unit_lpf. simpl. repeat f_equal; ring.
      - exists [1%R]. split; [reflexivity|]. repeat constructor; lra. }
    intros row [<-|[<-|[]]]; exact H.
Qed.

(** C10 as stated fails in its last part.  With the labels [0, 0] the cost
    is computed without any index error and the row compared for region 0
    is region 0's own response, yet the labels are not 0, 1. *)
Lemma duplicate_labels_aligned :
  cost_of_profiles dup_profiles unit_lpf dup_data [0%Z; 0%Z] = Ok zero /\
  (exists sel,
      restrict dup_profiles [0%Z; 0%Z] = Ok sel /\
      forall n, In n [0%Z; 0%Z] ->
        getitem sel n
        = Ok (map (fun prof => nth (Z.to_nat n) prof czero) dup_profiles)) /\
  [0%Z; 0%Z] <> map Z.of_nat (seq 0 (length [0%Z; 0%Z])).
Proof.
  destruct dup_conditions as [H1 [H2 [H3 H4]]].
  split; [exact (cost_of_profiles_zero _ _ _ _ _ H1 H2 H3 H4)|].
  split; [|discriminate].
  eexists. split; [exact H2|].
  intros n [<-|[<-|[]]]; reflexivity.
Qed.

(** C10, amended: the stacked model matrix is first restricted to the
    columns [rois_with_MEG] and the loop then indexes that restricted
    matrix, the empirical data and the score array by the labels
    themselves.  Whenever the cost is returned every label n satisfies
    -m <= n < m for the number m of selected regions (and is in range for
    the empirical data); for non-negative labels the row compared for
    label n is the response of region rois[n]; and for non-negative labels
    without duplicates, that is region n's own response for every label
    exactly when the labels are 0, ..., m-1. *)
Theorem region_label_indexing fm lpf FMEGdata rois c :
  cost_of_profiles fm lpf FMEGdata rois = Ok c ->
  (forall n, In n rois ->
     (- Z.of_nat (length rois) <= n < Z.of_nat (length rois))%Z /\
     (- Z.of_nat (length FMEGdata) <= n < Z.of_nat (length FMEGdata))%Z) /\
  exists sel,
    restrict fm rois = Ok sel /\ length sel = length rois /\
    ((forall n, In n rois -> (0 <= n)%Z) ->
     (forall n, In n rois ->
        getitem sel n
        = Ok (map (fun prof =>
                     nth (Z.to_nat (nth (Z.to_nat n) rois 0%Z)) prof czero)
                  fm)) /\
     (NoDup rois ->
      (forall n, In n rois -> nth (Z.to_nat n) rois 0%Z = n) <->
      rois = map Z.of_nat (seq 0 (length rois)))).
Proof.
  intros Hc.
  destruct (cost_of_profiles_Ok _ _ _ _ _ Hc) as [sel [e [Hsel [Hloop _]]]].
  destruct (score_loop_bounds _ _ _ _ _ _ Hloop) as [_ Hb].
  rewrite repeat_length in Hb. rewrite Forall_forall in Hb.
  assert (Hrange : forall n, In n rois ->
            (- Z.of_nat (length rois) <= n < Z.of_nat (length rois))%Z /\
            (- Z.of_nat (length FMEGdata) <= n
             < Z.of_nat (length FMEGdata))%Z).
  { intros n Hn. destruct (Hb n Hn) as [H1 [H2 _]]. auto. }
  split; [exact Hrange|].
  exists sel. split; [exact Hsel|].
  split; [exact (restrict_length _ _ _ Hsel)|].
  intros Hpos. split.
  - intros n Hn. apply (restrict_row _ _ _ _ Hsel Hpos).
    destruct (Hrange n Hn) as [[_ H] _]. specialize (Hpos n Hn). lia.
  - intros Hnd. apply fixed_labels_arange; [exact Hnd|].
    intros n Hn. destruct (Hrange n Hn) as [[_ H] _].
    specialize (Hpos n Hn). lia.
Qed.

Lemma region_label_indexing_witness :
  (forall n, In n [0%Z] ->
     (- Z.of_nat (length [0%Z]) <= n < Z.of_nat (length [0%Z]))%Z /\
     (- Z.of_nat (length match_data) <= n < Z.of_nat (length match_data))%Z) /\
  exists sel,
    restrict match_profiles [0%Z] = Ok sel /\ length sel = length [0%Z] /\
    ((forall n, In n [0%Z] -> (0 <= n)%Z) ->
     (forall n, In n [0%Z] ->
        getitem sel n
        = Ok (map (fun prof =>
                     nth (Z.to_nat (nth (Z.to_nat n) [0%Z] 0%Z)) prof czero)
                  match_profiles)) /\
     (NoDup [0%Z] ->
      (forall n, In n [0%Z] -> nth (Z.to_nat n) [0%Z] 0%Z = n) <->
      [0%Z] = map Z.of_nat (seq 0 (length [0%Z])))).
Proof.
  apply (region_label_indexing match_profiles unit_lpf match_data [0%Z] zero).
  apply (cost_of_profiles_zero _ _ _ _ _ (proj1 match_conditions)
           match_restrict (proj1 (proj2 match_conditions))
           (proj2 (proj2 match_conditions))).
Defined.

(** ** The per-region agreement score *)

(** Both branches of the score are live.  An all-zero empirical row is
    passed through and scores 0; a curve with a zero in it has a dB value
    of [-inf], its centred sum is [nan], the test against zero fails and
    the Pearson branch returns [nan]. *)
Example agreement_zero_row :
  align_data [Fin 0; Fin 0] = [Fin 0; Fin 0] /\
  agreement (align_data [Fin 0; Fin 0]) [Fin 3; Fin 4] = Ok zero.
Proof.
  assert (E : align_data [Fin 0; Fin 0] = [Fin 0; Fin 0]).
  { unfold align_data. decide_R. reflexivity. }
  split; [exact E|]. rewrite E. unfold agreement.
  replace (F64.eqb (sum [Fin 0; Fin 0]) zero) with true.
  - now rewrite orb_true_r.
  - decide_R. reflexivity.
Qed.

Example agreement_log_of_zero :
  center (mag2db [Fin 0; Fin 1]) = [NaN; PInf] /\
  agreement [NaN; PInf] [NaN; PInf] = Ok NaN.
Proof.
  split.
  - unfold center, mean, mag2db. decide_R. reflexivity.
  - reflexivity.
Qed.

(** ** Polar form *)

Section Polar.

Local Open Scope R_scope.


Lemma Ratan2_principal m u :
  0 < m -> - (PI / 2) < u < PI / 2 ->
  Ratan2 (m * sinR u) (m * cosR u) = u.
Proof.
  intros Hm Hu.
  assert (Hc : 0 < cosR u) by (apply cos_gt_0; lra).
  unfold Ratan2. destruct (Rlt_dec 0 (m * cosR u)) as [_|H]; [|exfalso; nra].
  replace (m * sinR u / (m * cosR u)) with (tan u)
    by (unfold tan; field; split; lra).
  now apply atan_tan.
Qed.

Lemma Ratan2_upper m u :
  0 < m -> - (PI / 2) < u <= 0 ->
  Ratan2 (m * sinR (u + PI)) (m * cosR (u + PI)) = u + PI.
Proof.
  intros Hm Hu. rewrite neg_sin, neg_cos.
  assert (Hc : 0 < cosR u) by (apply cos_gt_0; lra).
  assert (Hs : sinR u <= 0).
  { assert (H : 0 <= sinR (- u)) by (apply sin_ge_0; lra).
    rewrite sin_neg in H. lra. }
  unfold Ratan2.
  destruct (Rlt_dec 0 (m * - cosR u)) as [H|_]; [exfalso; nra|].
  destruct (Rlt_dec (m * - cosR u) 0) as [_|H]; [|exfalso; nra].
  destruct (Rle_dec 0 (m * - sinR u)) as [_|H]; [|exfalso; nra].
  replace (m * - sinR u / (m * - cosR u)) with (tan u)
    by (unfold tan; field; split; lra).
  rewrite atan_tan by lra. reflexivity.
Qed.

Lemma Ratan2_lower m u :
  0 < m -> 0 < u < PI / 2 ->
  Ratan2 (m * sinR (u - PI)) (m * cosR (u - PI)) = u - PI.
Proof.
  intros Hm Hu. rewrite sin_minus, cos_minus, cos_PI, sin_PI.
  assert (Hc : 0 < cosR u) by (apply cos_gt_0; lra).
  assert (Hs : 0 < sinR u) by (apply sin_gt_0; lra).
  unfold Ratan2.
  destruct (Rlt_dec 0 (m * (cosR u * -1 + sinR u * 0))) as [H|_];
    [exfalso; nra|].
  destruct (Rlt_dec (m * (cosR u * -1 + sinR u * 0)) 0) as [_|H];
    [|exfalso; nra].
  destruct (Rle_dec 0 (m * (sinR u * -1 - cosR u * 0))) as [H|_];
    [exfalso; nra|].
  replace (m * (sinR u * -1 - cosR u * 0) / (m * (cosR u * -1 + sinR u * 0)))
    with (tan u) by (unfold tan; field; split; lra).
  rewrite atan_tan by lra. reflexivity.
Qed.

(** A positive multiple of the unit phasor of [z] has the phase of [z]. *)
Lemma Ratan2_polar m b a :
  0 < m ->
  Ratan2 (m * sinR (Ratan2 b a)) (m * cosR (Ratan2 b a)) = Ratan2 b a.
Proof.
  intros Hm. unfold Ratan2 at 2 3 4.
  destruct (Rlt_dec 0 a) as [Ha|Ha].
  - apply Ratan2_principal; [exact Hm|].
    pose proof (atan_bound (b / a)). lra.
  - destruct (Rlt_dec a 0) as [Ha'|Ha'].
    + assert (Hi : / a < 0) by now apply Rinv_lt_0_compat.
      destruct (Rle_dec 0 b) as [Hb|Hb].
      * apply Ratan2_upper; [exact Hm|].
        pose proof (atan_bound (b / a)). split; [lra|].
        assert (Hq : b / a <= 0) by (unfold Rdiv; nra).
        destruct Hq as [Hq|Hq].
        -- apply atan_increasing in Hq. rewrite atan_0 in Hq. lra.
        -- rewrite Hq, atan_0. lra.
      * apply Ratan2_lower; [exact Hm|].
        pose proof (atan_bound (b / a)). split; [|lra].
        assert (Hq : 0 < b / a) by (unfold Rdiv; nra).
        apply atan_increasing in Hq. rewrite atan_0 in Hq. exact Hq.
    + destruct (Rlt_dec 0 b) as [Hb|Hb].
      * rewrite cos_PI2, sin_PI2. unfold Ratan2.
        destruct (Rlt_dec 0 (m * 0)) as [H|_]; [exfalso; lra|].
        destruct (Rlt_dec (m * 0) 0) as [H|_]; [exfalso; lra|].
        destruct (Rlt_dec 0 (m * 1)) as [_|H]; [reflexivity | exfalso; lra].
      * destruct (Rlt_dec b 0) as [Hb'|Hb'].
        -- rewrite cos_neg, sin_neg, cos_PI2, sin_PI2. unfold Ratan2.
           destruct (Rlt_dec 0 (m * 0)) as [H|_]; [exfalso; lra|].
           destruct (Rlt_dec (m * 0) 0) as [H|_]; [exfalso; lra|].
           destruct (Rlt_dec 0 (m * - (1))) as [H|_]; [exfalso; lra|].
           destruct (Rlt_dec (m * - (1)) 0) as [_|H];
             [reflexivity | exfalso; lra].
        -- rewrite cos_0, sin_0. unfold Ratan2.
           destruct (Rlt_dec 0 (m * 1)) as [_|H]; [|exfalso; lra].
           replace (m * 0 / (m * 1)) with 0 by (field; lra).
           apply atan_0.
Qed.

Lemma Ratan2_origin : Ratan2 0 0 = 0.
Proof.
  unfold Ratan2.
  destruct (Rlt_dec 0 0) as [H|_]; [exfalso; lra | reflexivity].
Qed.

Lemma sqrt_polar m t :
  0 <= m -> sqrtR (m * cosR t * (m * cosR t) + m * sinR t * (m * sinR t)) = m.
Proof.
  intros Hm.
  replace (m * cosR t * (m * cosR t) + m * sinR t * (m * sinR t))
    with (m * m * ((sinR t)² + (cosR t)²)) by (unfold Rsqr; ring).
  rewrite sin2_cos2, Rmult_1_r. now apply sqrt_square.
Qed.

End Polar.

Lemma polar_form m t :
  cmul (of_real (Fin m)) (cexp (cmul j (of_real (Fin t))))
  = mkC (Fin (m * Rtrigo_def.cos t)) (Fin (m * Rtrigo_def.sin t)).
Proof.
  unfold cmul, cexp, of_real, j, zero, one. simpl.
  replace (0 * t + - (1 * 0))%R with 0%R by ring.
  replace (0 * 0 + 1 * t)%R with t by ring.
  rewrite exp_0. f_equal; f_equal; ring.
Qed.

Lemma cabs_Fin a b :
  cabs (mkC (Fin a) (Fin b)) = Fin (R_sqrt.sqrt (a * a + b * b)).
Proof.
  unfold cabs. simpl.
  destruct (Rlt_dec (a * a + b * b) 0) as [H|_]; [exfalso; nra|].
  reflexivity.
Qed.

Lemma max_Fin x y : F64.max (Fin x) (Fin y) = Fin (Rmax x y).
Proof.
  unfold F64.max, F64.ltb, Rmax.
  destruct (Rlt_dec x y), (Rle_dec x y); try reflexivity;
    try (exfalso; lra). f_equal. lra.
Qed.

Lemma leb_Fin x y : F64.leb (Fin x) (Fin y) = true <-> (x <= y)%R.
Proof.
  unfold F64.leb, F64.ltb, F64.eqb.
  destruct (Rlt_dec x y), (Req_dec_T x y); simpl; split; intros;
    try reflexivity; try discriminate; lra.
Qed.

(** The maximum of a non-empty list of finite magnitudes. *)
Lemma fold_max_Fin rs r :
  exists M, fold_left F64.max (map Fin rs) (Fin r) = Fin M /\
            (r <= M)%R /\ Forall (fun x => (x <= M)%R) rs /\
            (M = r \/ In M rs).
Proof.
  revert r. induction rs as [|x rs IH]; intros r; cbn [map fold_left].
  - exists r. repeat split; auto; lra.
  - rewrite max_Fin.
    destruct (IH (Rmax r x)) as [M [E [H1 [H2 H3]]]].
    exists M. split; [exact E|].
    pose proof (Rmax_l r x). pose proof (Rmax_r r x).
    split; [lra|]. split; [constructor; [lra | exact H2]|].
    destruct H3 as [H3|H3]; [|right; right; exact H3].
    rewrite H3. unfold Rmax.
    destruct (Rle_dec r x); [right; left | left]; reflexivity.
Qed.

(** ** The clamp of the coupling term *)

Lemma cfinite_inv z : cfinite z -> exists a b, z = mkC (Fin a) (Fin b).
Proof.
  destruct z as [[a| | |] [b| | |]]; intros [H1 H2]; simpl in *;
    try contradiction. eauto.
Qed.

Lemma cabs_Rmod z : cfinite z -> cabs z = Fin (Rmod z) /\ (0 <= Rmod z)%R.
Proof.
  intros H. destruct (cfinite_inv _ H) as [a [b ->]].
  rewrite cabs_Fin. unfold Rmod. simpl. split; [reflexivity|].
  apply sqrt_pos.
Qed.

Lemma map_cabs_Rmod q1 :
  Forall cfinite q1 -> map cabs q1 = map Fin (map Rmod q1).
Proof.
  intros H. rewrite map_map. apply map_ext_in. intros z Hz.
  rewrite Forall_forall in H. now apply cabs_Rmod, H.
Qed.

Lemma amax_cabs q1 :
  q1 <> [] -> Forall cfinite q1 ->
  exists M, amax (map cabs q1) = Ok (Fin M) /\ (0 <= M)%R /\
            (forall z, In z q1 -> F64.leb (cabs z) (Fin M) = true) /\
            (exists z, In z q1 /\ cabs z = Fin M).
Proof.
  intros Hne Hfin. rewrite (map_cabs_Rmod _ Hfin).
  destruct q1 as [|z0 q1]; [congruence|].
  cbn [map amax].
  destruct (fold_max_Fin (map Rmod q1) (Rmod z0)) as [M [E [H1 [H2 H3]]]].
  exists M. split; [now rewrite E|].
  inversion Hfin as [|? ? Hz0 Hq1]; subst.
  destruct (cabs_Rmod _ Hz0) as [E0 P0].
  split; [lra|]. split.
  - intros z [<-|Hz].
    + rewrite E0. now apply leb_Fin.
    + rewrite Forall_forall in Hq1.
      destruct (cabs_Rmod _ (Hq1 z Hz)) as [Ez _]. rewrite Ez.
      apply leb_Fin. rewrite Forall_forall in H2.
      apply H2. now apply in_map.
  - destruct H3 as [->|H3].
    + exists z0. split; [now left | exact E0].
    + apply in_map_iff in H3 as [z [Ez Hz]].
      exists z. split; [now right|].
      rewrite Forall_forall in Hq1.
      destruct (cabs_Rmod _ (Hq1 z Hz)) as [Ez' _]. now rewrite Ez', Ez.
Qed.

Lemma clamp_entry z thr :
  cfinite z -> (0 <= thr)%R ->
  let z' := cmul (of_real (F64.max (cabs z) (Fin thr)))
                 (cexp (cmul j (of_real (angle z)))) in
  cabs z' = F64.max (cabs z) (Fin thr) /\ angle z' = angle z.
Proof.
  intros Hz Hthr. destruct (cfinite_inv _ Hz) as [a [b ->]].
  cbv zeta. rewrite cabs_Fin, max_Fin.
  assert (Ea : angle (mkC (Fin a) (Fin b)) = Fin (Ratan2 b a))
    by reflexivity.
  rewrite !Ea, polar_form.
  set (r := R_sqrt.sqrt (a * a + b * b)).
  assert (Hr : (0 <= r)%R) by apply sqrt_pos.
  assert (Hm : (0 <= Rmax r thr)%R) by (pose proof (Rmax_l r thr); lra).
  split.
  - rewrite cabs_Fin. f_equal. now apply sqrt_polar.
  - unfold angle. cbn [re im atan2]. f_equal.
    destruct Hm as [Hm|Hm].
    + now apply Ratan2_polar.
    + assert (Hr0 : r = 0%R) by (pose proof (Rmax_l r thr); lra).
      assert (Hab : (a * a + b * b = 0)%R).
      { apply sqrt_eq_0; [nra | exact Hr0]. }
      assert (Ha : a = 0%R) by nra. assert (Hb : b = 0%R) by nra.
      subst a b. rewrite <- Hm, Ratan2_origin, !Rmult_0_l.
      apply Ratan2_origin.
Qed.

Lemma transfer_freqresp eig C D w p out :
  network_transfer_function eig C D w p = Ok out ->
  exists q1c, clamp (coupling p w (ev out)) = Ok q1c /\
              freqresp out = map (cdiv (Htotal_of p w)) q1c.
Proof.
  unfold network_transfer_function, transfer_of_laplacian. intros H.
  inv_bind H. destruct a as [d v].
  inv_bind H. inv_bind H. inv_bind H. inv_bind H. inv_bind H.
  destruct a3 as [o Dg]. inversion H; subst. simpl. eauto.
Qed.

(** C7, amended: in exact arithmetic, for finite coupling terms, the
    clamped [q1[k]] has magnitude [max(|q1[k]|, 0.05 * max_j |q1[j]|)] and
    the phase of the unclamped [q1[k]]; the magnitude is unchanged unless
    it is below the threshold; and the per-mode response is [Htotal]
    divided by the clamped [q1[k]].  (In float64 every entry, clamped or
    not, is rebuilt as [magq1 * exp(1j*angq1)], and rounding can change
    its value, magnitude and phase.) *)
Theorem clamp_magnitude_phase q1 :
  q1 <> [] -> Forall cfinite q1 ->
  exists q1c M,
    clamp q1 = Ok q1c /\ length q1c = length q1 /\
    amax (map cabs q1) = Ok M /\
    (forall z, In z q1 -> F64.leb (cabs z) M = true) /\
    (exists z, In z q1 /\ cabs z = M) /\
    (forall k, (k < length q1)%nat ->
       cabs (nth k q1c czero)
       = F64.max (cabs (nth k q1 czero)) (zero_thr * M)%f64 /\
       angle (nth k q1c czero) = angle (nth k q1 czero) /\
       (F64.ltb (cabs (nth k q1 czero)) (zero_thr * M)%f64 = false ->
        cabs (nth k q1c czero) = cabs (nth k q1 czero))) /\
    (forall eig C D w p out,
       network_transfer_function eig C D w p = Ok out ->
       coupling p w (ev out) = q1 ->
       freqresp out = map (cdiv (Htotal_of p w)) q1c).
Proof.
  intros Hne Hfin.
  destruct (amax_cabs _ Hne Hfin) as [M [EM [HM [Hle Hex]]]].
  unfold clamp. rewrite EM. cbn [bind].
  eexists. exists (Fin M). split; [reflexivity|].
  split; [rewrite map2_length, !length_map; lia|].
  split; [reflexivity|]. split; [exact Hle|]. split; [exact Hex|].
  split.
  - intros k Hk.
    rewrite (nth_map2 _ _ _ _ zero zero) by now rewrite length_map.
    rewrite (nth_map' _ _ _ czero) by exact Hk.
    rewrite (nth_map' _ _ _ czero) by exact Hk.
    assert (Hz : cfinite (nth k q1 czero)).
    { rewrite Forall_forall in Hfin. now apply Hfin, nth_In. }
    change (zero_thr * Fin M)%f64 with (Fin (5 / 100 * M)).
    destruct (clamp_entry (nth k q1 czero) (5 / 100 * M) Hz) as [H1 H2];
      [lra|].
    split; [exact H1|]. split; [exact H2|].
    intros Hlt. rewrite H1.
    destruct (cabs_Rmod _ Hz) as [E _]. rewrite E in *.
    rewrite max_Fin. f_equal. apply Rmax_left.
    unfold F64.ltb in Hlt.
    destruct (Rlt_dec (Rmod (nth k q1 czero)) (5 / 100 * M));
      [discriminate | lra].
  - intros eig C D w p out Hout Hq.
    destruct (transfer_freqresp _ _ _ _ _ _ Hout) as [q1c [Ec Ef]].
    rewrite Hq in Ec. unfold clamp in Ec. rewrite EM in Ec.
    cbn [bind] in Ec. inversion Ec; subst. exact Ef.
Qed.

Lemma two_modes_finite : Forall cfinite two_modes.
Proof. repeat constructor. Qed.

Lemma clamp_magnitude_phase_witness :
  exists q1c M,
    clamp two_modes = Ok q1c /\ length q1c = length two_modes /\
    amax (map cabs two_modes) = Ok M /\
    (forall z, In z two_modes -> F64.leb (cabs z) M = true) /\
    (exists z, In z two_modes /\ cabs z = M) /\
    (forall k, (k < length two_modes)%nat ->
       cabs (nth k q1c czero)
       = F64.max (cabs (nth k two_modes czero)) (zero_thr * M)%f64 /\
       angle (nth k q1c czero) = angle (nth k two_modes czero) /\
       (F64.ltb (cabs (nth k two_modes czero)) (zero_thr * M)%f64 = false ->
        cabs (nth k q1c czero) = cabs (nth k two_modes czero))) /\
    (forall eig C D w p out,
       network_transfer_function eig C D w p = Ok out ->
       coupling p w (ev out) = two_modes ->
       freqresp out = map (cdiv (Htotal_of p w)) q1c).
Proof.
  apply (clamp_magnitude_phase two_modes).
  - discriminate.
  - exact two_modes_finite.
Defined.

(** ** Calls as heap transformers *)

Lemma nth_error_ext {A : Type} (h extra : list A) a o :
  nth_error h a = Some o -> nth_error (h ++ extra) a = Some o.
Proof.
  intros H. rewrite nth_error_app1; [exact H|].
  apply nth_error_Some. congruence.
Qed.

Lemma nth_error_here {A : Type} (h : list A) x t :
  nth_error (h ++ x :: t) (length h) = Some x.
Proof.
  rewrite nth_error_app2 by lia. now rewrite Nat.sub_diag.
Qed.

Lemma update_here {A : Type} (h : list A) x t y :
  update (h ++ x :: t) (length h) y = h ++ y :: t.
Proof. induction h as [|z h IH]; simpl; [reflexivity | now rewrite IH]. Qed.

Lemma load1_Ok (h : heap) a v :
  nth_error h a = Some (Array1 v) -> load1 a h = Ok (v, h).
Proof. intros H. unfold load1. now rewrite H. Qed.

Lemma load2_Ok (h : heap) a m :
  nth_error h a = Some (Array2 m) -> load2 a h = Ok (m, h).
Proof. intros H. unfold load2. now rewrite H. Qed.

Lemma loadI_Ok (h : heap) a l :
  nth_error h a = Some (IntArray l) -> loadI a h = Ok (l, h).
Proof. intros H. unfold loadI. now rewrite H. Qed.

(** The degree arrays are the two objects the call appends; nothing that
    was in the heap is written. *)
Lemma masked_degrees_st_run (h : heap) aC C :
  nth_error h aC = Some (Array2 C) ->
  masked_degrees_st aC h
  = Ok ((length h, S (length h)),
        h ++ [Array1 (fst (masked_degrees C));
              Array1 (snd (masked_degrees C))]).
Proof.
  intros HC. unfold masked_degrees_st, bindM.
  rewrite (load2_Ok _ _ _ HC). unfold alloc.
  replace (length (h ++ [Array1 (sum_axis1 C)])) with (S (length h))
    by (rewrite length_app; simpl; lia).
  replace ((h ++ [Array1 (sum_axis1 C)]) ++ [Array1 (sum_axis0 C)])
    with (h ++ [Array1 (sum_axis1 C); Array1 (sum_axis0 C)])
    by (rewrite <- app_assoc; reflexivity).
  rewrite (load1_Ok _ _ (sum_axis1 C)) by apply nth_error_here.
  rewrite (load1_Ok _ _ (sum_axis0 C)).
  2:{ replace (h ++ [Array1 (sum_axis1 C); Array1 (sum_axis0 C)])
        with ((h ++ [Array1 (sum_axis1 C)]) ++ [Array1 (sum_axis0 C)])
        by (rewrite <- app_assoc; reflexivity).
      replace (S (length h)) with (length (h ++ [Array1 (sum_axis1 C)]))
        by (rewrite length_app; simpl; lia).
      apply nth_error_here. }
  unfold store, ret. rewrite update_here.
  replace (h ++ [Array1 (set_inf (low_degree_of (sum_axis1 C) (sum_axis0 C))
                           (sum_axis1 C)); Array1 (sum_axis0 C)])
    with ((h ++ [Array1 (set_inf (low_degree_of (sum_axis1 C) (sum_axis0 C))
                           (sum_axis1 C))]) ++ [Array1 (sum_axis0 C)])
    by (rewrite <- app_assoc; reflexivity).
  replace (S (length h))
    with (length (h ++ [Array1 (set_inf (low_degree_of (sum_axis1 C)
                                           (sum_axis0 C)) (sum_axis1 C))]))
    by (rewrite length_app; simpl; lia).
  rewrite update_here, <- app_assoc.
  rewrite length_app. simpl length. rewrite Nat.add_1_r. reflexivity.
Qed.

Lemma transfer_st_run eig (h : heap) aC aD C D w p :
  nth_error h aC = Some (Array2 C) ->
  nth_error h aD = Some (Array2 D) ->
  transfer_st eig aC aD w p h
  = match network_transfer_function eig C D w p with
    | Ok out => Ok (out, h ++ [Array1 (fst (masked_degrees C));
                               Array1 (snd (masked_degrees C))])
    | Raise e => Raise e
    end.
Proof.
  intros HC HD. unfold transfer_st, bindM.
  rewrite (masked_degrees_st_run _ _ _ HC). cbn [fst snd].
  rewrite (load1_Ok _ _ (fst (masked_degrees C)))
    by apply nth_error_here.
  rewrite (load1_Ok _ _ (snd (masked_degrees C))).
  2:{ replace (h ++ [Array1 (fst (masked_degrees C));
                     Array1 (snd (masked_degrees C))])
        with ((h ++ [Array1 (fst (masked_degrees C))])
              ++ [Array1 (snd (masked_degrees C))])
        by (rewrite <- app_assoc; reflexivity).
      replace (S (length h))
        with (length (h ++ [Array1 (fst (masked_degrees C))]))
        by (rewrite length_app; simpl; lia).
      apply nth_error_here. }
  rewrite (load2_Ok _ _ C) by now apply nth_error_ext.
  rewrite (load2_Ok _ _ D) by now apply nth_error_ext.
  unfold lift, network_transfer_function, laplacian.
  rewrite (surjective_pairing (masked_degrees C)) at 3.
  reflexivity.
Qed.

Lemma sweep_st_run eig aC aD C D p frange :
  forall h : heap,
    nth_error h aC = Some (Array2 C) ->
    nth_error h aD = Some (Array2 D) ->
    forM (fun i => out <~ transfer_st eig aC aD (Fin 2 * pi * i) p ;;
                   ret (freqresp_out out)) frange h
    = match frequency_sweep eig p C D frange with
      | Ok fm => Ok (fm, h ++ sweep_garbage C (length frange))
      | Raise e => Raise e
      end.
Proof.
  unfold frequency_sweep.
  induction frange as [|i frange IH]; intros h HC HD.
  - simpl. unfold ret, sweep_garbage. simpl. now rewrite app_nil_r.
  - cbn [traverse forM]. unfold bindM.
    rewrite (transfer_st_run _ _ _ _ _ _ _ _ HC HD).
    destruct (network_transfer_function eig C D (Fin 2 * pi * i) p)
      as [out|e]; [|reflexivity].
    cbn [bind]. unfold ret at 1.
    fold (@bindM (list cvec) (list cvec)).
    unfold bindM.
    rewrite (IH _ (nth_error_ext _ _ _ _ HC) (nth_error_ext _ _ _ _ HD)).
    destruct (traverse
                (fun i0 =>
                   out0 <- network_transfer_function eig C D
                             (Fin 2 * pi * i0) p ;; Ok (freqresp_out out0))
                frange) as [fm|e]; [|reflexivity].
    cbn [bind]. unfold ret, sweep_garbage. cbn [length repeat concat].
    now rewrite <- app_assoc.
Qed.

Lemma score_loop_st_run fm a FMEGdata lpf rois (h0 h2 : heap) :
  nth_error h0 (FMEGdata_at a) = Some (Array2 FMEGdata) ->
  nth_error h0 (lpf_at a) = Some (Array1 lpf) ->
  forall e,
    iterM (score_step_st fm a (length h0)) rois (h0 ++ Array1 e :: h2)
    = match foldM (score_step fm FMEGdata lpf) rois e with
      | Ok e' => Ok (tt, h0 ++ Array1 e' :: h2)
      | Raise x => Raise x
      end.
Proof.
  intros HF HL. induction rois as [|n rois IH]; intros e; [reflexivity|].
  cbn [iterM foldM]. unfold bindM at 1. unfold score_step_st, bindM.
  rewrite (load2_Ok _ _ FMEGdata) by now apply nth_error_ext.
  rewrite (load1_Ok _ _ lpf) by now apply nth_error_ext.
  rewrite (load1_Ok _ _ e) by apply nth_error_here.
  unfold lift.
  destruct (score_step fm FMEGdata lpf e n) as [e'|x]; [|reflexivity].
  cbn [bind]. unfold store. rewrite update_here. apply IH.
Qed.

Lemma cost_of_arguments_scores eig v :
  cost_of_arguments eig v
  = (err_min <- scores_of_arguments eig v ;; Ok (- mean err_min)%f64).
Proof.
  unfold cost_of_arguments, scores_of_arguments, network_transfer_cost,
    cost_of_profiles.
  destruct (unpack (arg_params v)) as [p|e]; [|reflexivity]. cbn [bind].
  destruct (frequency_sweep eig p (arg_C v) (arg_D v) (arg_frange v))
    as [fm0|e]; [|reflexivity]. cbn [bind].
  destruct (restrict fm0 (arg_rois v)) as [fm|e]; reflexivity.
Qed.

(** A call computes the pure function of the contents of its arguments
    and only appends to the heap: the score array and the degree arrays
    of the sweep. *)
Lemma cost_st_run eig default_at a v (h : heap) :
  holds default_at a v h ->
  network_transfer_cost_st eig default_at a h
  = match scores_of_arguments eig v with
    | Ok err_min =>
        Ok ((- mean err_min)%f64,
            h ++ Array1 err_min
              :: sweep_garbage (arg_C v) (length (arg_frange v)))
    | Raise e => Raise e
    end.
Proof.
  intros (Hp & HC & HD & HL & HF & Hfr & Hr).
  unfold scores_of_arguments, network_transfer_cost_st.
  unfold bindM at 1. rewrite (load1_Ok _ _ _ Hp).
  unfold bindM at 1. unfold lift at 1.
  destruct (unpack (arg_params v)) as [p|e]; [|reflexivity].
  cbn [bind]. unfold bindM at 1. rewrite (loadI_Ok _ _ _ Hr).
  unfold bindM at 1. unfold alloc.
  set (h1 := h ++ [Array1 (repeat zero (length (arg_rois v)))]).
  unfold bindM at 1.
  rewrite (load1_Ok _ _ (arg_frange v)) by now apply nth_error_ext.
  unfold bindM at 1.
  rewrite (sweep_st_run eig (C_at a) (D_at a) (arg_C v) (arg_D v) p
             (arg_frange v) h1 (nth_error_ext _ _ _ _ HC)
             (nth_error_ext _ _ _ _ HD)).
  destruct (frequency_sweep eig p (arg_C v) (arg_D v) (arg_frange v))
    as [freq_model|e]; [|reflexivity].
  cbn [bind]. unfold bindM at 1. unfold lift at 1.
  destruct (restrict freq_model (arg_rois v)) as [fm|e]; [|reflexivity].
  cbn [bind]. unfold bindM at 1.
  subst h1. rewrite <- app_assoc. cbn [app].
  rewrite (score_loop_st_run fm a (arg_FMEGdata v) (arg_lpf v) (arg_rois v)
             h _ HF HL).
  destruct (foldM (score_step fm (arg_FMEGdata v) (arg_lpf v)) (arg_rois v)
              (repeat zero (length (arg_rois v)))) as [e'|x]; [|reflexivity].
  unfold bindM.
  rewrite (load1_Ok _ _ e') by apply nth_error_here.
  reflexivity.
Qed.

Lemma holds_ext default_at a v (h extra : heap) :
  holds default_at a v h -> holds default_at a v (h ++ extra).
Proof.
  intros (H1 & H2 & H3 & H4 & H5 & H6 & H7).
  repeat split; now apply nth_error_ext.
Qed.

Lemma outcome_cost_st eig default_at a v (h : heap) :
  holds default_at a v h ->
  outcome (network_transfer_cost_st eig default_at a h)
  = cost_of_arguments eig v.
Proof.
  intros H. rewrite (cost_st_run eig _ _ _ _ H), cost_of_arguments_scores.
  now destruct (scores_of_arguments eig v).
Qed.

(** C8: a call of [network_transfer_cost] returns the value (or raises
    the exception) that the pure function of the contents of its seven
    arguments gives: nothing else in the heap is read, and no random
    choice is made.  The call writes only to arrays it has allocated
    itself, so the arguments, the shared default [rois_with_MEG] among
    them, are unchanged afterwards and a second call with the same
    arguments returns the identical output. *)
Theorem cost_deterministic eig default_at a v (h h' : heap) :
  holds default_at a v h -> holds default_at a v h' ->
  outcome (network_transfer_cost_st eig default_at a h)
  = cost_of_arguments eig v /\
  outcome (network_transfer_cost_st eig default_at a h)
  = outcome (network_transfer_cost_st eig default_at a h') /\
  forall c h1,
    network_transfer_cost_st eig default_at a h = Ok (c, h1) ->
    (exists extra, h1 = h ++ extra) /\
    holds default_at a v h1 /\
    outcome (network_transfer_cost_st eig default_at a h1) = Ok c.
Proof.
  intros H H'.
  pose proof (outcome_cost_st eig _ _ _ _ H) as E.
  pose proof (outcome_cost_st eig _ _ _ _ H') as E'.
  split; [exact E|]. split; [congruence|].
  intros c h1 Hrun.
  assert (Hext : exists extra, h1 = h ++ extra).
  { rewrite (cost_st_run eig _ _ _ _ H) in Hrun.
    destruct (scores_of_arguments eig v) as [e|x]; [|discriminate].
    inversion Hrun; subst. eauto. }
  split; [exact Hext|].
  destruct Hext as [extra ->].
  pose proof (holds_ext _ _ _ _ extra H) as H1.
  split; [exact H1|].
  rewrite (outcome_cost_st eig _ _ _ _ H1), <- E, Hrun. reflexivity.
Qed.

Lemma demo_holds : holds 0 demo_call demo_arguments demo_heap.
Proof. repeat split. Qed.

Lemma cost_deterministic_witness :
  outcome (network_transfer_cost_st eig_diag 0 demo_call demo_heap)
  = cost_of_arguments eig_diag demo_arguments /\
  outcome (network_transfer_cost_st eig_diag 0 demo_call demo_heap)
  = outcome (network_transfer_cost_st eig_diag 0 demo_call
               (demo_heap ++ [IntArray [7%Z]])) /\
  forall c h1,
    network_transfer_cost_st eig_diag 0 demo_call demo_heap = Ok (c, h1) ->
    (exists extra, h1 = demo_heap ++ extra) /\
    holds 0 demo_call demo_arguments h1 /\
    outcome (network_transfer_cost_st eig_diag 0 demo_call h1) = Ok c.
Proof.
  apply (cost_deterministic eig_diag 0 demo_call demo_arguments demo_heap
           (demo_heap ++ [IntArray [7%Z]])).
  - exact demo_holds.
  - exact (holds_ext _ _ _ _ _ demo_holds).
Defined.

(** * Further properties of the code *)

(** ** Errors and range of the cost *)

Lemma unpack_Ok params :
  (7 <= length params)%nat ->
  unpack params
  = Ok (mkParams (nth 0 params NaN) (nth 1 params NaN) (nth 2 params NaN)
                 (nth 3 params NaN) (nth 4 params NaN) (nth 5 params NaN)
                 (nth 6 params NaN)).
Proof.
  intros H. unfold unpack.
  change 0%Z with (Z.of_nat 0). change 1%Z with (Z.of_nat 1).
  change 2%Z with (Z.of_nat 2). change 3%Z with (Z.of_nat 3).
  change 4%Z with (Z.of_nat 4). change 5%Z with (Z.of_nat 5).
  change 6%Z with (Z.of_nat 6).
  rewrite (getitem_nat params 0 NaN) by lia. cbn [bind].
  rewrite (getitem_nat params 1 NaN) by lia. cbn [bind].
  rewrite (getitem_nat params 2 NaN) by lia. cbn [bind].
  rewrite (getitem_nat params 3 NaN) by lia. cbn [bind].
  rewrite (getitem_nat params 4 NaN) by lia. cbn [bind].
  rewrite (getitem_nat params 5 NaN) by lia. cbn [bind].
  rewrite (getitem_nat params 6 NaN) by lia. reflexivity.
Qed.

Lemma unpack_short params :
  (length params < 7)%nat -> unpack params = Raise IndexError.
Proof.
  intros H.
  do 7 (destruct params as [|? params]; [reflexivity|]).
  simpl in H. lia.
Qed.

(** X1: a parameter vector with fewer than seven entries makes the cost
    function raise [IndexError], whatever the other arguments are: the
    seven parameters are read by position before anything else is done. *)
Theorem cost_short_parameters eig params C D lpf FMEGdata frange rois :
  (length params < 7)%nat ->
  network_transfer_cost eig params C D lpf FMEGdata frange rois
  = Raise IndexError.
Proof.
  intros H. unfold network_transfer_cost.
  now rewrite (unpack_short _ H).
Qed.

Lemma cost_short_parameters_witness :
  network_transfer_cost eig_diag [Fin 1; Fin 2; Fin 3] toy_C toy_D unit_lpf
                        match_data [Fin 10] default_rois
  = Raise IndexError.
Proof.
  apply (cost_short_parameters eig_diag [Fin 1; Fin 2; Fin 3]).
  simpl. lia.
Defined.

(** X2: with an empty frequency range the cost function raises
    [IndexError]: no profile is computed, the stack of profiles is a
    one-dimensional empty array, and it is indexed with two indices. *)
Theorem cost_empty_frange eig params C D lpf FMEGdata rois :
  (7 <= length params)%nat ->
  network_transfer_cost eig params C D lpf FMEGdata [] rois
  = Raise IndexError.
Proof.
  intros H. unfold network_transfer_cost.
  now rewrite (unpack_Ok _ H).
Qed.

Lemma cost_empty_frange_witness :
  network_transfer_cost eig_diag
    [Fin 1; Fin 2; Fin 3; Fin 4; Fin 5; Fin 6; Fin 7]
    toy_C toy_D unit_lpf match_data [] default_rois
  = Raise IndexError.
Proof.
  apply (cost_empty_frange eig_diag
           [Fin 1; Fin 2; Fin 3; Fin 4; Fin 5; Fin 6; Fin 7]).
  simpl. lia.
Defined.

Lemma take_nil {A : Type} (xs : list A) : take xs [] = Ok [].
Proof. reflexivity. Qed.

Lemma take_cols_nil {A : Type} (M : list (list A)) :
  take_cols M [] = Ok (map (fun _ => []) M).
Proof.
  unfold take_cols. induction M as [|r M IH]; simpl; [reflexivity|].
  now rewrite IH.
Qed.

(** X3: with an empty array of region labels (and at least one computed
    profile) nothing is scored and the cost is [nan], the mean of an empty
    array; no exception is raised. *)
Theorem cost_no_regions fm lpf FMEGdata :
  fm <> [] ->
  cost_of_profiles fm lpf FMEGdata [] = Ok NaN /\
  forall eig params C D frange p,
    unpack params = Ok p ->
    frequency_sweep eig p C D frange = Ok fm ->
    network_transfer_cost eig params C D lpf FMEGdata frange [] = Ok NaN.
Proof.
  intros Hne.
  assert (Hc : cost_of_profiles fm lpf FMEGdata [] = Ok NaN).
  { unfold cost_of_profiles, restrict.
    destruct fm as [|r fm]; [congruence|].
    rewrite take_cols_nil. cbn [bind map]. unfold transpose.
    cbn [ncols length seq map foldM bind repeat]. f_equal.
    unfold mean, sum. cbn [fold_right length]. unfold of_nat, zero.
    cbn [INR]. unfold F64.div. decide_R. reflexivity. }
  split; [exact Hc|].
  intros eig params C D frange p Hu Hs. unfold network_transfer_cost.
  rewrite Hu. cbn [bind]. rewrite Hs. exact Hc.
Qed.

Lemma cost_no_regions_witness :
  cost_of_profiles match_profiles unit_lpf match_data [] = Ok NaN /\
  forall eig params C D frange p,
    unpack params = Ok p ->
    frequency_sweep eig p C D frange = Ok match_profiles ->
    network_transfer_cost eig params C D unit_lpf match_data frange []
    = Ok NaN.
Proof.
  apply (cost_no_regions match_profiles unit_lpf match_data).
  discriminate.
Defined.

Lemma clip_in_range r : correlation_value (py_max (py_min r one) (- one)).
Proof.
  unfold correlation_value, py_max, py_min, one.
  destruct r as [a| | |]; cbn [F64.neg F64.ltb].
  - destruct (Rlt_dec 1 a); cbn [F64.ltb].
    + destruct (Rlt_dec 1 (- (1))); right; eexists; split;
        try reflexivity; lra.
    + destruct (Rlt_dec a (- (1))); right; eexists; split;
        try reflexivity; lra.
  - destruct (Rlt_dec 1 (- (1))); right; eexists; split;
      try reflexivity; lra.
  - right. exists (-1)%R. split; [reflexivity | lra].
  - now left.
Qed.

Lemma pearsonr_in_range x y r : pearsonr x y = Ok r -> correlation_value r.
Proof.
  unfold pearsonr.
  destruct (negb (Nat.eqb (length x) (length y))); [discriminate|].
  destruct (Nat.ltb (length x) 2); [discriminate|].
  intros H. inversion H. apply clip_in_range.
Qed.

Lemma zero_in_range : correlation_value zero.
Proof. right. exists 0%R. split; [reflexivity | lra]. Qed.

Lemma agreement_in_range qdata qmodel s :
  agreement qdata qmodel = Ok s -> correlation_value s.
Proof.
  unfold agreement.
  destruct (F64.eqb (sum qmodel) zero || F64.eqb (sum qdata) zero).
  - intros H. inversion H. apply zero_in_range.
  - apply pearsonr_in_range.
Qed.

Lemma update_Forall {A : Type} (P : A -> Prop) xs k v :
  Forall P xs -> P v -> Forall P (update xs k v).
Proof.
  intros H Hv. revert k. induction H as [|x xs Hx Hxs IH]; intros [|k]; simpl;
    constructor; auto.
Qed.

Lemma setitem_Forall {A : Type} (P : A -> Prop) xs i v ys :
  setitem xs i v = Ok ys -> Forall P xs -> P v -> Forall P ys.
Proof.
  unfold setitem. intros H Hxs Hv. inv_bind H. inversion H; subst.
  now apply update_Forall.
Qed.

Lemma score_loop_in_range sel FMEGdata lpf rois e0 e :
  foldM (score_step sel FMEGdata lpf) rois e0 = Ok e ->
  Forall correlation_value e0 -> Forall correlation_value e.
Proof.
  intros H H0.
  destruct (foldM_inv (score_step sel FMEGdata lpf)
              (Forall correlation_value) (fun _ => True) rois)
    with (b := e0) (b' := e) as [He _]; try assumption.
  intros b n b' Hb _ Hstep. split; [|exact I].
  destruct (score_step_Ok _ _ _ _ _ _ Hstep)
    as (qraw & row & qmodel & s & _ & _ & _ & Hs & Hset).
  eapply setitem_Forall; [exact Hset | exact Hb|].
  eapply agreement_in_range; exact Hs.
Qed.

Lemma sum_in_range e :
  Forall correlation_value e ->
  sum e = NaN \/
  exists s, sum e = Fin s /\ (- INR (length e) <= s <= INR (length e))%R.
Proof.
  intros H. induction H as [|x e Hx _ IH].
  - right. exists 0%R. split; [reflexivity | simpl; lra].
  - change (sum (x :: e)) with (x + sum e)%f64.
    change (length (x :: e)) with (S (length e)). rewrite S_INR.
    destruct Hx as [->|[r [-> Hr]]]; [now left|].
    destruct IH as [->|[s [-> Hs]]]; [now left|].
    right. exists (r + s)%R. split; [reflexivity | lra].
Qed.

Lemma neg_mean_in_range e :
  Forall correlation_value e -> correlation_value (- mean e).
Proof.
  intros H. unfold mean, of_nat.
  destruct (sum_in_range e H) as [->|[s [-> Hs]]]; [now left|].
  unfold F64.div. destruct (Req_dec_T (INR (length e)) 0) as [E|E].
  - rewrite E in Hs. assert (s = 0%R) as -> by lra.
    unfold signed_inf. decide_R. now left.
  - right. exists (- (s / INR (length e)))%R. split; [reflexivity|].
    assert (Hpos : (0 < INR (length e))%R).
    { pose proof (pos_INR (length e)). lra. }
    assert (Hq : (-1 <= s / INR (length e) <= 1)%R).
    { split.
      - apply Rmult_le_reg_r with (INR (length e)); [exact Hpos|].
        unfold Rdiv. rewrite Rmult_assoc, Rinv_l by lra. lra.
      - apply Rmult_le_reg_r with (INR (length e)); [exact Hpos|].
        unfold Rdiv. rewrite Rmult_assoc, Rinv_l by lra. lra. }
    lra.
Qed.

(** X4: whenever the cost is returned it is [nan] or a real number between
    -1 and 1: every stored score is 0 or a clipped Pearson coefficient, so
    the cost is never infinite and never below -1. *)
Theorem cost_in_unit_interval fm lpf FMEGdata rois c :
  cost_of_profiles fm lpf FMEGdata rois = Ok c ->
  correlation_value c /\
  forall eig params C D frange c',
    network_transfer_cost eig params C D lpf FMEGdata frange rois = Ok c' ->
    correlation_value c'.
Proof.
  assert (Hp : forall fm' c',
             cost_of_profiles fm' lpf FMEGdata rois = Ok c' ->
             correlation_value c').
  { intros fm' c' H.
    destruct (cost_of_profiles_Ok _ _ _ _ _ H)
      as (sel & err & _ & Hloop & _ & ->).
    apply neg_mean_in_range.
    apply (score_loop_in_range _ _ _ _ _ _ Hloop).
    apply Forall_forall. intros x Hx. apply repeat_spec in Hx. subst x.
    apply zero_in_range. }
  intros H. split; [exact (Hp _ _ H)|].
  intros eig params C D frange c' Hn.
  apply network_transfer_cost_Ok in Hn. destruct Hn as (p & fm' & _ & _ & Hc).
  exact (Hp _ _ Hc).
Qed.

Lemma cost_in_unit_interval_witness :
  correlation_value zero /\
  forall eig params C D frange c',
    network_transfer_cost eig params C D unit_lpf match_data frange [0%Z]
    = Ok c' ->
    correlation_value c'.
Proof.
  apply (cost_in_unit_interval match_profiles unit_lpf match_data [0%Z] zero).
  apply (cost_of_profiles_zero _ _ _ _ _ (proj1 match_conditions)
           match_restrict (proj1 (proj2 match_conditions))
           (proj2 (proj2 match_conditions))).
Defined.

(** ** The region response and the shapes of the outputs *)

Lemma region_loop_value fr (Vv : cmat) N K ks u :
  length fr = K -> shape N K Vv ->
  Forall (fun k => (k < K)%nat) ks -> length u = N ->
  exists u', foldM (region_step fr Vv) ks (Vector u) = Ok (Vector u') /\
             length u' = N /\
             forall i, (i < N)%nat ->
               nth i u' czero
               = fold_left cadd
                   (map (fun k => cmul (nth k fr czero)
                                       (nth k (nth i Vv []) czero)) ks)
                   (nth i u czero).
Proof.
  intros Hfr HV Hks. revert u.
  induction Hks as [|k ks Hk _ IH]; intros u Hu; cbn [foldM].
  - exists u. auto.
  - rewrite region_step_Ok with (N := N) (K := K) by assumption.
    cbn [bind iadd].
    destruct (IH (map2 cadd u (map (cmul (nth k fr czero))
                                   (map (fun r => nth k r czero) Vv))))
      as [u' [E [Hl Hv]]].
    { rewrite map2_length, !length_map. destruct HV as [HN _]. lia. }
    exists u'. split; [exact E|]. split; [exact Hl|].
    intros i Hi. rewrite (Hv i Hi). cbn [map fold_left]. f_equal.
    destruct HV as [HN _].
    rewrite (nth_map2 _ _ _ _ czero czero) by (rewrite ?length_map; lia).
    f_equal. rewrite map_map.
    now rewrite (nth_map' _ _ _ []) by lia.
Qed.

Lemma region_loop_value_scalar fr (Vv : cmat) N K ks :
  length fr = K -> shape N K Vv ->
  Forall (fun k => (k < K)%nat) ks -> ks <> [] ->
  exists u', foldM (region_step fr Vv) ks (Scalar czero) = Ok (Vector u') /\
             length u' = N /\
             forall i, (i < N)%nat ->
               nth i u' czero
               = fold_left cadd
                   (map (fun k => cmul (nth k fr czero)
                                       (nth k (nth i Vv []) czero)) ks)
                   czero.
Proof.
  intros Hfr HV Hks Hne. destruct Hks as [|k ks Hk Hks]; [congruence|].
  cbn [foldM]. rewrite region_step_Ok with (N := N) (K := K) by assumption.
  cbn [bind iadd].
  destruct (region_loop_value fr Vv N K ks
              (map (cadd czero) (map (cmul (nth k fr czero))
                                     (map (fun r => nth k r czero) Vv))))
    as [u' [E [Hl Hv]]]; try assumption.
  { rewrite !length_map. now destruct HV. }
  exists u'. split; [exact E|]. split; [exact Hl|].
  intros i Hi. rewrite (Hv i Hi). cbn [map fold_left]. f_equal.
  destruct HV as [HN _].
  rewrite (nth_map' _ _ _ czero) by (rewrite ?length_map; lia).
  f_equal. rewrite map_map.
  now rewrite (nth_map' _ _ _ []) by lia.
Qed.

Lemma ncols_diag {A : Type} (z : A) xs : ncols (diag z xs) = length xs.
Proof.
  destruct xs as [|x xs]; [reflexivity|].
  unfold diag. cbn [length seq map ncols].
  now rewrite length_map, length_seq.
Qed.

Lemma ncols_mmap {A B : Type} (f : A -> B) M : ncols (mmap f M) = ncols M.
Proof. destruct M; simpl; [reflexivity | now rewrite length_map]. Qed.

Lemma transfer_tail_value K N w p (ev0 : cvec) (Vv0 : cmat) :
  (2 <= K)%nat -> length ev0 = K -> shape N K Vv0 ->
  exists out, transfer_tail K w p ev0 Vv0 = Ok out /\
              Vv out = Vv0 /\
              length (freqresp_out out) = N /\
              (forall i, (i < N)%nat ->
                 nth i (freqresp_out out) czero
                 = mode_sum (freqresp out) Vv0 K i) /\
              shape N N (FCmodel out).
Proof.
  intros HK Hev HV. unfold transfer_tail.
  destruct (clamp_Ok (coupling p w ev0)) as [q1 [Eq Hq]].
  { intros E. apply (f_equal (@length _)) in E.
    rewrite coupling_length in E. simpl in E. lia. }
  rewrite coupling_length in Hq. rewrite Eq. cbn [bind].
  set (fr := map (cdiv (Htotal_of p w)) q1).
  assert (Hfr : length fr = K) by (subst fr; rewrite length_map; lia).
  destruct (region_loop_value_scalar fr Vv0 N K (seq 1 (K - 1)))
    as [u [Eu [Hu Hval]]]; try assumption.
  { pose proof (seq_bound 1 (K - 1)) as H.
    replace (1 + (K - 1))%nat with K in H by lia. exact H. }
  { destruct K as [|[|K]]; try lia. discriminate. }
  rewrite Eu. cbn [bind inv_den]. eexists. split; [reflexivity|].
  cbn [Vv freqresp_out freqresp FCmodel].
  split; [reflexivity|]. split; [exact Hu|]. split; [exact Hval|].
  apply shape_matmul.
  - unfold matmul, mmap. rewrite !length_map.
    unfold diag. now rewrite length_map, length_seq, length_map.
  - now rewrite ncols_mmap, ncols_diag, length_map.
Qed.

(** X5: on a connectome of at least three regions the response of region
    [i] is the sum over the retained modes [k = 1, ..., K-1] of
    [freqresp[k] * Vv[i, k]], added in that order starting from 0; the
    first retained mode ([k = 0]) is left out of the sum. *)
Theorem region_response_sum eig n C D w p d v :
  eig_shapes eig -> (3 <= n)%nat -> shape n n C -> shape n n D ->
  eig (laplacian C D w (speed p)) = Ok (d, v) ->
  exists out,
    network_transfer_function eig C D w p = Ok out /\
    forall i, (i < n)%nat ->
      nth i (freqresp_out out) czero
      = mode_sum (freqresp out) (Vv out) (numsmalleigs n) i.
Proof.
  intros Hs Hn HC HD He.
  rewrite (@transfer_open eig Hs n C D w p d v HC HD He).
  destruct (transfer_tail_value (numsmalleigs n) n w p
              (slice 0 (numsmalleigs n) (sorted_vals d))
              (slice_cols 0 (numsmalleigs n) (sorted_vecs d v)))
    as (out & E & HV & _ & Hval & _).
  - now apply numsmalleigs_ge2.
  - exact (@retained_vals_length eig Hs n C D w p d v HC HD He).
  - exact (@shape_retained_vecs eig Hs n C D w p d v HC HD He).
  - exists out. split; [exact E|]. now rewrite HV.
Qed.

Lemma region_response_sum_witness :
  exists out,
    network_transfer_function eig_diag toy_C toy_D w10 default_parameters
    = Ok out /\
    forall i, (i < 4)%nat ->
      nth i (freqresp_out out) czero
      = mode_sum (freqresp out) (Vv out) (numsmalleigs 4) i.
Proof.
  apply (@region_response_sum eig_diag 4 toy_C toy_D w10 default_parameters
           (map (fun i => nth i (nth i (laplacian toy_C toy_D w10
                                          (speed default_parameters)) [])
                              czero) (seq 0 4))
           (mmap of_real (identity 4))).
  - exact eig_diag_shapes.
  - lia.
  - exact shape_toy_C.
  - exact shape_toy_D.
  - reflexivity.
Defined.

(** X6: on a connectome of [n >= 3] regions the transfer function returns
    one response per region and a functional connectivity matrix of shape
    [n] by [n]. *)
Theorem transfer_region_shapes eig n C D w p d v :
  eig_shapes eig -> (3 <= n)%nat -> shape n n C -> shape n n D ->
  eig (laplacian C D w (speed p)) = Ok (d, v) ->
  exists out,
    network_transfer_function eig C D w p = Ok out /\
    length (freqresp_out out) = n /\
    shape n n (FCmodel out).
Proof.
  intros Hs Hn HC HD He.
  rewrite (@transfer_open eig Hs n C D w p d v HC HD He).
  destruct (transfer_tail_value (numsmalleigs n) n w p
              (slice 0 (numsmalleigs n) (sorted_vals d))
              (slice_cols 0 (numsmalleigs n) (sorted_vecs d v)))
    as (out & E & _ & Hl & _ & HF).
  - now apply numsmalleigs_ge2.
  - exact (@retained_vals_length eig Hs n C D w p d v HC HD He).
  - exact (@shape_retained_vecs eig Hs n C D w p d v HC HD He).
  - exists out. auto.
Qed.

Lemma transfer_region_shapes_witness :
  exists out,
    network_transfer_function eig_diag toy_C toy_D w10 default_parameters
    = Ok out /\
    length (freqresp_out out) = 4%nat /\
    shape 4 4 (FCmodel out).
Proof.
  apply (@transfer_region_shapes eig_diag 4 toy_C toy_D w10 default_parameters
           (map (fun i => nth i (nth i (laplacian toy_C toy_D w10
                                          (speed default_parameters)) [])
                              czero) (seq 0 4))
           (mmap of_real (identity 4))).
  - exact eig_diag_shapes.
  - lia.
  - exact shape_toy_C.
  - exact shape_toy_D.
  - reflexivity.
Defined.

(** ** The delay changes the phase only *)

Lemma delay_exponent t s w :
  s <> 0%R ->
  cmul (cmul (cneg j) (of_real (Fin (1 / 1000) * Fin t / Fin s)%f64))
       (of_real (Fin w))
  = mkC (Fin 0) (Fin (- (1 / 1000 * t / s * w))).
Proof.
  intros Hs. unfold cmul, cneg, j, of_real, zero, one. cbn [re im].
  unfold F64.div, F64.mul. destruct (Req_dec_T s 0); [contradiction|].
  cbn [F64.neg F64.sub F64.add F64.mul]. f_equal; f_equal; ring.
Qed.

Lemma delayed_entry_value c t s w :
  s <> 0%R ->
  cmul (of_real (Fin c))
       (cexp (cmul (cmul (cneg j)
                (of_real (Fin (1 / 1000) * Fin t / Fin s)%f64))
                (of_real (Fin w))))
  = mkC (Fin (c * cosR (- (1 / 1000 * t / s * w))))
        (Fin (c * sinR (- (1 / 1000 * t / s * w)))).
Proof.
  intros Hs. rewrite (delay_exponent _ _ _ Hs).
  unfold cmul, cexp, of_real, zero. cbn [re im F64.exp F64.cos F64.sin].
  cbn [F64.neg F64.sub F64.add F64.mul]. rewrite exp_0.
  f_equal; f_equal; ring.
Qed.

Lemma shape_nth_row {A : Type} n m (M : list (list A)) i :
  shape n m M -> (i < n)%nat -> length (nth i M []) = m.
Proof.
  intros [Hn Hr] Hi. rewrite Forall_forall in Hr. apply Hr.
  apply nth_In. lia.
Qed.

Lemma all_finite_nth (M : mat) i k :
  all_finite M -> (i < length M)%nat -> (k < length (nth i M []))%nat ->
  exists r, nth k (nth i M []) zero = Fin r.
Proof.
  intros HM Hi Hk. unfold all_finite in HM. rewrite Forall_forall in HM.
  assert (Hrow : Forall finite (nth i M [])) by (apply HM, nth_In; exact Hi).
  rewrite Forall_forall in Hrow.
  assert (Hf : finite (nth k (nth i M []) zero))
    by (apply Hrow, nth_In; exact Hk).
  destruct (nth k (nth i M []) zero) as [r| | |]; try contradiction. eauto.
Qed.

(** X7: in exact arithmetic, for finite matrices, a finite frequency and a
    non-zero speed, the delay factor [exp(-1j*Tau*w)] changes only the
    phase of a connection: the modulus of every entry of the delayed
    connectivity is the absolute value of the entry of [C], and an entry
    that is zero in [C] stays zero. *)
Theorem delay_keeps_magnitude n m C D w s i k :
  shape n m C -> shape n m D -> all_finite C -> all_finite D ->
  s <> 0%R -> (i < n)%nat -> (k < m)%nat ->
  cabs (nth k (nth i (delayed_connectivity C D (Fin w) (Fin s)) []) czero)
  = F64.abs (nth k (nth i C []) zero) /\
  (nth k (nth i C []) zero = zero ->
   nth k (nth i (delayed_connectivity C D (Fin w) (Fin s)) []) czero = czero).
Proof.
  intros HC HD FC FD Hs Hi Hk.
  pose proof (shape_nth_row _ _ _ _ HC Hi) as HrC.
  pose proof (shape_nth_row _ _ _ _ HD Hi) as HrD.
  destruct HC as [HCn _], HD as [HDn _].
  destruct (all_finite_nth C i k FC) as [c Ec]; try lia.
  destruct (all_finite_nth D i k FD) as [t Et]; try lia.
  assert (E : nth k (nth i (delayed_connectivity C D (Fin w) (Fin s)) [])
                  czero
              = mkC (Fin (c * cosR (- (1 / 1000 * t / s * w))))
                    (Fin (c * sinR (- (1 / 1000 * t / s * w))))).
  { unfold delayed_connectivity, mmap2, mmap.
    rewrite (nth_map2 _ _ _ _ [] []) by (rewrite ?length_map; lia).
    rewrite (nth_map' _ _ _ []) by lia.
    rewrite (nth_map2 _ _ _ _ zero zero) by (rewrite ?length_map; lia).
    rewrite (nth_map' _ _ _ zero) by lia.
    rewrite Ec, Et. now apply delayed_entry_value. }
  rewrite E, Ec. split.
  - rewrite cabs_Fin. cbn [F64.abs]. f_equal.
    set (a := (- (1 / 1000 * t / s * w))%R).
    replace (c * cosR a * (c * cosR a) + c * sinR a * (c * sinR a))%R
      with (Rsqr c * ((sinR a)² + (cosR a)²))%R by (unfold Rsqr; ring).
    rewrite sin2_cos2, Rmult_1_r. apply sqrt_Rsqr_abs.
  - intros H. unfold zero in H. inversion H; subst c.
    unfold czero, zero. f_equal; f_equal; ring.
Qed.

Lemma all_finite_toy_C : all_finite toy_C.
Proof. repeat constructor. Qed.

Lemma all_finite_toy_D : all_finite toy_D.
Proof. repeat constructor. Qed.

Lemma delay_keeps_magnitude_witness :
  cabs (nth 1 (nth 0 (delayed_connectivity toy_C toy_D (Fin 10) (Fin 5)) [])
            czero)
  = F64.abs (nth 1 (nth 0 toy_C []) zero) /\
  (nth 1 (nth 0 toy_C []) zero = zero ->
   nth 1 (nth 0 (delayed_connectivity toy_C toy_D (Fin 10) (Fin 5)) []) czero
   = czero).
Proof.
  apply (delay_keeps_magnitude 4 4 toy_C toy_D 10 5 0 1).
  - exact shape_toy_C.
  - exact shape_toy_D.
  - exact all_finite_toy_C.
  - exact all_finite_toy_D.
  - lra.
  - lia.
  - lia.
Defined.

(** ** Decibels *)

Lemma ln10_pos : (0 < ln 10)%R.
Proof. rewrite <- ln_1. apply ln_increasing; lra. Qed.

Lemma mag2db_entry r :
  (0 < r)%R -> (Fin 20 * log10 (Fin r))%f64 = Fin (20 * (ln r / ln 10)).
Proof.
  intros H. unfold log10. destruct (Rlt_dec 0 r); [reflexivity | contradiction].
Qed.

Lemma mag2db_mul_entry a b :
  (0 < a)%R -> (0 < b)%R ->
  (Fin 20 * log10 (Fin (a * b)))%f64
  = (Fin 20 * log10 (Fin a) + Fin 20 * log10 (Fin b))%f64.
Proof.
  intros Ha Hb. rewrite !mag2db_entry; try assumption.
  - cbn [F64.add]. f_equal. rewrite ln_mult by assumption.
    pose proof ln10_pos. field. lra.
  - now apply Rmult_lt_0_compat.
Qed.

(** X8: on finite, strictly positive magnitudes the dB conversion turns a
    product into a sum, [mag2db(x*y) = mag2db(x) + mag2db(y)] entry by
    entry; in particular a gain of ten adds exactly 20 dB. *)
Theorem mag2db_product xs ys :
  Forall (fun r => (0 < r)%R) xs -> Forall (fun r => (0 < r)%R) ys ->
  mag2db (map Fin (map2 Rmult xs ys))
  = map2 F64.add (mag2db (map Fin xs)) (mag2db (map Fin ys)) /\
  mag2db (map Fin (map (Rmult 10) xs))
  = map (F64.add (Fin 20)) (mag2db (map Fin xs)).
Proof.
  intros Hx Hy. split.
  - revert ys Hy. induction Hx as [|x xs Px _ IH]; intros ys Hy;
      [reflexivity|].
    destruct Hy as [|y ys Py Hy]; [reflexivity|].
    cbn [map2 map mag2db]. rewrite (mag2db_mul_entry _ _ Px Py). f_equal.
    apply (IH ys Hy).
  - induction Hx as [|x xs Px _ IH]; [reflexivity|].
    cbn [map mag2db]. f_equal; [|exact IH].
    rewrite mag2db_mul_entry by lra. f_equal.
    rewrite mag2db_entry by lra. f_equal.
    pose proof ln10_pos. field. lra.
Qed.

Lemma mag2db_product_witness :
  mag2db (map Fin (map2 Rmult [2%R; 3%R] [5%R; 7%R]))
  = map2 F64.add (mag2db (map Fin [2%R; 3%R])) (mag2db (map Fin [5%R; 7%R])) /\
  mag2db (map Fin (map (Rmult 10) [2%R; 3%R]))
  = map (F64.add (Fin 20)) (mag2db (map Fin [2%R; 3%R])).
Proof.
  apply (mag2db_product [2%R; 3%R] [5%R; 7%R]); repeat constructor; lra.
Defined.

Lemma Rsum_translate c rs :
  Rsum (map (Rplus c) rs) = (INR (length rs) * c + Rsum rs)%R.
Proof.
  induction rs as [|r rs IH].
  - simpl. ring.
  - change (Rsum (map (Rplus c) (r :: rs)))
      with ((c + r) + Rsum (map (Rplus c) rs))%R.
    change (Rsum (r :: rs)) with (r + Rsum rs)%R.
    change (length (r :: rs)) with (S (length rs)).
    rewrite IH, S_INR. ring.
Qed.

Lemma center_translate c rs :
  rs <> [] -> center (map Fin (map (Rplus c) rs)) = center (map Fin rs).
Proof.
  intros H. rewrite (center_Fin _ H), (center_Fin _ (map_neq_nil _ _ H)).
  f_equal. rewrite map_map, length_map, Rsum_translate.
  apply map_ext. intros r. pose proof (INR_length_neq0 _ H). field.
  exact H0.
Qed.

Lemma Rsum_pos rs :
  rs <> [] -> Forall (fun r => (0 < r)%R) rs -> (0 < Rsum rs)%R.
Proof.
  intros Hne H. induction H as [|r rs Hr Hrs IH]; [congruence|].
  change (Rsum (r :: rs)) with (r + Rsum rs)%R.
  destruct rs as [|r' rs]; [simpl; lra|].
  assert (0 < Rsum (r' :: rs))%R by (apply IH; discriminate). lra.
Qed.

Lemma align_data_positive rs :
  rs <> [] -> Forall (fun r => (0 < r)%R) rs ->
  align_data (map Fin rs) = center (mag2db (map Fin rs)).
Proof.
  intros Hne Hpos. unfold align_data. rewrite sum_Fin.
  pose proof (Rsum_pos _ Hne Hpos) as Hs.
  unfold F64.eqb, zero. destruct (Req_dec_T (Rsum rs) 0); [lra | reflexivity].
Qed.

(** X9: the aligned empirical curve does not depend on the overall gain
    of the spectrum: for a finite, strictly positive spectrum and a gain
    [c > 0], scaling the spectrum by [c] leaves the dB, mean-centred curve
    unchanged. *)
Theorem align_data_gain_invariant c rs :
  (0 < c)%R -> rs <> [] -> Forall (fun r => (0 < r)%R) rs ->
  align_data (map Fin (map (Rmult c) rs)) = align_data (map Fin rs).
Proof.
  intros Hc Hne Hpos.
  assert (Hpos' : Forall (fun r => (0 < r)%R) (map (Rmult c) rs)).
  { apply Forall_map. eapply Forall_impl; [|exact Hpos].
    intros r Hr. now apply Rmult_lt_0_compat. }
  rewrite (align_data_positive _ (map_neq_nil _ _ Hne) Hpos').
  rewrite (align_data_positive _ Hne Hpos).
  assert (E : forall l, Forall (fun r => (0 < r)%R) l ->
                mag2db (map Fin l)
                = map Fin (map (fun r => (20 * (ln r / ln 10))%R) l)).
  { intros l Hl. unfold mag2db. rewrite !map_map. apply map_ext_in.
    intros r Hr. rewrite Forall_forall in Hl. now apply mag2db_entry, Hl. }
  rewrite (E _ Hpos'), (E _ Hpos).
  rewrite <- (center_translate (20 * (ln c / ln 10))
                (map (fun r => (20 * (ln r / ln 10))%R) rs))
    by now apply map_neq_nil.
  f_equal. f_equal. rewrite !map_map. apply map_ext_in.
  intros r Hr. rewrite Forall_forall in Hpos.
  rewrite ln_mult; [|exact Hc|exact (Hpos r Hr)].
  pose proof ln10_pos. field. lra.
Qed.

Lemma align_data_gain_invariant_witness :
  align_data (map Fin (map (Rmult 3) [1%R; 10%R]))
  = align_data (map Fin [1%R; 10%R]).
Proof.
  apply (align_data_gain_invariant 3 [1%R; 10%R]).
  - lra.
  - discriminate.
  - repeat constructor; lra.
Defined.

(** ** [reduce_extreme_dir] *)

Lemma Forall_finite_map xs : Forall finite xs -> exists rs, xs = map Fin rs.
Proof.
  intros H. induction H as [|x xs Hx _ [rs ->]].
  - now exists [].
  - destruct x as [r| | |]; try contradiction. now exists (r :: rs).
Qed.

Lemma all_finite_concat (M : mat) : all_finite M -> Forall finite (concat M).
Proof.
  intros H. induction H as [|r M Hr _ IH]; simpl; [constructor|].
  apply Forall_app. auto.
Qed.

Lemma Forall_filter {A : Type} (P : A -> Prop) f xs :
  Forall P xs -> Forall P (filter f xs).
Proof.
  intros H. induction H as [|x xs Hx _ IH]; simpl; [constructor|].
  destruct (f x); [constructor|]; auto.
Qed.

Lemma mmap_ext_Forall {A B : Type} (P : A -> Prop) (f g : A -> B) M :
  Forall (Forall P) M -> (forall x, P x -> f x = g x) -> mmap f M = mmap g M.
Proof.
  intros H Hfg. unfold mmap. induction H as [|r M Hr _ IH]; simpl;
    [reflexivity|].
  f_equal; [|exact IH].
  induction Hr as [|x r Hx _ IHr]; simpl; [reflexivity|].
  f_equal; auto.
Qed.

Lemma mmap_mmap {A B C : Type} (f : B -> C) (g : A -> B) M :
  mmap f (mmap g M) = mmap (fun x => f (g x)) M.
Proof.
  unfold mmap. rewrite map_map. apply map_ext. intros r. apply map_map.
Qed.

Lemma minimum_Fin a b : minimum (Fin a) (Fin b) = Fin (Rmin a b).
Proof.
  unfold minimum, ltb, Rmin.
  destruct (Rlt_dec b a), (Rle_dec a b); try reflexivity; f_equal; lra.
Qed.

(** X10: for a finite matrix with at least one positive entry and finite
    [max_dir] and [f], the threshold is a real number [t], every entry
    [c] becomes [min(c, t)], and the final blend
    [max_dir*C + (1-max_dir)*C] changes nothing: entries at or below the
    threshold are returned as they are, and no entry exceeds it. *)
Theorem reduce_extreme_dir_caps (C : mat) d f :
  all_finite C -> positive_entries C <> [] ->
  exists t,
    (Fin f * mean (positive_entries C))%f64 = Fin t /\
    reduce_extreme_dir C (Fin d) (Fin f)
    = mmap (fun c => minimum c (Fin t)) C /\
    forall i k c,
      nth_error C i = Some (map Fin c) ->
      (k < length c)%nat ->
      nth k (nth i (reduce_extreme_dir C (Fin d) (Fin f)) []) zero
      = Fin (Rmin (nth k c 0%R) t).
Proof.
  intros HC Hne.
  destruct (Forall_finite_map (positive_entries C)) as [ps Eps].
  { apply Forall_filter. now apply all_finite_concat. }
  assert (Hps : ps <> []) by (intros ->; now apply Hne).
  exists (f * (Rsum ps / INR (length ps)))%R.
  assert (Et : (Fin f * mean (positive_entries C))%f64
               = Fin (f * (Rsum ps / INR (length ps)))).
  { now rewrite Eps, (mean_Fin _ Hps). }
  assert (Eq : reduce_extreme_dir C (Fin d) (Fin f)
               = mmap (fun c => minimum c
                          (Fin (f * (Rsum ps / INR (length ps))))) C).
  { unfold reduce_extreme_dir. rewrite Et, mmap_mmap.
    apply (mmap_ext_Forall finite _ _ C HC).
    intros x Hx. destruct x as [a| | |]; try contradiction.
    rewrite minimum_Fin. unfold one.
    cbn [F64.mul F64.add F64.sub F64.neg]. f_equal. ring. }
  split; [exact Et|]. split; [exact Eq|].
  intros i k c Hi Hk. rewrite Eq. unfold mmap.
  rewrite (nth_map' _ _ _ []) by (apply nth_error_Some; congruence).
  rewrite (nth_error_nth _ _ [] Hi).
  rewrite (nth_map' _ _ _ zero) by now rewrite length_map.
  rewrite (nth_map' _ _ _ 0%R) by exact Hk.
  apply minimum_Fin.
Qed.

Lemma pair_C_positive : positive_entries pair_C = [Fin 1; Fin 1].
Proof. unfold positive_entries, pair_C. cbn [concat app filter]. decide_R. reflexivity. Qed.

Lemma reduce_extreme_dir_caps_witness :
  exists t,
    (Fin 7 * mean (positive_entries pair_C))%f64 = Fin t /\
    reduce_extreme_dir pair_C (Fin (95 / 100)) (Fin 7)
    = mmap (fun c => minimum c (Fin t)) pair_C /\
    forall i k c,
      nth_error pair_C i = Some (map Fin c) ->
      (k < length c)%nat ->
      nth k (nth i (reduce_extreme_dir pair_C (Fin (95 / 100)) (Fin 7)) [])
          zero
      = Fin (Rmin (nth k c 0%R) t).
Proof.
  apply (reduce_extreme_dir_caps pair_C (95 / 100) 7).
  - repeat constructor.
  - rewrite pair_C_positive. discriminate.
Defined.

Lemma mean_nil : mean [] = NaN.
Proof.
  unfold mean, sum, of_nat, zero. cbn [fold_right length INR].
  unfold F64.div. decide_R. reflexivity.
Qed.

(** X11: a matrix without any positive entry (an all-zero connectome, for
    one) is returned with every entry [nan]: the threshold is [f] times
    the mean of an empty selection, which is [nan], and [np.minimum]
    propagates it. *)
Theorem reduce_extreme_dir_no_positive (C : mat) max_dir f :
  positive_entries C = [] ->
  reduce_extreme_dir C max_dir f = mmap (fun _ => NaN) C.
Proof.
  intros H. unfold reduce_extreme_dir. rewrite H, mean_nil, mmap_mmap.
  unfold mmap. apply map_ext. intros r. apply map_ext. intros c.
  assert (E : (f * NaN)%f64 = NaN) by now destruct f.
  rewrite E.
  assert (E' : minimum c NaN = NaN) by now destruct c.
  rewrite E'. now destruct max_dir.
Qed.

Lemma reduce_extreme_dir_no_positive_witness :
  reduce_extreme_dir [[Fin 0; Fin 0]; [Fin 0; Fin 0]] default_max_dir
                     default_f
  = mmap (fun _ => NaN) [[Fin 0; Fin 0]; [Fin 0; Fin 0]].
Proof.
  apply (reduce_extreme_dir_no_positive [[Fin 0; Fin 0]; [Fin 0; Fin 0]]).
  unfold positive_entries. cbn [concat app filter]. decide_R. reflexivity.
Defined.

(** ** Region orderings *)

Lemma getitem_raises {A : Type} (xs : list A) i e :
  getitem xs i = Raise e -> e = IndexError.
Proof.
  unfold getitem, np_index.
  destruct ((0 <=? i) && (i <? Z.of_nat (length xs)))%Z; cbn [bind].
  - destruct (nth_error xs (Z.to_nat i)); congruence.
  - destruct ((- Z.of_nat (length xs) <=? i) && (i <? 0))%Z; cbn [bind].
    + destruct (nth_error xs (Z.to_nat (Z.of_nat (length xs) + i)));
        congruence.
    + congruence.
Qed.

Lemma getitem_past_end {A : Type} (xs : list A) i :
  (Z.of_nat (length xs) <= i)%Z -> getitem xs i = Raise IndexError.
Proof.
  intros H. unfold getitem, np_index.
  replace (i <? Z.of_nat (length xs))%Z with false
    by (symmetry; apply Z.ltb_ge; lia).
  replace (i <? 0)%Z with false by (symmetry; apply Z.ltb_ge; lia).
  now rewrite !andb_false_r.
Qed.

(** Fancy indexing raises [IndexError] as soon as one index is past the
    end. *)
Lemma take_past_end {A : Type} (xs : list A) idx :
  Exists (fun i => (Z.of_nat (length xs) <= i)%Z) idx ->
  take xs idx = Raise IndexError.
Proof.
  unfold take. intros H. induction H as [i idx Hi | i idx _ IH]; cbn [traverse].
  - now rewrite getitem_past_end.
  - destruct (getitem xs i) as [x|e] eqn:E; cbn [bind].
    + now rewrite IH.
    + now rewrite (getitem_raises _ _ _ E).
Qed.

Lemma reorder_nat {A : Type} (d : A) n (M : list (list A)) idx :
  shape n n M -> Forall (fun i => (i < n)%nat) idx ->
  reorder M (map Z.of_nat idx)
  = Ok (map (fun i => map (fun k => nth k (nth i M []) d) idx) idx).
Proof.
  intros [Hn Hr] Hidx. unfold reorder.
  rewrite (take_nat []) by now rewrite Hn. cbn [bind].
  rewrite (take_cols_nat d n); [now rewrite map_map| |exact Hidx].
  apply Forall_map, Forall_forall. intros i Hi.
  rewrite Forall_forall in Hidx, Hr. apply Hr, nth_In.
  rewrite Hn. now apply Hidx.
Qed.

Lemma permHCP_nat :
  permHCP = map Z.of_nat (seq 18 34 ++ seq 52 34 ++ seq 0 9 ++ seq 9 9).
Proof. reflexivity. Qed.

Lemma permHCP_rotation i :
  (i < 86)%nat ->
  nth i (seq 18 34 ++ seq 52 34 ++ seq 0 9 ++ seq 9 9) 0%nat
  = ((i + 18) mod 86)%nat.
Proof.
  intros Hi.
  assert (H : forallb (fun i => Nat.eqb
                         (nth i (seq 18 34 ++ seq 52 34 ++ seq 0 9 ++ seq 9 9)
                              0%nat)
                         ((i + 18) mod 86)) (seq 0 86) = true)
    by (vm_compute; reflexivity).
  rewrite forallb_forall in H. apply Nat.eqb_eq, H, in_seq. lia.
Qed.

Lemma reorder_permHCP (M : mat) :
  shape 86 86 M ->
  exists M', reorder M permHCP = Ok M' /\ shape 86 86 M' /\
             forall i k, (i < 86)%nat -> (k < 86)%nat ->
               nth k (nth i M' []) zero
               = nth ((k + 18) mod 86) (nth ((i + 18) mod 86) M []) zero.
Proof.
  intros HM. rewrite permHCP_nat.
  set (idx := (seq 18 34 ++ seq 52 34 ++ seq 0 9 ++ seq 9 9)%list).
  assert (Hidx : Forall (fun i => (i < 86)%nat) idx).
  { apply Forall_forall. intros i Hi. subst idx.
    repeat (apply in_app_or in Hi; destruct Hi as [Hi|Hi]);
      apply in_seq in Hi; lia. }
  assert (Hlen : length idx = 86%nat) by reflexivity.
  rewrite (reorder_nat zero 86 M idx HM Hidx).
  eexists. split; [reflexivity|]. split.
  - split; [now rewrite length_map|].
    apply Forall_map, Forall_forall. intros i _. now rewrite length_map.
  - intros i k Hi Hk.
    rewrite (nth_map' _ _ _ 0%nat) by lia.
    rewrite (nth_map' _ _ _ 0%nat) by lia.
    subst idx. now rewrite !permHCP_rotation by assumption.
Qed.

(** X12: on two 86 by 86 matrices [get_HCP_connectome] never raises; it
    returns both matrices with the regions rotated by 18 places, entry
    [(i, k)] of a result being entry [((i+18) mod 86, (k+18) mod 86)] of
    the matrix read, the same reordering for the connectivity and the
    distance matrix; [permHCP] lists every region exactly once. *)
Theorem hcp_connectome_rotation (cdk_hcp ddk_hcp : mat) :
  shape 86 86 cdk_hcp -> shape 86 86 ddk_hcp ->
  Permutation permHCP (arange 0 86) /\
  exists Cdk_conn Ddk_conn,
    get_HCP_connectome cdk_hcp ddk_hcp = Ok (Cdk_conn, Ddk_conn, permHCP) /\
    shape 86 86 Cdk_conn /\ shape 86 86 Ddk_conn /\
    forall i k, (i < 86)%nat -> (k < 86)%nat ->
      nth k (nth i Cdk_conn []) zero
      = nth ((k + 18) mod 86) (nth ((i + 18) mod 86) cdk_hcp []) zero /\
      nth k (nth i Ddk_conn []) zero
      = nth ((k + 18) mod 86) (nth ((i + 18) mod 86) ddk_hcp []) zero.
Proof.
  intros HC HD. split.
  - change (arange 0 86) with (arange 0 9 ++ arange 9 18
                               ++ arange 18 52 ++ arange 52 86).
    unfold permHCP.
    rewrite (app_assoc (arange 18 52)), (app_assoc (arange 0 9) (arange 9 18)).
    apply Permutation_app_comm.
  - destruct (reorder_permHCP _ HC) as (C' & EC & SC & HCe).
    destruct (reorder_permHCP _ HD) as (D' & ED & SD & HDe).
    exists C', D'. unfold get_HCP_connectome. rewrite EC, ED.
    split; [reflexivity|]. split; [exact SC|]. split; [exact SD|].
    intros i k Hi Hk. split; [now apply HCe | now apply HDe].
Qed.

Lemma shape_repeat {A : Type} (x : A) n m : shape n m (repeat (repeat x m) n).
Proof.
  split; [apply repeat_length|].
  apply Forall_forall. intros r Hr. apply repeat_spec in Hr. subst r.
  apply repeat_length.
Qed.

Lemma hcp_connectome_rotation_witness :
  Permutation permHCP (arange 0 86) /\
  exists Cdk_conn Ddk_conn,
    get_HCP_connectome (repeat (repeat zero 86) 86)
                       (repeat (repeat one 86) 86)
    = Ok (Cdk_conn, Ddk_conn, permHCP) /\
    shape 86 86 Cdk_conn /\ shape 86 86 Ddk_conn /\
    forall i k, (i < 86)%nat -> (k < 86)%nat ->
      nth k (nth i Cdk_conn []) zero
      = nth ((k + 18) mod 86)
            (nth ((i + 18) mod 86) (repeat (repeat zero 86) 86) []) zero /\
      nth k (nth i Ddk_conn []) zero
      = nth ((k + 18) mod 86)
            (nth ((i + 18) mod 86) (repeat (repeat one 86) 86) []) zero.
Proof.
  apply (hcp_connectome_rotation (repeat (repeat zero 86) 86)
                                 (repeat (repeat one 86) 86));
    apply shape_repeat.
Defined.

(** X13: a connectivity matrix with fewer than 86 rows makes
    [get_HCP_connectome] raise [IndexError]: the ordering names region 85. *)
Theorem hcp_connectome_too_small (cdk_hcp ddk_hcp : mat) :
  (length cdk_hcp < 86)%nat ->
  get_HCP_connectome cdk_hcp ddk_hcp = Raise IndexError.
Proof.
  intros H. unfold get_HCP_connectome, reorder.
  rewrite take_past_end; [reflexivity|].
  apply Exists_exists. exists 85%Z. split; [|lia].
  unfold permHCP. apply in_or_app. right. apply in_or_app. left.
  unfold arange. apply in_map_iff. exists 85%nat. split; [reflexivity|].
  apply in_seq. lia.
Qed.

Lemma hcp_connectome_too_small_witness :
  get_HCP_connectome toy_C toy_D = Raise IndexError.
Proof.
  apply (hcp_connectome_too_small toy_C toy_D). simpl. lia.
Defined.

Lemma cortJulia_nat : cortJulia = map Z.of_nat (map Z.to_nat cortJulia).
Proof. reflexivity. Qed.

(** [cortJulia] lists each of the 68 cortical regions exactly once. *)
Lemma cortJulia_perm : Permutation (seq 0 68) (map Z.to_nat cortJulia).
Proof.
  apply NoDup_Permutation_bis.
  - apply seq_NoDup.
  - vm_compute. lia.
  - intros x Hx. apply in_seq in Hx.
    assert (H : forallb (fun x => existsb (Nat.eqb x) (map Z.to_nat cortJulia))
                        (seq 0 68) = true) by (vm_compute; reflexivity).
    rewrite forallb_forall in H.
    assert (Hin : In x (seq 0 68)) by (apply in_seq; lia).
    apply H in Hin. apply existsb_exists in Hin.
    destruct Hin as [y [Hy E]]. apply Nat.eqb_eq in E. now subst y.
Qed.

Lemma firstn_as_map {A : Type} (d : A) n xs :
  (n <= length xs)%nat -> firstn n xs = map (fun i => nth i xs d) (seq 0 n).
Proof.
  revert xs. induction n as [|n IH]; intros xs H; [reflexivity|].
  destruct xs as [|x xs]; [simpl in H; lia|].
  cbn [firstn seq map nth]. f_equal.
  rewrite <- seq_shift, map_map. apply IH. simpl in H. lia.
Qed.

Lemma take_cortJulia {A : Type} (rows : list (list A)) :
  (68 <= length rows)%nat ->
  take rows cortJulia
  = Ok (map (fun i => nth i rows []) (map Z.to_nat cortJulia)) /\
  Permutation (map (fun i => nth i rows []) (map Z.to_nat cortJulia))
              (firstn 68 rows).
Proof.
  intros H. split.
  - rewrite cortJulia_nat at 1. apply take_nat.
    apply Forall_forall. intros i Hi.
    apply (Permutation_in _ (Permutation_sym cortJulia_perm)) in Hi.
    apply in_seq in Hi. lia.
  - rewrite (firstn_as_map [] 68 rows H).
    apply Permutation_map, Permutation_sym, cortJulia_perm.
Qed.

(** X14: with the cortical ordering [cortJulia] and arrays of at least 68
    rows, [get_MEG_data] never raises and returns the first 68 rows of
    each array, every one exactly once; row [k] of both results is the
    row of region [cortJulia[k]], so spectra and coordinates stay
    aligned. *)
Theorem meg_data_cortical_order (DK_timecourse DK_coords_meg : mat) :
  (68 <= length DK_timecourse)%nat -> (68 <= length DK_coords_meg)%nat ->
  exists MEGdata coords,
    get_MEG_data DK_timecourse DK_coords_meg cortJulia
    = Ok (MEGdata, coords) /\
    Permutation MEGdata (firstn 68 DK_timecourse) /\
    Permutation coords (firstn 68 DK_coords_meg) /\
    forall k, (k < 68)%nat ->
      nth k MEGdata []
      = nth (Z.to_nat (nth k cortJulia 0%Z)) DK_timecourse [] /\
      nth k coords []
      = nth (Z.to_nat (nth k cortJulia 0%Z)) DK_coords_meg [].
Proof.
  intros HM Hc.
  destruct (take_cortJulia DK_timecourse HM) as [EM PM].
  destruct (take_cortJulia DK_coords_meg Hc) as [Ec Pc].
  unfold get_MEG_data. rewrite EM, Ec. cbn [bind].
  eexists. eexists. split; [reflexivity|].
  split; [exact PM|]. split; [exact Pc|].
  intros k Hk.
  assert (Hl : length (map Z.to_nat cortJulia) = 68%nat) by reflexivity.
  split.
  - rewrite (nth_map' _ _ _ 0%nat) by lia.
    now rewrite (nth_map' _ _ _ 0%Z) by (rewrite length_map in Hl; lia).
  - rewrite (nth_map' _ _ _ 0%nat) by lia.
    now rewrite (nth_map' _ _ _ 0%Z) by (rewrite length_map in Hl; lia).
Qed.

Lemma meg_data_cortical_order_witness :
  exists MEGdata coords,
    get_MEG_data (repeat [Fin 1; Fin 2] 68) (repeat [Fin 0; Fin 0; Fin 0] 68)
                 cortJulia
    = Ok (MEGdata, coords) /\
    Permutation MEGdata (firstn 68 (repeat [Fin 1; Fin 2] 68)) /\
    Permutation coords (firstn 68 (repeat [Fin 0; Fin 0; Fin 0] 68)) /\
    forall k, (k < 68)%nat ->
      nth k MEGdata []
      = nth (Z.to_nat (nth k cortJulia 0%Z)) (repeat [Fin 1; Fin 2] 68) [] /\
      nth k coords []
      = nth (Z.to_nat (nth k cortJulia 0%Z))
            (repeat [Fin 0; Fin 0; Fin 0] 68) [].
Proof.
  apply (meg_data_cortical_order (repeat [Fin 1; Fin 2] 68)
                                 (repeat [Fin 0; Fin 0; Fin 0] 68));
    rewrite repeat_length; lia.
Defined.

(** ** Assignment to a block *)

Lemma nth_update {A : Type} (xs : list A) i v k d :
  (i < length xs)%nat ->
  nth k (update xs i v) d = if Nat.eqb k i then v else nth k xs d.
Proof.
  revert i k. induction xs as [|x xs IH]; intros [|i] [|k] H; simpl in *;
    try lia; try reflexivity.
  apply IH. lia.
Qed.

Lemma nth_update_neq {A : Type} (xs : list A) i v k d :
  k <> i -> nth k (update xs i v) d = nth k xs d.
Proof.
  revert i k. induction xs as [|x xs IH]; intros [|i] [|k] H; simpl;
    try reflexivity; try congruence.
  apply IH. congruence.
Qed.

Lemma setitem_nat {A : Type} (xs : list A) k v :
  (k < length xs)%nat -> setitem xs (Z.of_nat k) v = Ok (update xs k v).
Proof. intros H. unfold setitem. now rewrite np_index_nat. Qed.

Lemma scatter_length {A : Type} (row : list A) ci vals :
  length (scatter row ci vals) = length row.
Proof.
  unfold scatter. revert row vals.
  induction ci as [|c ci IH]; intros row [|v vals]; cbn [combine fold_left];
    try reflexivity.
  rewrite IH. apply update_length.
Qed.

Lemma set_row_nat {A : Type} (row : list A) ci vals :
  Forall (fun c => (c < length row)%nat) ci ->
  set_row row (map Z.of_nat ci) vals = Ok (scatter row ci vals).
Proof.
  unfold set_row, scatter. intros H. revert row vals H.
  induction ci as [|c ci IH]; intros row [|v vals] H;
    cbn [map combine foldM fold_left]; try reflexivity.
  inversion H as [|? ? Hc Hci]; subst. cbn [fst snd].
  rewrite (setitem_nat _ _ _ Hc). cbn [bind]. apply IH.
  now rewrite update_length.
Qed.

Lemma scatter_miss {A : Type} (row : list A) ci vals k d :
  ~ In k ci -> nth k (scatter row ci vals) d = nth k row d.
Proof.
  unfold scatter. revert row vals.
  induction ci as [|c ci IH]; intros row [|v vals] H;
    cbn [combine fold_left]; try reflexivity.
  rewrite IH by (intros Hin; apply H; now right).
  apply nth_update_neq. intros ->. apply H. now left.
Qed.

Lemma scatter_hit {A : Type} (row : list A) ci vals b d :
  NoDup ci -> Forall (fun c => (c < length row)%nat) ci ->
  length vals = length ci -> (b < length ci)%nat ->
  nth (nth b ci 0%nat) (scatter row ci vals) d = nth b vals d.
Proof.
  intros Hnd. revert row vals b.
  induction Hnd as [|c ci Hc Hnd IH]; intros row vals b Hr Hl Hb;
    [simpl in Hb; lia|].
  destruct vals as [|v vals]; [discriminate|].
  inversion Hr as [|? ? Hc0 Hr']; subst.
  change (scatter row (c :: ci) (v :: vals))
    with (scatter (update row c v) ci vals).
  destruct b as [|b]; cbn [nth].
  - rewrite (scatter_miss _ _ _ _ _ Hc), nth_update by exact Hc0.
    now rewrite Nat.eqb_refl.
  - apply IH.
    + now rewrite update_length.
    + simpl in Hl. lia.
    + simpl in Hb. lia.
Qed.

Lemma shape_update {A : Type} n m (M : list (list A)) r row :
  shape n m M -> length row = m -> shape n m (update M r row).
Proof.
  intros [Hn Hr] Hrow. split; [now rewrite update_length|].
  now apply update_Forall.
Qed.

Lemma shape_scatter2 {A : Type} n m (M : list (list A)) ri ci B :
  shape n m M -> Forall (fun r => (r < n)%nat) ri ->
  shape n m (scatter2 M ri ci B).
Proof.
  unfold scatter2. intros HM Hri. revert M B HM.
  induction Hri as [|r ri Hr _ IH]; intros M [|brow B] HM;
    cbn [combine fold_left]; try exact HM.
  apply IH. cbn [fst snd]. apply shape_update; [exact HM|].
  rewrite scatter_length. now apply (shape_nth_row n m).
Qed.

Lemma set_block_nat {A : Type} n m (M : list (list A)) ri ci B :
  shape n m M -> Forall (fun r => (r < n)%nat) ri ->
  Forall (fun c => (c < m)%nat) ci ->
  set_block M (map Z.of_nat ri) (map Z.of_nat ci) B
  = Ok (scatter2 M ri ci B).
Proof.
  unfold set_block, scatter2. intros HM Hri Hci. revert M B HM.
  induction Hri as [|r ri Hr _ IH]; intros M [|brow B] HM;
    cbn [map combine foldM fold_left]; try reflexivity.
  cbn [fst snd].
  assert (Hlen : length M = n) by now destruct HM.
  rewrite (getitem_nat _ _ []) by lia. cbn [bind].
  pose proof (shape_nth_row n m M r HM Hr) as Hrow.
  rewrite set_row_nat by now rewrite Hrow. cbn [bind].
  rewrite setitem_nat by lia. cbn [bind].
  apply IH. apply shape_update; [exact HM|].
  now rewrite scatter_length.
Qed.

Lemma scatter2_miss_row {A : Type} (M : list (list A)) ri ci B i :
  ~ In i ri -> nth i (scatter2 M ri ci B) [] = nth i M [].
Proof.
  unfold scatter2. revert M B.
  induction ri as [|r ri IH]; intros M [|brow B] H;
    cbn [combine fold_left]; try reflexivity.
  rewrite IH by (intros Hin; apply H; now right).
  apply nth_update_neq. intros ->. apply H. now left.
Qed.

Lemma scatter2_row {A : Type} (M : list (list A)) ri ci B a :
  NoDup ri -> Forall (fun r => (r < length M)%nat) ri ->
  length B = length ri -> (a < length ri)%nat ->
  nth (nth a ri 0%nat) (scatter2 M ri ci B) []
  = scatter (nth (nth a ri 0%nat) M []) ci (nth a B []).
Proof.
  intros Hnd. revert M B a.
  induction Hnd as [|r ri Hr Hnd IH]; intros M B a HM Hl Ha;
    [simpl in Ha; lia|].
  destruct B as [|brow B]; [discriminate|].
  inversion HM as [|? ? Hr0 HM']; subst.
  change (scatter2 M (r :: ri) ci (brow :: B))
    with (scatter2 (update M r (scatter (nth r M []) ci brow)) ri ci B).
  destruct a as [|a]; cbn [nth].
  - rewrite (scatter2_miss_row _ _ _ _ _ Hr), nth_update by exact Hr0.
    now rewrite Nat.eqb_refl.
  - rewrite IH.
    + rewrite nth_update_neq; [reflexivity|].
      intros E. apply Hr. rewrite <- E. apply nth_In. simpl in Ha. lia.
    + now rewrite update_length.
    + simpl in Hl. lia.
    + simpl in Ha. lia.
Qed.

Lemma scatter2_entry_miss (M : mat) ri ci B i k :
  NoDup ri -> Forall (fun r => (r < length M)%nat) ri ->
  length B = length ri -> ~ In i ri \/ ~ In k ci ->
  entry (scatter2 M ri ci B) i k = entry M i k.
Proof.
  intros Hnd HM Hl H. unfold entry.
  destruct (in_dec Nat.eq_dec i ri) as [Hin|Hn].
  - destruct H as [H|H]; [contradiction|].
    destruct (In_nth _ _ 0%nat Hin) as [a [Ha <-]].
    rewrite scatter2_row by assumption. now apply scatter_miss.
  - now rewrite scatter2_miss_row.
Qed.

Lemma scatter2_entry_hit n m p q (M : mat) ri ci B a b :
  NoDup ri -> NoDup ci -> shape n m M ->
  Forall (fun r => (r < n)%nat) ri -> Forall (fun c => (c < m)%nat) ci ->
  length ri = p -> length ci = q -> shape p q B ->
  (a < p)%nat -> (b < q)%nat ->
  entry (scatter2 M ri ci B) (nth a ri 0%nat) (nth b ci 0%nat)
  = nth b (nth a B []) zero.
Proof.
  intros Hr Hc HM Hri Hci Hp Hq HB Ha Hb. unfold entry. subst p q.
  assert (Hn : length M = n) by now destruct HM.
  rewrite scatter2_row; try assumption.
  - apply scatter_hit; try assumption.
    + rewrite (shape_nth_row n m); [exact Hci | exact HM|].
      rewrite Forall_forall in Hri. apply Hri, nth_In, Ha.
    + now apply (shape_nth_row (length ri) (length ci)).
  - now rewrite Hn.
  - now destruct HB.
Qed.

Lemma block_nat {A : Type} (d : A) n m (M : list (list A)) ri ci :
  shape n m M -> Forall (fun i => (i < n)%nat) ri ->
  Forall (fun k => (k < m)%nat) ci ->
  block M (map Z.of_nat ri) (map Z.of_nat ci)
  = Ok (map (fun i => map (fun k => nth k (nth i M []) d) ci) ri).
Proof.
  intros [Hn Hr] Hri Hci. unfold block.
  rewrite (take_nat []) by now rewrite Hn. cbn [bind].
  rewrite (take_cols_nat d m); [now rewrite map_map| |exact Hci].
  apply Forall_map, Forall_forall. intros i Hi.
  rewrite Forall_forall in Hri, Hr. apply Hr, nth_In.
  rewrite Hn. now apply Hri.
Qed.

Lemma shape_block_value (C : mat) (ri ci : list nat) :
  shape (length ri) (length ci)
        (map (fun i => map (fun k => nth k (nth i C []) zero) ci) ri).
Proof.
  split; [now rewrite length_map|].
  apply Forall_map, Forall_forall. intros i _. now rewrite length_map.
Qed.

Lemma max_blocks_entry (C : mat) r1 c1 r2 c2 a b :
  length r1 = length r2 -> length c1 = length c2 ->
  (a < length r1)%nat -> (b < length c1)%nat ->
  nth b (nth a (mmap2 F64.max
                  (map (fun i => map (fun k => nth k (nth i C []) zero) c1) r1)
                  (map (fun i => map (fun k => nth k (nth i C []) zero) c2) r2))
            []) zero
  = F64.max (entry C (nth a r1 0%nat) (nth b c1 0%nat))
            (entry C (nth a r2 0%nat) (nth b c2 0%nat)).
Proof.
  intros Hr Hc Ha Hb. unfold mmap2, entry.
  rewrite (nth_map2 _ _ _ _ [] []) by (rewrite length_map; lia).
  rewrite !(nth_map' _ _ _ 0%nat) by lia.
  rewrite (nth_map2 _ _ _ _ zero zero) by (rewrite length_map; lia).
  now rewrite !(nth_map' _ _ _ 0%nat) by lia.
Qed.

(** ** [bi_symmetric_c] *)

Lemma bi_symmetric_c_nat n (C : mat) l r :
  shape n n C -> length l = length r ->
  Forall (fun i => (i < n)%nat) l -> Forall (fun i => (i < n)%nat) r ->
  bi_symmetric_c C (map Z.of_nat l) (map Z.of_nat r)
  = Ok (symmetrized C l r).
Proof.
  intros HC Hlen Hl Hr. unfold bi_symmetric_c.
  rewrite (block_nat zero n n C l l HC Hl Hl). cbn [bind].
  rewrite (block_nat zero n n C r r HC Hr Hr). cbn [bind].
  rewrite (block_nat zero n n C l r HC Hl Hr). cbn [bind].
  rewrite (block_nat zero n n C r l HC Hr Hl). cbn [bind].
  rewrite !length_map, Hlen, Nat.eqb_refl. cbn [negb].
  rewrite (set_block_nat n n) by assumption. cbn [bind].
  rewrite (set_block_nat n n);
    [|apply shape_scatter2; assumption|assumption|assumption].
  cbn [bind].
  rewrite (set_block_nat n n);
    [|repeat apply shape_scatter2; assumption|assumption|assumption].
  cbn [bind].
  rewrite (set_block_nat n n);
    [|repeat apply shape_scatter2; assumption|assumption|assumption].
  reflexivity.
Qed.

Lemma NoDup_app_parts {A : Type} (l r : list A) :
  NoDup (l ++ r) ->
  NoDup l /\ NoDup r /\ (forall x, In x l -> ~ In x r).
Proof.
  intros H. split; [now apply NoDup_app_remove_r in H|].
  split; [now apply NoDup_app_remove_l in H|].
  induction l as [|y l IH]; intros x Hx; [contradiction|].
  cbn [app] in H. inversion H as [|? ? Hy Hnd]; subst.
  destruct Hx as [->|Hx].
  - intros Hr. apply Hy, in_or_app. now right.
  - now apply IH.
Qed.

Lemma symmetrized_entries n (C : mat) l r :
  shape n n C -> length l = length r -> NoDup (l ++ r) ->
  Forall (fun i => (i < n)%nat) (l ++ r) ->
  shape n n (symmetrized C l r) /\
  (forall a b, (a < length l)%nat -> (b < length l)%nat ->
     entry (symmetrized C l r) (nth a l 0%nat) (nth b l 0%nat)
     = F64.max (entry C (nth a l 0%nat) (nth b l 0%nat))
               (entry C (nth a r 0%nat) (nth b r 0%nat)) /\
     entry (symmetrized C l r) (nth a r 0%nat) (nth b r 0%nat)
     = F64.max (entry C (nth a l 0%nat) (nth b l 0%nat))
               (entry C (nth a r 0%nat) (nth b r 0%nat)) /\
     entry (symmetrized C l r) (nth a l 0%nat) (nth b r 0%nat)
     = F64.max (entry C (nth a l 0%nat) (nth b r 0%nat))
               (entry C (nth a r 0%nat) (nth b l 0%nat)) /\
     entry (symmetrized C l r) (nth a r 0%nat) (nth b l 0%nat)
     = F64.max (entry C (nth a l 0%nat) (nth b r 0%nat))
               (entry C (nth a r 0%nat) (nth b l 0%nat))) /\
  (forall i k, ~ In i (l ++ r) \/ ~ In k (l ++ r) ->
     entry (symmetrized C l r) i k = entry C i k).
Proof.
  intros HC Hlen Hnd Hin.
  destruct (NoDup_app_parts _ _ Hnd) as (Hl & Hr & Hdis).
  apply Forall_app in Hin. destruct Hin as [Fl Fr].
  pose (sub := fun ri ci : list nat =>
                 map (fun i => map (fun k => nth k (nth i C []) zero) ci) ri).
  pose (q := mmap2 F64.max (sub l l) (sub r r)).
  pose (q1 := mmap2 F64.max (sub l r) (sub r l)).
  pose (C1 := scatter2 C l l q).
  pose (C2 := scatter2 C1 r r q).
  pose (C3 := scatter2 C2 l r q1).
  change (symmetrized C l r) with (scatter2 C3 r l q1).
  pose (m := length l).
  assert (Hm : length r = m) by (subst m; lia).
  assert (S1 : shape n n C1) by now apply shape_scatter2.
  assert (S2 : shape n n C2) by now apply shape_scatter2.
  assert (S3 : shape n n C3) by now apply shape_scatter2.
  assert (Sq : shape m m q).
  { apply shape_mmap2.
    - apply (shape_block_value C l l).
    - rewrite <- Hm. apply (shape_block_value C r r). }
  assert (Sq1 : shape m m q1).
  { apply shape_mmap2.
    - rewrite <- Hm at 2. apply (shape_block_value C l r).
    - rewrite <- Hm at 1. apply (shape_block_value C r l). }
  assert (Lq : length q = length l) by now destruct Sq.
  assert (Lq' : length q = length r) by (rewrite Hm; now destruct Sq).
  assert (Lq1 : length q1 = length l) by now destruct Sq1.
  assert (Lq1' : length q1 = length r) by (rewrite Hm; now destruct Sq1).
  assert (F0 : Forall (fun i => (i < length C)%nat) l)
    by (destruct HC as [-> _]; exact Fl).
  assert (F1 : Forall (fun i => (i < length C1)%nat) r)
    by (destruct S1 as [-> _]; exact Fr).
  assert (F2 : Forall (fun i => (i < length C2)%nat) l)
    by (destruct S2 as [-> _]; exact Fl).
  assert (F3 : Forall (fun i => (i < length C3)%nat) r)
    by (destruct S3 as [-> _]; exact Fr).
  assert (Hdis' : forall x, In x r -> ~ In x l).
  { intros x Hx Hx'. exact (Hdis x Hx' Hx). }
  split; [now apply shape_scatter2|]. split.
  - intros a b Ha Hb.
    assert (Ia : In (nth a l 0%nat) l) by now apply nth_In.
    assert (Ib : In (nth b l 0%nat) l) by now apply nth_In.
    assert (Ja : In (nth a r 0%nat) r) by (apply nth_In; lia).
    assert (Jb : In (nth b r 0%nat) r) by (apply nth_In; lia).
    repeat split.
    + rewrite (scatter2_entry_miss C3 r l q1 _ _ Hr F3 Lq1'
                 (or_introl (Hdis _ Ia))).
      unfold C3.
      rewrite (scatter2_entry_miss C2 l r q1 _ _ Hl F2 Lq1
                 (or_intror (Hdis _ Ib))).
      unfold C2.
      rewrite (scatter2_entry_miss C1 r r q _ _ Hr F1 Lq'
                 (or_introl (Hdis _ Ia))).
      unfold C1.
      rewrite (scatter2_entry_hit n n m m C l l q a b Hl Hl HC Fl Fl
                 eq_refl eq_refl Sq Ha Hb).
      unfold q, sub. apply max_blocks_entry; lia.
    + rewrite (scatter2_entry_miss C3 r l q1 _ _ Hr F3 Lq1'
                 (or_intror (Hdis' _ Jb))).
      unfold C3.
      rewrite (scatter2_entry_miss C2 l r q1 _ _ Hl F2 Lq1
                 (or_introl (Hdis' _ Ja))).
      unfold C2.
      rewrite (scatter2_entry_hit n n m m C1 r r q a b Hr Hr S1 Fr Fr
                 Hm Hm Sq Ha Hb).
      unfold q, sub. apply max_blocks_entry; lia.
    + rewrite (scatter2_entry_miss C3 r l q1 _ _ Hr F3 Lq1'
                 (or_introl (Hdis _ Ia))).
      unfold C3.
      rewrite (scatter2_entry_hit n n m m C2 l r q1 a b Hl Hr S2 Fl Fr
                 eq_refl Hm Sq1 Ha Hb).
      unfold q1, sub. apply max_blocks_entry; lia.
    + rewrite (scatter2_entry_hit n n m m C3 r l q1 a b Hr Hl S3 Fr Fl
                 Hm eq_refl Sq1 Ha Hb).
      unfold q1, sub. apply max_blocks_entry; lia.
  - intros i k H.
    assert (Hil : ~ In i l \/ ~ In k l).
    { destruct H as [H|H]; [left|right]; intros Hx; apply H, in_or_app;
        now left. }
    assert (Hir : ~ In i r \/ ~ In k r).
    { destruct H as [H|H]; [left|right]; intros Hx; apply H, in_or_app;
        now right. }
    assert (Hlr : ~ In i l \/ ~ In k r).
    { destruct H as [H|H]; [left|right]; intros Hx; apply H, in_or_app;
        [now left | now right]. }
    assert (Hrl : ~ In i r \/ ~ In k l).
    { destruct H as [H|H]; [left|right]; intros Hx; apply H, in_or_app;
        [now right | now left]. }
    rewrite (scatter2_entry_miss C3 r l q1 _ _ Hr F3 Lq1' Hrl). unfold C3.
    rewrite (scatter2_entry_miss C2 l r q1 _ _ Hl F2 Lq1 Hlr). unfold C2.
    rewrite (scatter2_entry_miss C1 r r q _ _ Hr F1 Lq' Hir). unfold C1.
    exact (scatter2_entry_miss C l l q _ _ Hl F0 Lq Hil).
Qed.

Lemma block_cases (l r : list nat) (P : nat -> nat -> Prop) :
  length l = length r ->
  (forall a b, (a < length l)%nat -> (b < length l)%nat ->
     P (nth a l 0%nat) (nth b l 0%nat) /\ P (nth a r 0%nat) (nth b r 0%nat) /\
     P (nth a l 0%nat) (nth b r 0%nat) /\ P (nth a r 0%nat) (nth b l 0%nat)) ->
  (forall i k, ~ In i (l ++ r) \/ ~ In k (l ++ r) -> P i k) ->
  forall i k, P i k.
Proof.
  intros Hlen Hin Hout i k.
  destruct (in_dec Nat.eq_dec i (l ++ r)) as [Hi|Hi]; [|now apply Hout; left].
  destruct (in_dec Nat.eq_dec k (l ++ r)) as [Hk|Hk]; [|now apply Hout; right].
  apply in_app_or in Hi. apply in_app_or in Hk.
  destruct Hi as [Hi|Hi]; destruct (In_nth _ _ 0%nat Hi) as [a [Ha <-]];
    destruct Hk as [Hk|Hk]; destruct (In_nth _ _ 0%nat Hk) as [b [Hb <-]];
    apply Hin; lia.
Qed.

Lemma max_idem x : F64.max x x = x.
Proof.
  destruct x as [a| | |]; try reflexivity.
  unfold F64.max, ltb. now destruct (Rlt_dec a a).
Qed.

Lemma max_comm x y : F64.max x y = F64.max y x.
Proof.
  destruct x as [a| | |], y as [b| | |]; try reflexivity.
  unfold F64.max, ltb.
  destruct (Rlt_dec a b), (Rlt_dec b a); try reflexivity; f_equal; lra.
Qed.

Lemma mat_ext n m (A B : mat) :
  shape n m A -> shape n m B ->
  (forall i k, (i < n)%nat -> (k < m)%nat -> entry A i k = entry B i k) ->
  A = B.
Proof.
  intros HA HB H.
  assert (LA : length A = n) by now destruct HA.
  assert (LB : length B = n) by now destruct HB.
  apply (nth_ext _ _ [] []); [lia|].
  intros i Hi. rewrite LA in Hi.
  pose proof (shape_nth_row n m A i HA Hi) as RA.
  pose proof (shape_nth_row n m B i HB Hi) as RB.
  apply (nth_ext _ _ zero zero); [lia|].
  intros k Hk. rewrite RA in Hk. now apply H.
Qed.

(** X15: for a square matrix and two index arrays of the same length that
    are in range, duplicate-free and disjoint, [bi_symmetric_c] returns a
    matrix of the same shape in which the left-left block equals the
    right-right block, both being the entrywise maximum of the two
    original blocks, and the left-right block equals the right-left block
    in the same way; entries outside the four blocks are unchanged. *)
Theorem bi_symmetric_c_blocks n (C : mat) l r :
  shape n n C -> length l = length r -> NoDup (l ++ r) ->
  Forall (fun i => (i < n)%nat) (l ++ r) ->
  exists C',
    bi_symmetric_c C (map Z.of_nat l) (map Z.of_nat r) = Ok C' /\
    shape n n C' /\
    (forall a b, (a < length l)%nat -> (b < length l)%nat ->
       entry C' (nth a l 0%nat) (nth b l 0%nat)
       = F64.max (entry C (nth a l 0%nat) (nth b l 0%nat))
                 (entry C (nth a r 0%nat) (nth b r 0%nat)) /\
       entry C' (nth a r 0%nat) (nth b r 0%nat)
       = entry C' (nth a l 0%nat) (nth b l 0%nat) /\
       entry C' (nth a l 0%nat) (nth b r 0%nat)
       = F64.max (entry C (nth a l 0%nat) (nth b r 0%nat))
                 (entry C (nth a r 0%nat) (nth b l 0%nat)) /\
       entry C' (nth a r 0%nat) (nth b l 0%nat)
       = entry C' (nth a l 0%nat) (nth b r 0%nat)) /\
    (forall i k, ~ In i (l ++ r) \/ ~ In k (l ++ r) ->
       entry C' i k = entry C i k).
Proof.
  intros HC Hlen Hnd Hin.
  destruct (symmetrized_entries n C l r HC Hlen Hnd Hin) as (HS & Hb & Ho).
  exists (symmetrized C l r). split.
  - apply Forall_app in Hin. destruct Hin as [Fl Fr].
    now apply (bi_symmetric_c_nat n).
  - split; [exact HS|]. split; [|exact Ho].
    intros a b Ha Hb'. destruct (Hb a b Ha Hb') as (E1 & E2 & E3 & E4).
    repeat split; congruence.
Qed.

Lemma toy_blocks :
  shape 4 4 toy_C /\ length [0; 1]%nat = length [2; 3]%nat /\
  NoDup ([0; 1] ++ [2; 3])%nat /\
  Forall (fun i => (i < 4)%nat) ([0; 1] ++ [2; 3])%nat.
Proof.
  split; [exact shape_toy_C|]. split; [reflexivity|]. split.
  - repeat constructor; simpl; intuition lia.
  - repeat constructor.
Qed.

Lemma bi_symmetric_c_blocks_witness :
  exists C',
    bi_symmetric_c toy_C (map Z.of_nat [0; 1]%nat) (map Z.of_nat [2; 3]%nat)
    = Ok C' /\
    shape 4 4 C' /\
    (forall a b, (a < length [0; 1]%nat)%nat -> (b < length [0; 1]%nat)%nat ->
       entry C' (nth a [0; 1]%nat 0%nat) (nth b [0; 1]%nat 0%nat)
       = F64.max (entry toy_C (nth a [0; 1]%nat 0%nat) (nth b [0; 1]%nat 0%nat))
                 (entry toy_C (nth a [2; 3]%nat 0%nat) (nth b [2; 3]%nat 0%nat))
       /\
       entry C' (nth a [2; 3]%nat 0%nat) (nth b [2; 3]%nat 0%nat)
       = entry C' (nth a [0; 1]%nat 0%nat) (nth b [0; 1]%nat 0%nat) /\
       entry C' (nth a [0; 1]%nat 0%nat) (nth b [2; 3]%nat 0%nat)
       = F64.max (entry toy_C (nth a [0; 1]%nat 0%nat) (nth b [2; 3]%nat 0%nat))
                 (entry toy_C (nth a [2; 3]%nat 0%nat) (nth b [0; 1]%nat 0%nat))
       /\
       entry C' (nth a [2; 3]%nat 0%nat) (nth b [0; 1]%nat 0%nat)
       = entry C' (nth a [0; 1]%nat 0%nat) (nth b [2; 3]%nat 0%nat)) /\
    (forall i k, ~ In i ([0; 1] ++ [2; 3])%nat \/ ~ In k ([0; 1] ++ [2; 3])%nat ->
       entry C' i k = entry toy_C i k).
Proof.
  apply (bi_symmetric_c_blocks 4 toy_C [0; 1]%nat [2; 3]%nat).
  - exact (proj1 toy_blocks).
  - exact (proj1 (proj2 toy_blocks)).
  - exact (proj1 (proj2 (proj2 toy_blocks))).
  - exact (proj2 (proj2 (proj2 toy_blocks))).
Defined.

Lemma bi_symmetric_c_value n (C : mat) l r C' :
  shape n n C -> length l = length r ->
  Forall (fun i => (i < n)%nat) (l ++ r) ->
  bi_symmetric_c C (map Z.of_nat l) (map Z.of_nat r) = Ok C' ->
  C' = symmetrized C l r.
Proof.
  intros HC Hlen Hin H. apply Forall_app in Hin. destruct Hin as [Fl Fr].
  rewrite (bi_symmetric_c_nat n C l r HC Hlen Fl Fr) in H. congruence.
Qed.

(** X16: [bi_symmetric_c] is idempotent: applied to its own result, with
    the same index arrays (in range, duplicate-free, disjoint, of equal
    length), it returns that result unchanged. *)
Theorem bi_symmetric_c_idempotent n (C : mat) l r C' :
  shape n n C -> length l = length r -> NoDup (l ++ r) ->
  Forall (fun i => (i < n)%nat) (l ++ r) ->
  bi_symmetric_c C (map Z.of_nat l) (map Z.of_nat r) = Ok C' ->
  bi_symmetric_c C' (map Z.of_nat l) (map Z.of_nat r) = Ok C'.
Proof.
  intros HC Hlen Hnd Hin H.
  rewrite (bi_symmetric_c_value n C l r C' HC Hlen Hin H).
  destruct (symmetrized_entries n C l r HC Hlen Hnd Hin) as (HS & Hb & Ho).
  destruct (symmetrized_entries n (symmetrized C l r) l r HS Hlen Hnd Hin)
    as (HS' & Hb' & Ho').
  pose proof Hin as Hin'. apply Forall_app in Hin'. destruct Hin' as [Fl Fr].
  rewrite (bi_symmetric_c_nat n _ l r HS Hlen Fl Fr). f_equal.
  apply (mat_ext n n); [exact HS' | exact HS|].
  intros i k _ _. revert i k.
  apply (block_cases l r); [exact Hlen| |exact Ho'].
  intros a b Ha Hb0.
  destruct (Hb a b Ha Hb0) as (E1 & E2 & E3 & E4).
  destruct (Hb' a b Ha Hb0) as (F1 & F2 & F3 & F4).
  repeat split.
  - rewrite F1, E1, E2. apply max_idem.
  - rewrite F2, E1, E2. apply max_idem.
  - rewrite F3, E3, E4. apply max_idem.
  - rewrite F4, E3, E4. apply max_idem.
Qed.

Lemma bi_symmetric_c_idempotent_witness :
  bi_symmetric_c (symmetrized toy_C [0; 1]%nat [2; 3]%nat)
                 (map Z.of_nat [0; 1]%nat) (map Z.of_nat [2; 3]%nat)
  = Ok (symmetrized toy_C [0; 1]%nat [2; 3]%nat).
Proof.
  apply (bi_symmetric_c_idempotent 4 toy_C [0; 1]%nat [2; 3]%nat).
  - exact (proj1 toy_blocks).
  - exact (proj1 (proj2 toy_blocks)).
  - exact (proj1 (proj2 (proj2 toy_blocks))).
  - exact (proj2 (proj2 (proj2 toy_blocks))).
  - apply (bi_symmetric_c_nat 4); try exact (proj1 toy_blocks);
      try reflexivity; repeat constructor.
Defined.

(** X17: [bi_symmetric_c] keeps a symmetric matrix symmetric. *)
Theorem bi_symmetric_c_symmetric n (C : mat) l r C' :
  shape n n C -> length l = length r -> NoDup (l ++ r) ->
  Forall (fun i => (i < n)%nat) (l ++ r) ->
  symmetric n C ->
  bi_symmetric_c C (map Z.of_nat l) (map Z.of_nat r) = Ok C' ->
  symmetric n C'.
Proof.
  intros HC Hlen Hnd Hin Hsym H.
  rewrite (bi_symmetric_c_value n C l r C' HC Hlen Hin H).
  destruct (symmetrized_entries n C l r HC Hlen Hnd Hin) as (HS & Hb & Ho).
  pose proof Hin as Hin'. apply Forall_app in Hin'. destruct Hin' as [Fl Fr].
  rewrite Forall_forall in Fl, Fr.
  assert (Hs : forall i k, (i < n)%nat -> (k < n)%nat ->
                 entry C i k = entry C k i) by exact Hsym.
  assert (Hgoal : forall i k, (i < n)%nat -> (k < n)%nat ->
            entry (symmetrized C l r) i k = entry (symmetrized C l r) k i).
  { apply (block_cases l r
             (fun i k => (i < n)%nat -> (k < n)%nat ->
                entry (symmetrized C l r) i k
                = entry (symmetrized C l r) k i)); [exact Hlen| |].
    - intros a b Ha Hb0.
      destruct (Hb a b Ha Hb0) as (E1 & E2 & E3 & E4).
      destruct (Hb b a Hb0 Ha) as (G1 & G2 & G3 & G4).
      assert (La : (nth a l 0 < n)%nat) by (apply Fl, nth_In; lia).
      assert (Lb : (nth b l 0 < n)%nat) by (apply Fl, nth_In; lia).
      assert (Ra : (nth a r 0 < n)%nat) by (apply Fr, nth_In; lia).
      assert (Rb : (nth b r 0 < n)%nat) by (apply Fr, nth_In; lia).
      repeat split; intros _ _.
      + rewrite E1, G1, (Hs _ _ La Lb), (Hs _ _ Ra Rb). reflexivity.
      + rewrite E2, G2, (Hs _ _ La Lb), (Hs _ _ Ra Rb). reflexivity.
      + rewrite E3, G4, (Hs _ _ La Rb), (Hs _ _ Ra Lb). apply max_comm.
      + rewrite E4, G3, (Hs _ _ La Rb), (Hs _ _ Ra Lb). apply max_comm.
    - intros i k Hik Hi Hk. rewrite (Ho i k Hik).
      rewrite (Ho k i) by (destruct Hik; [now right | now left]).
      now apply Hs. }
  exact Hgoal.
Qed.

Lemma symmetric_toy_C : symmetric 4 toy_C.
Proof.
  intros i k Hi Hk.
  destruct i as [|[|[|[|i]]]]; try lia;
    destruct k as [|[|[|[|k]]]]; try lia; reflexivity.
Qed.

Lemma bi_symmetric_c_symmetric_witness :
  symmetric 4 (symmetrized toy_C [0; 1]%nat [2; 3]%nat).
Proof.
  apply (bi_symmetric_c_symmetric 4 toy_C [0; 1]%nat [2; 3]%nat).
  - exact (proj1 toy_blocks).
  - exact (proj1 (proj2 toy_blocks)).
  - exact (proj1 (proj2 (proj2 toy_blocks))).
  - exact (proj2 (proj2 (proj2 toy_blocks))).
  - exact symmetric_toy_C.
  - apply (bi_symmetric_c_nat 4); try exact (proj1 toy_blocks);
      try reflexivity; repeat constructor.
Defined.




(** ** [bi_symmetric_c] writes to its argument *)

Lemma nth_error_update_eq {A : Type} (xs : list A) i v :
  (i < length xs)%nat -> nth_error (update xs i v) i = Some v.
Proof.
  revert i. induction xs as [|x xs IH]; intros [|i] H; simpl in *;
    try lia; [reflexivity|]. apply IH. lia.
Qed.

Lemma nth_error_update_neq {A : Type} (xs : list A) i v k :
  k <> i -> nth_error (update xs i v) k = nth_error xs k.
Proof.
  revert i k. induction xs as [|x xs IH]; intros [|i] [|k] H; simpl;
    try reflexivity; try congruence.
  apply IH. congruence.
Qed.

Lemma assign_block_run (h : heap) addr B_at (C B : mat) n ri ci :
  nth_error h addr = Some (Array2 C) ->
  nth_error h B_at = Some (Array2 B) ->
  shape n n C ->
  Forall (fun i => (i < n)%nat) ri -> Forall (fun i => (i < n)%nat) ci ->
  assign_block addr (map Z.of_nat ri) (map Z.of_nat ci) B_at h
  = Ok (tt, update h addr (Array2 (scatter2 C ri ci B))).
Proof.
  intros HC HB HS Hri Hci. unfold assign_block, bindM.
  rewrite (load2_Ok _ _ _ HC), (load2_Ok _ _ _ HB).
  rewrite (set_block_nat n n C ri ci B HS Hri Hci). reflexivity.
Qed.

Lemma assign_four_run (h : heap) addr qa q1a (C q q1 : mat) n l r :
  nth_error h addr = Some (Array2 C) ->
  nth_error h qa = Some (Array2 q) ->
  nth_error h q1a = Some (Array2 q1) ->
  qa <> addr -> q1a <> addr -> shape n n C ->
  Forall (fun i => (i < n)%nat) l -> Forall (fun i => (i < n)%nat) r ->
  (_ <~ assign_block addr (map Z.of_nat l) (map Z.of_nat l) qa ;;
   _ <~ assign_block addr (map Z.of_nat r) (map Z.of_nat r) qa ;;
   _ <~ assign_block addr (map Z.of_nat l) (map Z.of_nat r) q1a ;;
   _ <~ assign_block addr (map Z.of_nat r) (map Z.of_nat l) q1a ;;
   ret addr) h
  = Ok (addr,
        update (update (update (update h addr
          (Array2 (scatter2 C l l q))) addr
          (Array2 (scatter2 (scatter2 C l l q) r r q))) addr
          (Array2 (scatter2 (scatter2 (scatter2 C l l q) r r q) l r q1))) addr
          (Array2 (scatter2 (scatter2 (scatter2 (scatter2 C l l q) r r q)
                                      l r q1) r l q1))).
Proof.
  intros HC Hq Hq1 Nq Nq1 HS Fl Fr.
  assert (Haddr : (addr < length h)%nat)
    by (apply nth_error_Some; congruence).
  assert (Step : forall (g : heap) (X : mat),
            (addr < length g)%nat ->
            nth_error g qa = Some (Array2 q) ->
            nth_error g q1a = Some (Array2 q1) ->
            (addr < length (update g addr (Array2 X)))%nat /\
            nth_error (update g addr (Array2 X)) addr = Some (Array2 X) /\
            nth_error (update g addr (Array2 X)) qa = Some (Array2 q) /\
            nth_error (update g addr (Array2 X)) q1a = Some (Array2 q1)).
  { intros g X Hg Gq Gq1. split; [now rewrite update_length|].
    split; [now apply nth_error_update_eq|].
    split; rewrite nth_error_update_neq; assumption. }
  unfold bindM at 1.
  rewrite (assign_block_run h addr qa C q n l l HC Hq HS Fl Fl).
  destruct (Step h (scatter2 C l l q) Haddr Hq Hq1) as (A1 & B1 & Q1 & R1).
  pose proof (shape_scatter2 n n C l l q HS Fl) as S1.
  unfold bindM at 1.
  rewrite (assign_block_run _ addr qa _ q n r r B1 Q1 S1 Fr Fr).
  destruct (Step _ (scatter2 (scatter2 C l l q) r r q) A1 Q1 R1)
    as (A2 & B2 & Q2 & R2).
  pose proof (shape_scatter2 n n _ r r q S1 Fr) as S2.
  unfold bindM at 1.
  rewrite (assign_block_run _ addr q1a _ q1 n l r B2 R2 S2 Fl Fr).
  destruct (Step _ (scatter2 (scatter2 (scatter2 C l l q) r r q) l r q1)
              A2 Q2 R2) as (A3 & B3 & Q3 & R3).
  pose proof (shape_scatter2 n n _ l r q1 S2 Fl) as S3.
  unfold bindM at 1.
  rewrite (assign_block_run _ addr q1a _ q1 n r l B3 R3 S3 Fr Fl).
  reflexivity.
Qed.

(** X19: [bi_symmetric_c] works in place.  Called on the address of a
    square matrix, with index arrays of equal length that are in range,
    it returns that same address; the array stored there is now the
    result, so the caller's matrix is overwritten; every other array that
    existed before the call is untouched. *)
Theorem bi_symmetric_c_in_place n (C : mat) l r (h : heap) addr :
  shape n n C -> length l = length r ->
  Forall (fun i => (i < n)%nat) (l ++ r) ->
  nth_error h addr = Some (Array2 C) ->
  exists C' h',
    bi_symmetric_c C (map Z.of_nat l) (map Z.of_nat r) = Ok C' /\
    bi_symmetric_c_st addr (map Z.of_nat l) (map Z.of_nat r) h
    = Ok (addr, h') /\
    nth_error h' addr = Some (Array2 C') /\
    forall a, a <> addr -> (a < length h)%nat ->
      nth_error h' a = nth_error h a.
Proof.
  intros HC Hlen Hin Hh.
  pose proof Hin as Hin'. apply Forall_app in Hin'. destruct Hin' as [Fl Fr].
  assert (Haddr : (addr < length h)%nat)
    by (apply nth_error_Some; congruence).
  exists (symmetrized C l r). eexists.
  split; [now apply (bi_symmetric_c_nat n)|]. split; [|split].
  - unfold bi_symmetric_c_st, bindM at 1.
    rewrite (load2_Ok _ _ _ Hh).
    unfold bindM at 1, lift at 1.
    rewrite (block_nat zero n n C l l HC Fl Fl).
    unfold bindM at 1, lift at 1.
    rewrite (block_nat zero n n C r r HC Fr Fr).
    unfold bindM at 1, lift at 1.
    rewrite (block_nat zero n n C l r HC Fl Fr).
    unfold bindM at 1, lift at 1.
    rewrite (block_nat zero n n C r l HC Fr Fl).
    unfold bindM at 1, lift at 1.
    rewrite !length_map, Hlen, Nat.eqb_refl. cbn [negb].
    unfold bindM at 1, alloc at 1. unfold bindM at 1, alloc at 1.
    eapply assign_four_run with (n := n) (C := C).
    + apply nth_error_ext, nth_error_ext. exact Hh.
    + apply nth_error_ext, nth_error_here.
    + apply nth_error_here.
    + lia.
    + rewrite length_app. simpl. lia.
    + exact HC.
    + exact Fl.
    + exact Fr.
  - apply nth_error_update_eq. rewrite !update_length, !length_app. lia.
  - intros a Ha Hlt. rewrite !nth_error_update_neq by exact Ha.
    rewrite !nth_error_app1; try reflexivity; try exact Hlt.
    rewrite length_app. lia.
Qed.

Lemma bi_symmetric_c_in_place_witness :
  exists C' h',
    bi_symmetric_c toy_C (map Z.of_nat [0; 1]%nat) (map Z.of_nat [2; 3]%nat)
    = Ok C' /\
    bi_symmetric_c_st 1 (map Z.of_nat [0; 1]%nat) (map Z.of_nat [2; 3]%nat)
                      [Array1 unit_lpf; Array2 toy_C]
    = Ok (1%nat, h') /\
    nth_error h' 1 = Some (Array2 C') /\
    forall a, a <> 1%nat -> (a < length [Array1 unit_lpf; Array2 toy_C])%nat ->
      nth_error h' a = nth_error [Array1 unit_lpf; Array2 toy_C] a.
Proof.
  apply (bi_symmetric_c_in_place 4 toy_C [0; 1]%nat [2; 3]%nat
           [Array1 unit_lpf; Array2 toy_C] 1).
  - exact (proj1 toy_blocks).
  - exact (proj1 (proj2 toy_blocks)).
  - exact (proj2 (proj2 (proj2 toy_blocks))).
  - reflexivity.
Defined.

(** ** [down_sample_basic] *)

Lemma range_nat n : range (Z.of_nat n) = map Z.of_nat (seq 0 n).
Proof. unfold range. now rewrite Nat2Z.id. Qed.

Lemma down_sample_basic_pos dataarray n :
  (0 < n)%nat ->
  down_sample_basic dataarray (Z.of_nat n)
  = numpy (traverse (fun i => getitem dataarray
                                (Z.of_nat (i * (length dataarray / n))))
                    (seq 0 n)).
Proof.
  intros Hn. unfold down_sample_basic.
  replace (Z.of_nat n =? 0)%Z with false by (symmetry; apply Z.eqb_neq; lia).
  replace (Z.of_nat n <? 0)%Z with false by (symmetry; apply Z.ltb_ge; lia).
  rewrite range_nat, traverse_map. f_equal.
  induction (seq 0 n) as [|i t IH]; [reflexivity|].
  cbn [traverse]. rewrite IH. f_equal.
  rewrite Nat2Z.inj_mul, Nat2Z.inj_div. reflexivity.
Qed.

(** X20: asked for [n] points with [1 <= n <= len(dataarray)],
    [down_sample_basic] never raises and returns exactly [n] points, the
    samples at the positions [0, step, 2*step, ...] with
    [step = len(dataarray) // n]; for [n = len(dataarray)] it returns the
    data unchanged. *)
Theorem down_sample_basic_samples dataarray n :
  (1 <= n <= length dataarray)%nat ->
  exists output,
    down_sample_basic dataarray (Z.of_nat n) = Returns output /\
    length output = n /\
    (forall i, (i < n)%nat ->
       nth i output zero = nth (i * (length dataarray / n)) dataarray zero) /\
    (n = length dataarray -> output = dataarray).
Proof.
  intros Hn.
  set (step := (length dataarray / n)%nat).
  assert (Hstep : (n * step <= length dataarray)%nat)
    by (subst step; apply Nat.Div0.mul_div_le).
  assert (Hpos : (1 <= step)%nat)
    by (subst step; apply Nat.div_le_lower_bound; lia).
  exists (map (fun i => nth (i * step) dataarray zero) (seq 0 n)).
  split.
  - rewrite down_sample_basic_pos by lia. fold step.
    rewrite (traverse_total _ (fun i => nth (i * step) dataarray zero));
      [reflexivity|].
    apply Forall_forall. intros i Hi. apply in_seq in Hi.
    apply getitem_nat. nia.
  - split; [now rewrite length_map, length_seq|]. split.
    + intros i Hi. rewrite (nth_map' _ _ _ 0%nat) by now rewrite length_seq.
      now rewrite seq_nth.
    + intros E. assert (Es : step = 1%nat).
      { subst step. rewrite E. apply Nat.div_same. lia. }
      rewrite Es, E. apply (nth_ext _ _ zero zero).
      * now rewrite length_map, length_seq.
      * intros i Hi. rewrite length_map, length_seq in Hi.
        rewrite (nth_map' _ _ _ 0%nat) by now rewrite length_seq.
        rewrite seq_nth by exact Hi. f_equal. lia.
Qed.

Lemma down_sample_basic_samples_witness :
  exists output,
    down_sample_basic [Fin 1; Fin 2; Fin 3; Fin 4; Fin 5] (Z.of_nat 2)
    = Returns output /\
    length output = 2%nat /\
    (forall i, (i < 2)%nat ->
       nth i output zero
       = nth (i * (length [Fin 1; Fin 2; Fin 3; Fin 4; Fin 5] / 2))
             [Fin 1; Fin 2; Fin 3; Fin 4; Fin 5] zero) /\
    (2%nat = length [Fin 1; Fin 2; Fin 3; Fin 4; Fin 5] ->
     output = [Fin 1; Fin 2; Fin 3; Fin 4; Fin 5]).
Proof.
  apply (down_sample_basic_samples [Fin 1; Fin 2; Fin 3; Fin 4; Fin 5] 2).
  simpl. lia.
Defined.

Lemma map_const_repeat {A B : Type} (x : B) (xs : list A) :
  map (fun _ => x) xs = repeat x (length xs).
Proof. induction xs as [|y xs IH]; simpl; [reflexivity | now rewrite IH]. Qed.

(** X21: asked for more points than the data has, [down_sample_basic]
    does not raise: the step is 0 and every output point is the first
    sample. *)
Theorem down_sample_basic_too_many dataarray n :
  (0 < length dataarray)%nat -> (length dataarray < n)%nat ->
  down_sample_basic dataarray (Z.of_nat n)
  = Returns (repeat (nth 0 dataarray zero) n).
Proof.
  intros Hd Hn. rewrite down_sample_basic_pos by lia.
  rewrite Nat.div_small by exact Hn.
  rewrite (traverse_total _ (fun _ => nth 0 dataarray zero)).
  - cbn [numpy]. now rewrite map_const_repeat, length_seq.
  - apply Forall_forall. intros i _. rewrite Nat.mul_0_r.
    now apply getitem_nat.
Qed.

Lemma down_sample_basic_too_many_witness :
  down_sample_basic [Fin 7; Fin 8] (Z.of_nat 3)
  = Returns (repeat (nth 0 [Fin 7; Fin 8] zero) 3).
Proof.
  apply (down_sample_basic_too_many [Fin 7; Fin 8] 3); simpl; lia.
Defined.

(** X22: the errors of [down_sample_basic]: zero points requested raise
    [ZeroDivisionError], a negative number of points raises [ValueError]
    (from [np.empty]), and empty data with a positive number of points
    raises [IndexError]. *)
Theorem down_sample_basic_errors dataarray p :
  down_sample_basic dataarray 0 = Raises ZeroDivisionError /\
  down_sample_basic dataarray (Z.neg p) = Raises (Numpy ValueError) /\
  down_sample_basic [] (Z.pos p) = Raises (Numpy IndexError).
Proof.
  split; [reflexivity|]. split; [reflexivity|].
  unfold down_sample_basic, range. cbn [Z.eqb Z.ltb Z.compare Z.to_nat].
  destruct (Pos2Nat.is_succ p) as [k ->]. reflexivity.
Qed.

(** ** [mean_patient] *)

Lemma assign_row_same row v :
  length v = length row -> assign_row row v = Ok v.
Proof. intros H. unfold assign_row. now rewrite H, Nat.eqb_refl. Qed.

Lemma update_update {A : Type} (xs : list A) i v w :
  update (update xs i v) i w = update xs i w.
Proof.
  revert i. induction xs as [|x xs IH]; intros [|i]; simpl; try reflexivity.
  now rewrite IH.
Qed.

(** Every pass of the loop overwrites row 0. *)
Lemma mean_patient_loop {K : Type} (data : list (K * vec)) F n (arr : mat) :
  shape (S n) F arr ->
  Forall (fun item => length (snd item) = F) data ->
  foldM (fun arr item =>
           old <- getitem arr 0%Z ;;
           new <- assign_row old (snd item) ;;
           setitem arr 0%Z new)
        data arr
  = Ok (update arr 0
          (fold_left (fun _ item => snd item) data (nth 0 arr []))).
Proof.
  intros HS Hd. revert arr HS.
  induction Hd as [|item data Hi _ IH]; intros arr HS.
  - destruct HS as [Hn _]. destruct arr as [|r0 t]; [discriminate|].
    reflexivity.
  - cbn [foldM fold_left].
    assert (Hlen : (0 < length arr)%nat) by (destruct HS as [-> _]; lia).
    change 0%Z with (Z.of_nat 0).
    rewrite (getitem_nat arr 0 [] Hlen). cbn [bind].
    rewrite assign_row_same
      by (rewrite (shape_nth_row (S n) F arr 0 HS); [exact Hi | lia]).
    cbn [bind]. rewrite (setitem_nat arr 0 _ Hlen). cbn [bind].
    change (Z.of_nat 0) with 0%Z.
    rewrite IH by (apply shape_update; assumption).
    rewrite update_update, nth_update by exact Hlen. reflexivity.
Qed.

Lemma fold_left_last {A B : Type} (f : B -> A) (xs : list B) x a :
  fold_left (fun _ y => f y) (xs ++ [x]) a = f x.
Proof. now rewrite fold_left_app. Qed.

(** X23: with two or more regions in the dictionary (all spectra of
    length [freq_number]) [mean_patient] does not average the regions:
    the row index never advances, so each spectrum overwrites row 0 and
    the result is the column mean of the last region's spectrum and the
    uninitialised rows 1, 2, ... of [np.empty]; the spectra of the other
    regions have no influence on it. *)
Theorem mean_patient_last_region {K : Type} (uninit : mat)
  (front front' : list (K * vec)) (k : K) (v : vec) (F : nat) :
  shape (S (length front)) F uninit ->
  length front' = length front ->
  Forall (fun item => length (snd item) = F) (front ++ [(k, v)]) ->
  Forall (fun item => length (snd item) = F) front' ->
  mean_patient uninit (front ++ [(k, v)]) F
  = Ok (mean_axis0 F (v :: tl uninit)) /\
  mean_patient uninit (front' ++ [(k, v)]) F
  = mean_patient uninit (front ++ [(k, v)]) F.
Proof.
  intros HS Hl Hd Hd'.
  assert (E : forall fr : list (K * vec),
            Forall (fun item => length (snd item) = F) (fr ++ [(k, v)]) ->
            mean_patient uninit (fr ++ [(k, v)]) F
            = Ok (mean_axis0 F (v :: tl uninit))).
  { intros fr Hfr. unfold mean_patient.
    rewrite (mean_patient_loop _ F (length front) uninit HS Hfr).
    cbn [bind]. rewrite (fold_left_last snd). 
    destruct HS as [Hn _]. destruct uninit as [|r0 t]; [discriminate|].
    reflexivity. }
  split; [now apply E|]. rewrite (E front Hd). apply E.
  apply Forall_app. split; [exact Hd'|].
  apply Forall_app in Hd. now destruct Hd.
Qed.

Lemma mean_patient_last_region_witness :
  mean_patient [[Fin 5; Fin 6]; [Fin 7; Fin 8]]
               ([(1%nat, [Fin 1; Fin 2])] ++ [(2%nat, [Fin 3; Fin 4])]) 2
  = Ok (mean_axis0 2 ([Fin 3; Fin 4] :: tl [[Fin 5; Fin 6]; [Fin 7; Fin 8]]))
  /\
  mean_patient [[Fin 5; Fin 6]; [Fin 7; Fin 8]]
               ([(1%nat, [Fin 9; Fin 9])] ++ [(2%nat, [Fin 3; Fin 4])]) 2
  = mean_patient [[Fin 5; Fin 6]; [Fin 7; Fin 8]]
                 ([(1%nat, [Fin 1; Fin 2])] ++ [(2%nat, [Fin 3; Fin 4])]) 2.
Proof.
  apply (mean_patient_last_region [[Fin 5; Fin 6]; [Fin 7; Fin 8]]
           [(1%nat, [Fin 1; Fin 2])] [(1%nat, [Fin 9; Fin 9])] 2%nat
           [Fin 3; Fin 4] 2).
  - split; [reflexivity | repeat constructor].
  - reflexivity.
  - repeat constructor.
  - repeat constructor.
Defined.

Lemma mean_singleton x : mean [x] = x.
Proof.
  unfold mean, sum, of_nat. cbn [fold_right length INR].
  destruct x as [a| | |]; cbn [F64.add zero F64.div]; try reflexivity.
  - unfold zero. cbn [F64.add F64.div].
    destruct (Req_dec_T 1 0); [lra|]. f_equal. field.
  - unfold zero. cbn [F64.add F64.div]. destruct (Rlt_dec 1 0); [lra | reflexivity].
  - unfold zero. cbn [F64.add F64.div]. destruct (Rlt_dec 1 0); [lra | reflexivity].
Qed.

Lemma map_nth_seq {A : Type} (d : A) xs :
  map (fun k => nth k xs d) (seq 0 (length xs)) = xs.
Proof.
  apply (nth_ext _ _ d d); [now rewrite length_map, length_seq|].
  intros i Hi. rewrite length_map, length_seq in Hi.
  rewrite (nth_map' _ _ _ 0%nat) by now rewrite length_seq.
  now rewrite seq_nth.
Qed.

(** X24: for a dictionary with a single region [mean_patient] returns
    that region's spectrum; for an empty dictionary it returns
    [freq_number] times [nan], the mean over no rows. *)
Theorem mean_patient_one_region {K : Type} (k : K) (u v : vec) (F : nat) :
  length u = F -> length v = F ->
  mean_patient [u] [(k, v)] F = Ok v /\
  mean_patient [] (@nil (K * vec)) F = Ok (repeat NaN F).
Proof.
  intros Hu Hv. split.
  - unfold mean_patient.
    rewrite (mean_patient_loop [(k, v)] F 0 [u]);
      [|split; [reflexivity | now repeat constructor]
       |now repeat constructor].
    cbn [bind fold_left snd update]. f_equal. unfold mean_axis0.
    cbn [map]. rewrite <- Hv at 1.
    rewrite (map_ext _ (fun k0 => nth k0 v zero)); [apply map_nth_seq|].
    intros j. apply mean_singleton.
  - unfold mean_patient, mean_axis0. cbn [foldM bind map]. f_equal.
    rewrite (map_ext _ (fun _ => NaN)) by (intros; apply mean_nil).
    now rewrite map_const_repeat, length_seq.
Qed.

Lemma mean_patient_one_region_witness :
  mean_patient [[Fin 0; Fin 0]] [(1%nat, [Fin 3; Fin 4])] 2
  = Ok [Fin 3; Fin 4] /\
  mean_patient [] (@nil (nat * vec)) 2 = Ok (repeat NaN 2).
Proof.
  apply (mean_patient_one_region 1%nat [Fin 0; Fin 0] [Fin 3; Fin 4] 2);
    reflexivity.
Defined.

(** ** Paths *)

Lemma ends_with_sep_data (here_dir : text) (tail : text) :
  ends_with_sep (here_dir ++ tail ++ data_dir) = false.
Proof.
  unfold ends_with_sep. rewrite !rev_app_distr. reflexivity.
Qed.

(** X25: [get_file_path] returns an absolute [filename] as it is, leaving
    the data directory; any other [filename] is appended to what
    [get_data_path] returns. *)
Theorem get_file_path_cases (here_dir filename : text) :
  get_file_path here_dir filename
  = if starts_with [sep] filename then filename
    else get_data_path here_dir ++ filename.
Proof.
  unfold get_file_path, get_data_path, join. cbn [fold_left].
  unfold join2 at 1.
  destruct (starts_with [sep] filename) eqn:E; [reflexivity|].
  change data_dir_sep with (data_dir ++ [sep]).
  unfold join2.
  change (starts_with [sep] data_dir) with false.
  change (starts_with [sep] (data_dir ++ [sep])) with false.
  cbv iota.
  destruct (match here_dir with [] => true | _ :: _ => ends_with_sep here_dir end).
  - pose proof (ends_with_sep_data here_dir []) as H. cbn [app] in H.
    rewrite H.
    destruct (here_dir ++ data_dir) eqn:E1.
    + apply (f_equal (@length _)) in E1. rewrite length_app in E1.
      simpl in E1. lia.
    + rewrite <- E1. rewrite <- !app_assoc. reflexivity.
  - pose proof (ends_with_sep_data here_dir [sep]) as H.
    change (here_dir ++ [sep] ++ data_dir)
      with (here_dir ++ sep :: data_dir) in H.
    rewrite H.
    destruct (here_dir ++ sep :: data_dir) eqn:E1.
    + apply (f_equal (@length _)) in E1. rewrite length_app in E1.
      simpl in E1. lia.
    + rewrite <- E1. rewrite <- !app_assoc. reflexivity.
Qed.

(** ** The bounds test of the basin-hopping run *)

Lemma forallb_combine_nth {A : Type} (f : A -> A -> bool) (d : A) xs ys :
  length xs = length ys ->
  (forallb (fun p => f (fst p) (snd p)) (combine xs ys) = true <->
   forall i, (i < length xs)%nat -> f (nth i xs d) (nth i ys d) = true).
Proof.
  revert ys. induction xs as [|x xs IH]; intros [|y ys] Hl;
    try discriminate Hl.
  - split; [intros _ i Hi; simpl in Hi; lia | reflexivity].
  - cbn [combine forallb fst snd]. rewrite andb_true_iff.
    rewrite (IH ys) by (simpl in Hl; lia). split.
    + intros [H0 H] [|i] Hi; [exact H0|]. apply H. simpl in Hi. lia.
    + intros H. split; [apply (H 0%nat); simpl; lia|].
      intros i Hi. apply (H (S i)). simpl. lia.
Qed.

Lemma all_leb_same x y :
  length x = length y ->
  all_leb x y = Ok (forallb (fun p => leb (fst p) (snd p)) (combine x y)).
Proof. intros H. unfold all_leb. now rewrite H, Nat.eqb_refl. Qed.

Lemma leb_nan_l y : leb NaN y = false.
Proof. reflexivity. Qed.

(** X30: for a trial point with as many coordinates as the bounds the
    acceptance test never raises, and it accepts exactly the points of the
    box: every coordinate between its lower and its upper bound.  A point
    with a [nan] coordinate is rejected. *)
Theorem BH_call_box (self : BH_bounds) (x : vec) :
  length x = length (xmax self) -> length x = length (xmin self) ->
  exists b,
    BH_call self x = Ok b /\
    (b = true <->
     forall i, (i < length x)%nat ->
       leb (nth i (xmin self) zero) (nth i x zero) = true /\
       leb (nth i x zero) (nth i (xmax self) zero) = true) /\
    (In NaN x -> b = false).
Proof.
  intros Hmax Hmin. unfold BH_call.
  rewrite (all_leb_same _ _ Hmax). cbn [bind].
  rewrite (all_leb_same _ _ (eq_sym Hmin)). cbn [bind].
  eexists. split; [reflexivity|].
  assert (Hiff :
    forallb (fun p => leb (fst p) (snd p)) (combine x (xmax self))
    && forallb (fun p => leb (fst p) (snd p)) (combine (xmin self) x) = true
    <-> forall i, (i < length x)%nat ->
          leb (nth i (xmin self) zero) (nth i x zero) = true /\
          leb (nth i x zero) (nth i (xmax self) zero) = true).
  { rewrite andb_true_iff.
    rewrite (forallb_combine_nth leb zero x (xmax self) Hmax).
    rewrite (forallb_combine_nth leb zero (xmin self) x (eq_sym Hmin)).
    rewrite <- Hmin. split.
    - intros [H1 H2] i Hi. split; [now apply H2 | now apply H1].
    - intros H. split; intros i Hi; now apply H. }
  split; [exact Hiff|].
  intros Hnan. apply not_true_is_false. intros Hb.
  destruct (In_nth _ _ zero Hnan) as [i [Hi Ei]].
  destruct (proj1 Hiff Hb i Hi) as [_ H]. rewrite Ei in H. discriminate.
Qed.

Lemma BH_call_box_witness :
  exists b,
    BH_call default_bounds x0 = Ok b /\
    (b = true <->
     forall i, (i < length x0)%nat ->
       leb (nth i (xmin default_bounds) zero) (nth i x0 zero) = true /\
       leb (nth i x0 zero) (nth i (xmax default_bounds) zero) = true) /\
    (In NaN x0 -> b = false).
Proof.
  apply (BH_call_box default_bounds x0); reflexivity.
Defined.

(** * The scores of a run *)

(** ** The passes of the loop *)




(** ** A run that takes both branches *)

Lemma mixed_restrict :
  restrict mixed_profiles [0%Z; 1%Z]
  = Ok [[mkC (Fin 1) (Fin 0); mkC (Fin 10) (Fin 0)];
        [mkC (Fin 0) (Fin 0); mkC (Fin 1) (Fin 0)]].
Proof. reflexivity. Qed.

Lemma zero_bin_convolve :
  convolve_same (map cabs [mkC (Fin 0) (Fin 0); mkC (Fin 1) (Fin 0)]) unit_lpf
  = Ok [Fin 0; Fin 1].
Proof.
  simpl map. rewrite !cabs_real by lra.
  unfold convolve_same, unit_lpf. simpl. repeat f_equal; ring.
Qed.

Lemma zero_bin_align_model :
  align_model [mkC (Fin 0) (Fin 0); mkC (Fin 1) (Fin 0)] unit_lpf
  = Ok [NaN; PInf].
Proof.
  unfold align_model. rewrite zero_bin_convolve. cbn [bind].
  now rewrite (proj1 agreement_log_of_zero).
Qed.

Lemma zero_bin_align_data : align_data [Fin 0; Fin 1] = [NaN; PInf].
Proof.
  unfold align_data.
  replace (F64.eqb (sum [Fin 0; Fin 1]) zero) with false
    by (decide_R; reflexivity).
  exact (proj1 agreement_log_of_zero).
Qed.

Lemma match_align_model :
  exists qmodel,
    align_model [mkC (Fin 1) (Fin 0); mkC (Fin 10) (Fin 0)] unit_lpf
    = Ok qmodel /\
    sum qmodel = zero /\ qmodel = align_data [Fin 1; Fin 10].
Proof.
  exists (center (mag2db [Fin 1; Fin 10])). split.
  - unfold align_model. now rewrite match_convolve.
  - split; [|now rewrite match_align_data].
    destruct (mag2db_positive _ match_positive) as [ys [E Hl]].
    rewrite E. apply sum_center_Fin. intros ->. discriminate.
Qed.

Lemma mixed_scores :
  foldM (score_step [[mkC (Fin 1) (Fin 0); mkC (Fin 10) (Fin 0)];
                     [mkC (Fin 0) (Fin 0); mkC (Fin 1) (Fin 0)]]
                    mixed_data unit_lpf)
        [0%Z; 1%Z] (repeat zero 2)
  = Ok [zero; NaN].
Proof.
  destruct match_align_model as [qmodel [E0 [Hs _]]].
  cbn [foldM]. unfold score_step at 1.
  change (getitem mixed_data 0%Z) with (Ok (A := vec) [Fin 1; Fin 10]).
  cbn [bind].
  change (getitem [[mkC (Fin 1) (Fin 0); mkC (Fin 10) (Fin 0)];
                   [mkC (Fin 0) (Fin 0); mkC (Fin 1) (Fin 0)]] 0%Z)
    with (Ok (A := cvec) [mkC (Fin 1) (Fin 0); mkC (Fin 10) (Fin 0)]).
  cbn [bind]. rewrite E0. cbn [bind].
  rewrite (agreement_model_zero _ _ Hs). cbn [bind].
  change (setitem (repeat zero 2) 0%Z zero) with (Ok (A := vec) [zero; zero]).
  cbn [bind]. unfold score_step.
  change (getitem mixed_data 1%Z) with (Ok (A := vec) [Fin 0; Fin 1]).
  cbn [bind].
  change (getitem [[mkC (Fin 1) (Fin 0); mkC (Fin 10) (Fin 0)];
                   [mkC (Fin 0) (Fin 0); mkC (Fin 1) (Fin 0)]] 1%Z)
    with (Ok (A := cvec) [mkC (Fin 0) (Fin 0); mkC (Fin 1) (Fin 0)]).
  cbn [bind]. rewrite zero_bin_align_model, zero_bin_align_data. cbn [bind].
  rewrite (proj2 agreement_log_of_zero). reflexivity.
Qed.

Lemma mixed_cost :
  cost_of_profiles mixed_profiles unit_lpf mixed_data [0%Z; 1%Z] = Ok NaN.
Proof.
  unfold cost_of_profiles. rewrite mixed_restrict. cbn [bind].
  change (length [0%Z; 1%Z]) with 2%nat. rewrite mixed_scores. reflexivity.
Qed.

(** ** The score of a region *)






(** The run of the witness takes both branches: region 0, whose aligned
    curves are finite, is scored 0 by the zero-sum test, and region 1,
    whose curves hold a zero magnitude, is scored by [pearsonr]. *)
Example mixed_run_branches :
  foldM (score_step [[mkC (Fin 1) (Fin 0); mkC (Fin 10) (Fin 0)];
                     [mkC (Fin 0) (Fin 0); mkC (Fin 1) (Fin 0)]]
                    mixed_data unit_lpf)
        [0%Z; 1%Z] (repeat zero 2)
  = Ok [zero; NaN] /\
  F64.eqb (sum (align_data [Fin 0; Fin 1])) zero = false /\
  align_model [mkC (Fin 0) (Fin 0); mkC (Fin 1) (Fin 0)] unit_lpf
  = Ok [NaN; PInf] /\
  F64.eqb (sum [NaN; PInf]) zero = false /\
  pearsonr (align_data [Fin 0; Fin 1]) [NaN; PInf] = Ok NaN.
Proof.
  split; [exact mixed_scores|]. rewrite zero_bin_align_data.
  split; [reflexivity|]. split; [exact zero_bin_align_model|].
  split; reflexivity.
Qed.

(** ** The cost as the negated mean of the scores *)



(** ** Where exact arithmetic reaches the Pearson branch *)

(** C5 as stated fails: in exact arithmetic the cost is not 0 for all
    inputs, and the Pearson branch is reached without any rounding.
    Region 1 of the two-region model has the magnitudes 0 and 1 and the
    empirical spectrum 0 and 1.  The zero becomes [-inf] in dB, the mean
    is [-inf], the centred curves are ([nan], [+inf]) and their sums are
    [nan]; both tests against zero fail, the score is what [pearsonr]
    returns, [nan], and the cost is [nan]. *)
Lemma exact_cost_reaches_pearson :
  exists sel row qmodel,
    restrict mixed_profiles [0%Z; 1%Z] = Ok sel /\
    getitem sel 1%Z = Ok row /\
    getitem mixed_data 1%Z = Ok [Fin 0; Fin 1] /\
    align_model row unit_lpf = Ok qmodel /\
    F64.eqb (sum qmodel) zero = false /\
    F64.eqb (sum (align_data [Fin 0; Fin 1])) zero = false /\
    agreement (align_data [Fin 0; Fin 1]) qmodel
    = pearsonr (align_data [Fin 0; Fin 1]) qmodel /\
    agreement (align_data [Fin 0; Fin 1]) qmodel = Ok NaN /\
    foldM (score_step sel mixed_data unit_lpf) [0%Z; 1%Z]
          (repeat zero (length [0%Z; 1%Z]))
    = Ok [zero; NaN] /\
    cost_of_profiles mixed_profiles unit_lpf mixed_data [0%Z; 1%Z] = Ok NaN /\
    (forall eig params C D frange p,
       unpack params = Ok p ->
       frequency_sweep eig p C D frange = Ok mixed_profiles ->
       network_transfer_cost eig params C D unit_lpf mixed_data frange
                             [0%Z; 1%Z]
       = Ok NaN) /\
    NaN <> zero.
Proof.
  exists [[mkC (Fin 1) (Fin 0); mkC (Fin 10) (Fin 0)];
          [mkC (Fin 0) (Fin 0); mkC (Fin 1) (Fin 0)]].
  exists [mkC (Fin 0) (Fin 0); mkC (Fin 1) (Fin 0)], [NaN; PInf].
  split; [exact mixed_restrict|]. split; [reflexivity|].
  split; [reflexivity|]. split; [exact zero_bin_align_model|].
  split; [reflexivity|]. rewrite zero_bin_align_data.
  split; [reflexivity|]. split; [reflexivity|].
  split; [exact (proj2 agreement_log_of_zero)|].
  split; [exact mixed_scores|]. split; [exact mixed_cost|].
  split; [|discriminate].
  intros eig params C D frange p Hu Hsw.
  unfold network_transfer_cost. rewrite Hu. cbn [bind].
  rewrite Hsw. cbn [bind]. exact mixed_cost.
Qed.

(** ** Rounding in the clamp *)

(** C7 as stated fails in float64.  The single coupling term 3 + 4j has
    modulus 5, far above the threshold 0.25, yet the clamp does not return
    it: [5 * exp(1j*atan2(4, 3))] is stored as
    3.0000000000000004 + 3.9999999999999996j, that is
    (6755399441055745 + 9007199254740991j) / 2^51.  The stored number does
    not lie on the ray through 3 + 4j (4 times its real part is not 3
    times its imaginary part), so its phase is not that of 3 + 4j; its
    modulus is not 5 (the squares do not add up to 25); and [np.angle]
    returns 0.9272952180016121 for it, against 0.9272952180016122 for
    3 + 4j. *)
Lemma clamp_rounds_phase :
  Binary64.clamp Binary64.glibc [Binary64.three_four]
  = Ok [Binary64.stored] /\
  Binary64.amax (map (Binary64.np_abs Binary64.glibc) [Binary64.three_four])
  = Ok (Binary64.np_abs Binary64.glibc Binary64.three_four) /\
  PrimFloat.ltb (Binary64.np_abs Binary64.glibc Binary64.three_four)
                (PrimFloat.mul Binary64.zero_thr
                   (Binary64.np_abs Binary64.glibc Binary64.three_four))
  = false /\
  Binary64.dyadic (fst Binary64.stored) = Some (6755399441055745, -51)%Z /\
  Binary64.dyadic (snd Binary64.stored) = Some (9007199254740991, -51)%Z /\
  (4 * 6755399441055745 <> 3 * 9007199254740991)%Z /\
  (6755399441055745 * 6755399441055745
   + 9007199254740991 * 9007199254740991 <> 25 * 2 ^ 102)%Z /\
  Binary64.np_angle Binary64.glibc Binary64.three_four = Binary64.theta /\
  Binary64.np_angle Binary64.glibc Binary64.stored = Binary64.theta' /\
  PrimFloat.eqb Binary64.theta Binary64.theta' = false.
Proof.
  repeat split; try reflexivity; intros H; vm_compute in H; discriminate.
Qed.
